(** * Lucendex quote engine: a shallow embedding of the router core

    The development embeds, function by function, the Go sources

    - [backend/internal/router/types.go], [validator.go], [hash.go],
      [breaker.go] (circuit breaker and pathfinder) and
    - the in-memory KV store ([kv.MemoryStore]),

    and proves the properties of the specification about them.

    Conventions.
    - A Go [string] is a byte sequence: it is a Rocq [string] (a list of
      8-bit [ascii]).
    - [decimal.Decimal] (github.com/shopspring/decimal) is a pair of an
      unbounded integer coefficient and a base-10 exponent; the exponent is
      an [int32] in Go and a [Z] here (the library panics on exponent
      overflow, which no operation below comes close to).
    - Go's [int] and [int64] counters are [Z]; the quantities held in them
      (byte counts, failure counts) stay far below 2^63.
    - [time.Time] is a number of nanoseconds; [time.Now()] is an argument
      [now] of every operation that reads the clock.
    - Go maps are stdpp [gmap]s, slices are lists. *)

From Stdlib Require Import ZArith QArith Qround Qpower Qabs Lqa Lia.
From Stdlib Require Import String Ascii List Bool.
From Stdlib Require Import Floats.
From stdpp Require Import gmap strings list fin_maps pretty sorting.

Open Scope Z_scope.

(* ===================================================================== *)
(** * Part I: the embedding                                               *)
(* ===================================================================== *)

(** ** Errors ([router/errors.go] and [kv/errors.go]) *)

Inductive error : Set :=
| ErrInvalidAmount
| ErrAmountTooLarge
| ErrInvalidAsset
| ErrSameAssets
| ErrInvalidAddress
| ErrNoRoute
| ErrInsufficientLiquidity
| ErrCircuitBreakerOpen
| ErrKeyEmpty
| ErrNamespaceEmpty
| ErrKeyTooLong
| ErrValueTooLarge
| ErrMemoryLimit
| ErrKeyNotFound
| ErrNamespaceQuota
| ErrInvalidCounter.

#[global] Instance error_eq_dec : EqDecision error.
Proof. solve_decision. Defined.

(** ** Arbitrary-precision decimals (shopspring/decimal) *)

Module decimal.

Record Decimal : Set := New { value : Z; exp : Z }.

(** Number of digits after the decimal point kept by [Div]. *)
Definition DivisionPrecision : Z := 16.

(** The library's [Zero] is [New(0, 1)]. *)
Definition Zero : Decimal := New 0 1.

Definition NewFromInt (v : Z) : Decimal := New v 0.

(** [rescale]: same number (up to truncation when the exponent grows)
    with the exponent [e]. *)
Definition rescale (d : Decimal) (e : Z) : Decimal :=
  if exp d =? e then d
  else
    let diff := Z.abs (e - exp d) in
    let expScale := 10 ^ diff in
    if exp d <? e then New (Z.quot (value d) expScale) e
    else New (value d * expScale) e.

Definition RescalePair (d1 d2 : Decimal) : Decimal * Decimal :=
  if exp d1 =? exp d2 then (d1, d2)
  else
    let baseScale := Z.min (exp d1) (exp d2) in
    if negb (baseScale =? exp d1) then (rescale d1 baseScale, d2)
    else (d1, rescale d2 baseScale).

Definition Add (d d2 : Decimal) : Decimal :=
  let '(rd, rd2) := RescalePair d d2 in
  New (value rd + value rd2) (exp rd).

Definition Sub (d d2 : Decimal) : Decimal :=
  let '(rd, rd2) := RescalePair d d2 in
  New (value rd - value rd2) (exp rd).

Definition Mul (d d2 : Decimal) : Decimal :=
  New (value d * value d2) (exp d + exp d2).

Definition Abs (d : Decimal) : Decimal := New (Z.abs (value d)) (exp d).

Definition Cmp (d d2 : Decimal) : comparison :=
  if exp d =? exp d2 then value d ?= value d2
  else
    let '(rd, rd2) := RescalePair d d2 in
    value rd ?= value rd2.

Definition LessThan (d d2 : Decimal) : bool :=
  match Cmp d d2 with Lt => true | _ => false end.

Definition LessThanOrEqual (d d2 : Decimal) : bool :=
  match Cmp d d2 with Gt => false | _ => true end.

Definition GreaterThan (d d2 : Decimal) : bool :=
  match Cmp d d2 with Gt => true | _ => false end.

Definition IsZero (d : Decimal) : bool := value d =? 0.

(** [QuoRem]: truncated quotient with [precision] digits after the point
    and the remainder.  [None] is the library's
    [panic("decimal division by 0")]. *)
Definition QuoRem (d d2 : Decimal) (precision : Z)
  : option (Decimal * Decimal) :=
  if value d2 =? 0 then None
  else
    let scale := - precision in
    let e := exp d - exp d2 - scale in
    let '(aa, bb, scalerest) :=
      if e <? 0
      then (value d, value d2 * 10 ^ (- e), exp d)
      else (value d * 10 ^ e, value d2, scale + exp d2) in
    let q := Z.quot aa bb in
    let r := Z.rem aa bb in
    Some (New q scale, New r scalerest).

(** [DivRound]: the quotient rounded half away from zero to [precision]
    digits after the point. *)
Definition DivRound (d d2 : Decimal) (precision : Z) : option Decimal :=
  match QuoRem d d2 precision with
  | None => None
  | Some (q, r) =>
      let rv2 := Z.abs (value r) * 2 in
      let r2 := New rv2 (exp r + precision) in
      match Cmp r2 (Abs d2) with
      | Lt => Some q
      | _ =>
          if Z.sgn (value d) * Z.sgn (value d2) <? 0
          then Some (Sub q (New 1 (- precision)))
          else Some (Add q (New 1 (- precision)))
      end
  end.

Definition Div (d d2 : Decimal) : option Decimal :=
  DivRound d d2 DivisionPrecision.

(** [String]: the plain decimal literal, trailing zeros of the
    fractional part trimmed. *)
Fixpoint trimTrailingZeros_rev (s : string) : string :=
  match s with
  | String "0" r => trimTrailingZeros_rev r
  | _ => s
  end.

Definition trimTrailingZeros (s : string) : string :=
  String.rev (trimTrailingZeros_rev (String.rev s)).

Fixpoint Repeat (s : string) (n : nat) : string :=
  match n with O => "" | S n' => s +:+ Repeat s n' end.

Definition String (d : Decimal) : string :=
  if 0 <=? exp d then pretty (value (rescale d 0))
  else
    let str := pretty (Z.abs (value d)) in
    let dExpInt := Z.to_nat (- exp d) in
    let len := String.length str in
    let '(intPart, fractionalPart) :=
      if Nat.ltb dExpInt len
      then (substring 0 (len - dExpInt) str,
            substring (len - dExpInt) dExpInt str)
      else ("0", Repeat "0" (dExpInt - len) +:+ str) in
    let fractionalPart := trimTrailingZeros fractionalPart in
    let number :=
      if Nat.ltb 0 (String.length fractionalPart)
      then intPart +:+ "." +:+ fractionalPart
      else intPart in
    if value d <? 0 then "-" +:+ number else number.

(** The integers [DivRound d d2 16] divides: the coefficients brought to
    the scale of the quotient. *)
Definition div_operands (d d2 : Decimal) : Z * Z :=
  let e := exp d - exp d2 + 16 in
  if e <? 0 then (value d, value d2 * 10 ^ (- e))
  else (value d * 10 ^ e, value d2).

(** The rational number a decimal denotes: [value * 10 ^ exp]. *)
Definition toQ (d : Decimal) : Q :=
  (inject_Z (value d) * Qpower (inject_Z 10) (exp d))%Q.

End decimal.


(** Rounding of a rational to the nearest integer, halves away from zero:
    the rounding of [decimal.DivRound]. *)
Definition round_half_away (q : Q) : Z :=
  if Qle_bool 0 q then Qfloor (q + (1 # 2))
  else - Qfloor (- q + (1 # 2)).

(** [q] rounded to 16 digits after the decimal point. *)
Definition round16 (q : Q) : Q :=
  Qmake (round_half_away (q * inject_Z (10 ^ 16))) (Z.to_pos (10 ^ 16)).

(** ** Data model ([router/types.go]) *)

Record Asset : Set := { Currency : string; Issuer : string }.

Definition Asset_String (a : Asset) : string :=
  if String.eqb (Issuer a) "" then Currency a
  else Currency a +:+ "." +:+ Issuer a.

Definition IsXRP (a : Asset) : bool :=
  String.eqb (Currency a) "XRP" && String.eqb (Issuer a) "".

Record QuoteRequest : Set := {
  In_ : Asset;
  Out : Asset;
  Amount : decimal.Decimal
}.

Record Hop : Set := {
  Type_ : string;
  hop_In : Asset;
  hop_Out : Asset;
  AmountIn : decimal.Decimal;
  AmountOut : decimal.Decimal
}.

Record Fees : Set := {
  RouterBps : Z;
  TradingFees : decimal.Decimal;
  EstOutFee : decimal.Decimal
}.

Record Route : Set := {
  Hops : list Hop;
  TotalFees : Fees;
  PriceImpact : decimal.Decimal
}.

Record AMMPool : Set := {
  Asset1 : Asset;
  Asset2 : Asset;
  Asset1Reserve : decimal.Decimal;
  Asset2Reserve : decimal.Decimal;
  TradingFeeBps : Z;
  LPToken : string;
  pool_Account : string
}.

Record Offer : Set := {
  TakerPays : Asset;
  TakerGets : Asset;
  Quality : decimal.Decimal;
  offer_Account : string;
  Sequence : Z
}.

(** ** Validator ([router/validator.go]) *)

Module regexp.

(** The fragment of RE2 the validator uses: an anchored sequence of
    character classes, each with a bounded repetition [{lo,hi}]. *)
Definition class : Set := list (ascii * ascii).

Record item : Set := { cls : class; lo : nat; hi : nat }.

Definition Regexp : Set := list item.

Definition in_range (c : ascii) (r : ascii * ascii) : bool :=
  (nat_of_ascii (fst r) <=? nat_of_ascii c)%nat
  && (nat_of_ascii c <=? nat_of_ascii (snd r))%nat.

Definition in_class (k : class) (c : ascii) : bool :=
  existsb (in_range c) k.

(** [match_rep k n m s rest]: consume between [n] and [n + m] characters
    of class [k] from [s] (longest first is irrelevant for a yes/no
    answer) and continue with [rest]. *)
Fixpoint match_rep (k : class) (n m : nat) (rest : string -> bool)
  (s : string) : bool :=
  match n with
  | S n' =>
      match s with
      | String c s' => in_class k c && match_rep k n' m rest s'
      | EmptyString => false
      end
  | O =>
      match m with
      | O => rest s
      | S m' =>
          rest s
          || match s with
             | String c s' => in_class k c && match_rep k O m' rest s'
             | EmptyString => false
             end
      end
  end.

(** [^ items $]: the whole text must be consumed. *)
Fixpoint match_items (re : Regexp) (s : string) : bool :=
  match re with
  | [] => String.eqb s ""
  | it :: re' =>
      match_rep (cls it) (lo it) (hi it - lo it) (match_items re') s
  end.

Definition MatchString (re : Regexp) (s : string) : bool :=
  match_items re s.

Definition lit (c : ascii) : item := {| cls := [(c, c)]; lo := 1; hi := 1 |}.

End regexp.

(** [^r[1-9A-HJ-NP-Za-km-z]{24,34}$] *)
Definition base58_class : regexp.class :=
  [("1", "9"); ("A", "H"); ("J", "N"); ("P", "Z"); ("a", "k"); ("m", "z")]%char.

Definition xrplAddressRegex : regexp.Regexp :=
  [regexp.lit "r"; {| regexp.cls := base58_class; regexp.lo := 24; regexp.hi := 34 |}].

(** [^[A-Z0-9]{3,40}$] *)
Definition currency_class : regexp.class := [("A", "Z"); ("0", "9")]%char.

Definition currencyRegex : regexp.Regexp :=
  [{| regexp.cls := currency_class; regexp.lo := 3; regexp.hi := 40 |}].

(** [strings.TrimSpace]: leading and trailing Unicode white space removed.
    White space is '\t' '\n' '\v' '\f' '\r' ' ' and, UTF-8 encoded, U+0085,
    U+00A0, U+1680, U+2000..U+200A, U+2028, U+2029, U+202F, U+205F,
    U+3000. *)
Module strings.

Definition asciiSpace (c : ascii) : bool :=
  let n := nat_of_ascii c in
  ((9 <=? n) && (n <=? 13))%nat || (n =? 32)%nat.

(** two-byte white space: C2 85, C2 A0 *)
Definition space2 (c1 c2 : ascii) : bool :=
  (nat_of_ascii c1 =? 194)%nat
  && ((nat_of_ascii c2 =? 133)%nat || (nat_of_ascii c2 =? 160)%nat).

(** three-byte white space: E1 9A 80; E2 80 80..8A, A8, A9, AF;
    E2 81 9F; E3 80 80 *)
Definition space3 (c1 c2 c3 : ascii) : bool :=
  let n1 := nat_of_ascii c1 in
  let n2 := nat_of_ascii c2 in
  let n3 := nat_of_ascii c3 in
  ((n1 =? 225) && (n2 =? 154) && (n3 =? 128))%nat
  || ((n1 =? 226) && (n2 =? 128)
      && (((128 <=? n3) && (n3 <=? 138))
          || (n3 =? 168) || (n3 =? 169) || (n3 =? 175)))%nat
  || ((n1 =? 226) && (n2 =? 129) && (n3 =? 159))%nat
  || ((n1 =? 227) && (n2 =? 128) && (n3 =? 128))%nat.

(** Leading white space dropped; [rev] tells that the text is read
    backwards (its multi-byte sequences are then reversed). *)
Fixpoint trim_front (rev : bool) (s : string) : string :=
  match s with
  | EmptyString => s
  | String c1 r1 =>
      if asciiSpace c1 then trim_front rev r1
      else
        match r1 with
        | EmptyString => s
        | String c2 r2 =>
            if (if rev then space2 c2 c1 else space2 c1 c2)
            then trim_front rev r2
            else
              match r2 with
              | EmptyString => s
              | String c3 r3 =>
                  if (if rev then space3 c3 c2 c1 else space3 c1 c2 c3)
                  then trim_front rev r3
                  else s
              end
        end
  end.

Definition TrimSpace (s : string) : string :=
  String.rev (trim_front true (String.rev (trim_front false s))).

End strings.

Definition MaxAmount : decimal.Decimal := decimal.NewFromInt (10 ^ 18).

Definition IsValidXRPLAddress (address : string) : bool :=
  if String.eqb address "" then false
  else
    let address := strings.TrimSpace address in
    if negb (regexp.MatchString xrplAddressRegex address) then false
    else true.

Definition ValidateAsset (asset : Asset) : option error :=
  if String.eqb (Currency asset) "" then Some ErrInvalidAsset
  else if String.eqb (Currency asset) "XRP" then
    if negb (String.eqb (Issuer asset) "") then Some ErrInvalidAsset
    else None
  else if negb (regexp.MatchString currencyRegex (Currency asset)) then
    Some ErrInvalidAsset
  else if String.eqb (Issuer asset) "" then Some ErrInvalidAsset
  else if negb (IsValidXRPLAddress (Issuer asset)) then Some ErrInvalidAddress
  else None.

Definition ValidateQuoteRequest (req : QuoteRequest) : option error :=
  if decimal.LessThanOrEqual (Amount req) decimal.Zero then Some ErrInvalidAmount
  else
    let maxAmount := decimal.NewFromInt (10 ^ 18) in
    if decimal.GreaterThan (Amount req) maxAmount then Some ErrAmountTooLarge
    else
      match ValidateAsset (In_ req) with
      | Some err => Some err
      | None =>
          match ValidateAsset (Out req) with
          | Some err => Some err
          | None =>
              if String.eqb (Asset_String (In_ req)) (Asset_String (Out req))
              then Some ErrSameAssets
              else None
          end
      end.

(** The validation rules as the specification words them: the checks in
    order, the first violated one decides. *)
Module validator_spec.

Definition is_base58 (c : ascii) : bool :=
  let n := nat_of_ascii c in
  (((49 <=? n) && (n <=? 57))         (* 1-9 *)
   || ((65 <=? n) && (n <=? 72))      (* A-H *)
   || ((74 <=? n) && (n <=? 78))      (* J-N *)
   || ((80 <=? n) && (n <=? 90))      (* P-Z *)
   || ((97 <=? n) && (n <=? 107))     (* a-k *)
   || ((109 <=? n) && (n <=? 122)))%nat. (* m-z *)

Definition is_upper_or_digit (c : ascii) : bool :=
  let n := nat_of_ascii c in
  (((65 <=? n) && (n <=? 90)) || ((48 <=? n) && (n <=? 57)))%nat.

Definition all_chars (p : ascii -> bool) (s : string) : bool :=
  forallb p (list_ascii_of_string s).

(** leading [r], then 24 to 34 base58 characters: 25 to 35 in all *)
Definition address_pattern (s : string) : bool :=
  match s with
  | String c rest =>
      Ascii.eqb c "r"
      && (24 <=? String.length rest)%nat && (String.length rest <=? 34)%nat
      && all_chars is_base58 rest
  | EmptyString => false
  end.

Definition currency_pattern (s : string) : bool :=
  (3 <=? String.length s)%nat && (String.length s <=? 40)%nat
  && all_chars is_upper_or_digit s.

Definition native (a : Asset) : bool := String.eqb (Currency a) "XRP".

(** structural errors: empty or malformed currency, wrong issuer
    presence *)
Definition structural_error (a : Asset) : bool :=
  String.eqb (Currency a) ""
  || (if native a then negb (String.eqb (Issuer a) "")
      else negb (currency_pattern (Currency a)) || String.eqb (Issuer a) "").

Definition address_error (a : Asset) : bool :=
  negb (native a) && negb (address_pattern (strings.TrimSpace (Issuer a))).

Definition check_asset (a : Asset) : option error :=
  if structural_error a then Some ErrInvalidAsset
  else if address_error a then Some ErrInvalidAddress
  else None.

Definition validate (req : QuoteRequest) : option error :=
  let amount := decimal.toQ (Amount req) in
  if Qle_bool amount 0 then Some ErrInvalidAmount
  else if negb (Qle_bool amount (inject_Z (10 ^ 18))) then
    Some ErrAmountTooLarge
  else
    match check_asset (In_ req) with
    | Some e => Some e
    | None =>
        match check_asset (Out req) with
        | Some e => Some e
        | None =>
            if String.eqb (Asset_String (In_ req)) (Asset_String (Out req))
            then Some ErrSameAssets
            else None
        end
    end.

End validator_spec.

(** ** Outcomes of a call

    A Go call returns, panics (a division by zero inside the decimal
    library), or, in this embedding only, exhausts the fuel that bounds its
    loops.  The theorems of Part II show that the fuel handed out by the
    embedded functions is never exhausted. *)

Inductive exec (A : Type) : Type :=
| Done (a : A)
| Panic
| OutOfFuel.

Arguments Done {A} a.
Arguments Panic {A}.
Arguments OutOfFuel {A}.

#[global] Instance exec_ret : MRet exec := @Done.

#[global] Instance exec_bind : MBind exec := λ A B f m,
  match m with
  | Done a => f a
  | Panic => Panic
  | OutOfFuel => OutOfFuel
  end.

(** A panicking library call inside a computation. *)
Definition must {A : Type} (o : option A) : exec A :=
  match o with Some a => Done a | None => Panic end.

(** ** Pathfinder ([router/breaker.go], second unit) *)

Definition MaxHops : nat := 3.

Record Pathfinder : Set := {
  pools : list AMMPool;
  offers : list Offer
}.

Definition NewPathfinder (pools : list AMMPool) (offers : list Offer)
  : Pathfinder :=
  {| pools := pools; offers := offers |}.

(** An edge points back to its pool or offer by index into the snapshot. *)
Record edge : Set := {
  to : string;
  weight : decimal.Decimal;
  pool : option nat;
  offer : option nat
}.

(** A queue entry.  The Go struct also has an [index] field that [Swap],
    [Push] and [Pop] write and nothing reads; it is left out. *)
Record node : Set := {
  asset : string;
  cost : decimal.Decimal
}.

(** [1 - fee_bps / 10000]; the divisor is not zero, so [Div] returns. *)
Definition feeMultiplier (bps : Z) : exec decimal.Decimal :=
  q ← must (decimal.Div (decimal.NewFromInt bps) (decimal.NewFromInt 10000));
  mret (decimal.Sub (decimal.NewFromInt 1) q).

(** *** The priority queue: [container/heap] over a slice of nodes *)

Module heap.

Abbreviation priorityQueue := (list node).

Definition Len (pq : priorityQueue) : nat := length pq.

Definition Less (pq : priorityQueue) (i j : nat) : bool :=
  match pq !! i, pq !! j with
  | Some a, Some b => decimal.LessThan (cost a) (cost b)
  | _, _ => false
  end.

Definition Swap (pq : priorityQueue) (i j : nat) : priorityQueue :=
  match pq !! i, pq !! j with
  | Some a, Some b => <[j := a]> (<[i := b]> pq)
  | _, _ => pq
  end.

(** [up]: sift the entry at [j] towards the root. *)
Fixpoint up_loop (fuel : nat) (h : priorityQueue) (j : nat)
  : priorityQueue :=
  match fuel with
  | O => h
  | S fuel' =>
      let i := ((j - 1) / 2)%nat in   (* parent *)
      if (i =? j)%nat || negb (Less h j i) then h
      else up_loop fuel' (Swap h i j) i
  end.

Definition up (h : priorityQueue) (j : nat) : priorityQueue :=
  up_loop (S j) h j.

(** [down]: sift the entry at [i] towards the leaves of [h[0..n)]. *)
Fixpoint down_loop (fuel : nat) (h : priorityQueue) (i n : nat)
  : priorityQueue :=
  match fuel with
  | O => h
  | S fuel' =>
      let j1 := (2 * i + 1)%nat in
      if (n <=? j1)%nat then h
      else
        let j2 := (j1 + 1)%nat in
        let j := if (j2 <? n)%nat && Less h j2 j1 then j2 else j1 in
        if negb (Less h j i) then h
        else down_loop fuel' (Swap h i j) j n
  end.

Definition down (h : priorityQueue) (i0 n : nat) : priorityQueue :=
  down_loop n h i0 n.

Definition Push (h : priorityQueue) (x : node) : priorityQueue :=
  let h := h ++ [x] in
  up h (Len h - 1).

(** [Pop]: the root is swapped to the end, the rest is repaired, the last
    entry is removed and returned. *)
Definition Pop (h : priorityQueue) : option (node * priorityQueue) :=
  let n := (Len h - 1)%nat in
  let h := Swap h 0 n in
  let h := down h 0 n in
  match last h with
  | Some item => Some (item, take n h)
  | None => None
  end.

End heap.

(** *** Graph construction *)

Definition graph_append (g : gmap string (list edge)) (k : string) (e : edge)
  : gmap string (list edge) :=
  <[k := default [] (g !! k) ++ [e]]> g.

Fixpoint buildGraph_pools (ps : list AMMPool) (i : nat)
  (graph : gmap string (list edge)) : exec (gmap string (list edge)) :=
  match ps with
  | [] => mret graph
  | p :: ps' =>
      let asset1 := Asset_String
        {| Currency := Currency (Asset1 p); Issuer := Issuer (Asset1 p) |} in
      let asset2 := Asset_String
        {| Currency := Currency (Asset2 p); Issuer := Issuer (Asset2 p) |} in
      fm ← feeMultiplier (TradingFeeBps p);
      let graph := graph_append graph asset1
        {| to := asset2; weight := fm; pool := Some i; offer := None |} in
      let graph := graph_append graph asset2
        {| to := asset1; weight := fm; pool := Some i; offer := None |} in
      buildGraph_pools ps' (S i) graph
  end.

Fixpoint buildGraph_offers (os : list Offer) (i : nat)
  (graph : gmap string (list edge)) : gmap string (list edge) :=
  match os with
  | [] => graph
  | o :: os' =>
      let from := Asset_String (TakerPays o) in
      let to_ := Asset_String (TakerGets o) in
      let graph := graph_append graph from
        {| to := to_; weight := Quality o; pool := None; offer := Some i |} in
      buildGraph_offers os' (S i) graph
  end.

Definition buildGraph (pf : Pathfinder) : exec (gmap string (list edge)) :=
  graph ← buildGraph_pools (pools pf) 0 ∅;
  mret (buildGraph_offers (offers pf) 0 graph).

(** *** Shortest-path search *)

(** [decimal.NewFromFloat(math.MaxFloat64)]: the shortest decimal that
    reads back as the largest float64, 1.7976931348623157e308. *)
Definition MaxFloat64 : decimal.Decimal := decimal.New 17976931348623157 292.

(** The zero value of [decimal.Decimal], read from a map at a missing key;
    it behaves as 0. *)
Definition Decimal_zero_value : decimal.Decimal := decimal.New 0 0.

Record search : Set := {
  dist : gmap string decimal.Decimal;
  prev : gmap string string;
  visited : gmap string bool;
  pq : heap.priorityQueue
}.

Definition is_visited (st : search) (k : string) : bool :=
  default false (visited st !! k).

(** The body of [for _, e := range graph[current.asset]]. *)
Definition relax (current : node) (st : search) (e : edge) : search :=
  if is_visited st (to e) then st
  else
    let newCost :=
      decimal.Add (cost current)
        (decimal.Sub (decimal.NewFromInt 1) (weight e)) in
    if decimal.LessThan newCost
         (default Decimal_zero_value (dist st !! to e))
    then
      {| dist := <[to e := newCost]> (dist st);
         prev := <[to e := asset current]> (prev st);
         visited := visited st;
         pq := heap.Push (pq st) {| asset := to e; cost := newCost |} |}
    else st.

(** [for pq.Len() > 0 { ... }] *)
Fixpoint dijkstra_loop (fuel : nat) (graph : gmap string (list edge))
  (end_ : string) (st : search) : exec search :=
  match fuel with
  | O => OutOfFuel
  | S fuel' =>
      if (heap.Len (pq st) =? 0)%nat then Done st
      else
        match heap.Pop (pq st) with
        | None => Done st
        | Some (current, pq') =>
            let st := {| dist := dist st; prev := prev st;
                         visited := visited st; pq := pq' |} in
            if is_visited st (asset current) then
              dijkstra_loop fuel' graph end_ st
            else
              let st := {| dist := dist st; prev := prev st;
                           visited := <[asset current := true]> (visited st);
                           pq := pq st |} in
              if String.eqb (asset current) end_ then Done st
              else
                let st :=
                  foldl (relax current) st
                        (default [] (graph !! asset current)) in
                dijkstra_loop fuel' graph end_ st
        end
  end.

(** [for at := end; at != ""; at = prev[at] { ... }] *)
Fixpoint walk_back (fuel : nat) (prev : gmap string string) (start : string)
  (at_ : string) (path : list string) : exec (list string) :=
  match fuel with
  | O => OutOfFuel
  | S fuel' =>
      if String.eqb at_ "" then Done path
      else
        let path := at_ :: path in
        if String.eqb at_ start then Done path
        else walk_back fuel' prev start (default "" (prev !! at_)) path
  end.

(** Number of edges of the graph: every edge is relaxed at most once, so
    the queue receives at most that many entries after the first. *)
Definition edge_count (graph : gmap string (list edge)) : nat :=
  map_fold (λ _ es n, (length es + n)%nat) 0%nat graph.

(** [None] is Go's nil path. *)
Definition dijkstra (graph : gmap string (list edge)) (start end_ : string)
  : exec (option (list string) * decimal.Decimal) :=
  let dist0 := (λ _ : list edge, MaxFloat64) <$> graph in
  let dist0 := <[start := decimal.Zero]> dist0 in
  let pq0 := heap.Push [] {| asset := start; cost := decimal.Zero |} in
  st ← dijkstra_loop (edge_count graph + 2) graph end_
         {| dist := dist0; prev := ∅; visited := ∅; pq := pq0 |};
  if negb (bool_decide (is_Some (prev st !! end_)))
     && negb (String.eqb start end_)
  then mret (None, decimal.Zero)
  else
    path ← walk_back (size (prev st) + 2) (prev st) start end_ [];
    mret (Some path, default Decimal_zero_value (dist st !! end_)).

(** *** Route materialisation *)

Definition calculateAMMOutput (pool : AMMPool) (amountIn : decimal.Decimal)
  (asset1ToAsset2 : bool) : exec decimal.Decimal :=
  let '(reserveIn, reserveOut) :=
    if asset1ToAsset2 then (Asset1Reserve pool, Asset2Reserve pool)
    else (Asset2Reserve pool, Asset1Reserve pool) in
  feeMultiplier ← feeMultiplier (TradingFeeBps pool);
  let amountInAfterFee := decimal.Mul amountIn feeMultiplier in
  let numerator := decimal.Mul amountInAfterFee reserveOut in
  let denominator := decimal.Add reserveIn amountInAfterFee in
  must (decimal.Div numerator denominator).

Fixpoint findHop_pools (ps : list AMMPool) (from to_ : string)
  (amountIn : decimal.Decimal) : exec (option Hop) :=
  match ps with
  | [] => mret None
  | pool :: ps' =>
      let asset1 := Asset_String (Asset1 pool) in
      let asset2 := Asset_String (Asset2 pool) in
      if String.eqb asset1 from && String.eqb asset2 to_ then
        amountOut ← calculateAMMOutput pool amountIn true;
        mret (Some {| Type_ := "amm"; hop_In := Asset1 pool;
                      hop_Out := Asset2 pool; AmountIn := amountIn;
                      AmountOut := amountOut |})
      else if String.eqb asset2 from && String.eqb asset1 to_ then
        amountOut ← calculateAMMOutput pool amountIn false;
        mret (Some {| Type_ := "amm"; hop_In := Asset2 pool;
                      hop_Out := Asset1 pool; AmountIn := amountIn;
                      AmountOut := amountOut |})
      else findHop_pools ps' from to_ amountIn
  end.

Fixpoint findHop_offers (os : list Offer) (from to_ : string)
  (amountIn : decimal.Decimal) : option Hop :=
  match os with
  | [] => None
  | offer :: os' =>
      if String.eqb (Asset_String (TakerPays offer)) from
         && String.eqb (Asset_String (TakerGets offer)) to_
      then
        let amountOut := decimal.Mul amountIn (Quality offer) in
        Some {| Type_ := "orderbook"; hop_In := TakerPays offer;
                hop_Out := TakerGets offer; AmountIn := amountIn;
                AmountOut := amountOut |}
      else findHop_offers os' from to_ amountIn
  end.

Definition findHop (pf : Pathfinder) (from to_ : string)
  (amountIn : decimal.Decimal) : exec (option Hop) :=
  h ← findHop_pools (pools pf) from to_ amountIn;
  match h with
  | Some hop => mret (Some hop)
  | None => mret (findHop_offers (offers pf) from to_ amountIn)
  end.

(** [for i := 0; i < len(path)-1; i++]: the hops of the consecutive pairs
    of [path], each fed with the previous hop's output. *)
Fixpoint buildRoute_loop (pf : Pathfinder) (path : list string)
  (currentAmount : decimal.Decimal) (hops : list Hop)
  : exec (option (list Hop)) :=
  match path with
  | from :: ((to_ :: _) as rest) =>
      h ← findHop pf from to_ currentAmount;
      match h with
      | None => mret None
      | Some hop => buildRoute_loop pf rest (AmountOut hop) (hops ++ [hop])
      end
  | _ => mret (Some hops)
  end.

Definition zero_Fees : Fees :=
  {| RouterBps := 0; TradingFees := Decimal_zero_value;
     EstOutFee := Decimal_zero_value |}.

Definition buildRoute (pf : Pathfinder) (path : list string)
  (amount : decimal.Decimal) : exec (option Route) :=
  if (length path <? 2)%nat then mret None
  else
    hops ← buildRoute_loop pf path amount [];
    match hops with
    | None => mret None
    | Some hops =>
        mret (Some {| Hops := hops; TotalFees := zero_Fees;
                      PriceImpact := Decimal_zero_value |})
    end.

Definition FindBestRoute (pf : Pathfinder) (in_ out : Asset)
  (amount : decimal.Decimal) : exec (Route + error) :=
  graph ← buildGraph pf;
  '(path, cost) ← dijkstra graph (Asset_String in_) (Asset_String out);
  match path with
  | None => mret (inr ErrNoRoute)
  | Some path =>
      if (MaxHops + 1 <? length path)%nat then mret (inr ErrNoRoute)
      else
        route ← buildRoute pf path amount;
        match route with
        | None => mret (inr ErrInsufficientLiquidity)
        | Some route => mret (inl route)
        end
  end.

(** ** Circuit breaker ([router/breaker.go], first unit) *)

Inductive State : Set := StateClosed | StateOpen | StateHalfOpen.

#[global] Instance State_eq_dec : EqDecision State.
Proof. solve_decision. Defined.

Definition DefaultMaxPrices : nat := 100.
Definition DefaultFailureLimit : Z := 5.

(** Durations and instants are nanoseconds. *)
Definition Second : Z := 1000000000.
Definition DefaultCautionDuration : Z := 60 * Second.

Record breakerState : Set := {
  pair : string;
  recentPrices : list decimal.Decimal;
  lastTradeTs : Z;
  state : State;
  failures : Z;
  openedAt : Z
}.

(** [threshold] is a float64.  [persistCallback] is the optional hook; what
    it is handed is appended to [persisted]. *)
Record CircuitBreaker : Type := {
  states : gmap string breakerState;
  threshold : PrimFloat.float;
  cautionMode : bool;
  cautionUntil : Z;
  persistCallback : bool;
  persisted : list (string * breakerState)
}.

(** A write through the [*breakerState] held by the map under [key]. *)
Definition set_state (cb : CircuitBreaker) (key : string) (s : breakerState)
  : CircuitBreaker :=
  {| states := <[key := s]> (states cb);
     threshold := threshold cb;
     cautionMode := cautionMode cb;
     cautionUntil := cautionUntil cb;
     persistCallback := persistCallback cb;
     persisted := persisted cb |}.

(** [NewCircuitBreaker], with [EnableCautionMode(DefaultCautionDuration)]
    inlined; the timer that clears [cautionMode] is the environment's. *)
Definition NewCircuitBreaker (threshold : PrimFloat.float) (now : Z)
  : CircuitBreaker :=
  {| states := ∅;
     threshold := threshold;
     cautionMode := true;
     cautionUntil := now + DefaultCautionDuration;
     persistCallback := false;
     persisted := [] |}.

Definition getOrCreateState (cb : CircuitBreaker) (pair_ : string)
  : CircuitBreaker * breakerState :=
  match states cb !! pair_ with
  | Some st => (cb, st)
  | None =>
      let st := {| pair := pair_; recentPrices := []; lastTradeTs := 0;
                   state := StateClosed; failures := 0; openedAt := 0 |} in
      (set_state cb pair_ st, st)
  end.

(** [recordPrice]: append, keep the last [DefaultMaxPrices], persist. *)
Definition recordPrice (cb : CircuitBreaker) (key : string)
  (st : breakerState) (price : decimal.Decimal) : CircuitBreaker :=
  let prices := recentPrices st ++ [price] in
  let prices :=
    if (DefaultMaxPrices <? length prices)%nat then drop 1 prices
    else prices in
  let st := {| pair := pair st; recentPrices := prices;
               lastTradeTs := lastTradeTs st; state := state st;
               failures := failures st; openedAt := openedAt st |} in
  let cb := set_state cb key st in
  if persistCallback cb then
    {| states := states cb; threshold := threshold cb;
       cautionMode := cautionMode cb; cautionUntil := cautionUntil cb;
       persistCallback := persistCallback cb;
       persisted := persisted cb ++ [(pair st, st)] |}
  else cb.

Definition calculateAverage (prices : list decimal.Decimal)
  : exec decimal.Decimal :=
  if (length prices =? 0)%nat then mret decimal.Zero
  else
    let sum := foldl decimal.Add decimal.Zero prices in
    must (decimal.Div sum (decimal.NewFromInt (Z.of_nat (length prices)))).

Section breaker.

(** [decimal.NewFromFloat]: the shortest decimal literal that reads back
    as the float. *)
Variable NewFromFloat : PrimFloat.float -> decimal.Decimal.

(** The threshold a check compares against: halved during the caution
    window. *)
Definition effective_threshold (cb : CircuitBreaker) (now : Z)
  : decimal.Decimal :=
  let threshold := threshold cb in
  let threshold :=
    if cautionMode cb && (now <? cautionUntil cb)
    then PrimFloat.mul threshold 0x1p-1%float
    else threshold in
  NewFromFloat threshold.

(** [price.Sub(avgPrice).Div(avgPrice).Abs()] *)
Definition deviation (prices : list decimal.Decimal)
  (price : decimal.Decimal) : exec decimal.Decimal :=
  avgPrice ← calculateAverage prices;
  d ← must (decimal.Div (decimal.Sub price avgPrice) avgPrice);
  mret (decimal.Abs d).

(** Lines 81-110 of [CheckPrice]: the evaluation of the price once the
    open state has been dealt with. *)
Definition evaluate (cb : CircuitBreaker) (key : string)
  (st : breakerState) (price : decimal.Decimal) (now : Z)
  : exec (CircuitBreaker * option error) :=
  let threshold := effective_threshold cb now in
  if (length (recentPrices st) =? 0)%nat then
    mret (recordPrice cb key st price, None)
  else
    deviation ← deviation (recentPrices st) price;
    if decimal.GreaterThan deviation threshold then
      let failures' := failures st + 1 in
      let st :=
        if DefaultFailureLimit <=? failures' then
          {| pair := pair st; recentPrices := recentPrices st;
             lastTradeTs := lastTradeTs st; state := StateOpen;
             failures := failures'; openedAt := now |}
        else
          {| pair := pair st; recentPrices := recentPrices st;
             lastTradeTs := lastTradeTs st; state := state st;
             failures := failures'; openedAt := openedAt st |} in
      mret (set_state cb key st, Some ErrCircuitBreakerOpen)
    else
      let st :=
        if bool_decide (state st = StateHalfOpen) then
          {| pair := pair st; recentPrices := recentPrices st;
             lastTradeTs := lastTradeTs st; state := StateClosed;
             failures := 0; openedAt := openedAt st |}
        else st in
      mret (recordPrice (set_state cb key st) key st price, None).

Definition CheckPrice (cb : CircuitBreaker) (pair_ : string)
  (price : decimal.Decimal) (now : Z)
  : exec (CircuitBreaker * option error) :=
  let '(cb, st) := getOrCreateState cb pair_ in
  if bool_decide (state st = StateOpen) then
    if 30 * Second <? now - openedAt st then
      let st := {| pair := pair st; recentPrices := recentPrices st;
                   lastTradeTs := lastTradeTs st; state := StateHalfOpen;
                   failures := 0; openedAt := openedAt st |} in
      evaluate (set_state cb pair_ st) pair_ st price now
    else mret (cb, Some ErrCircuitBreakerOpen)
  else evaluate cb pair_ st price now.

(** A run of checks on one pair, each with its price and its time; the
    errors are collected in order. *)
Fixpoint check_all (cb : CircuitBreaker) (pair_ : string)
  (calls : list (decimal.Decimal * Z))
  : exec (CircuitBreaker * list (option error)) :=
  match calls with
  | [] => mret (cb, [])
  | (price, now) :: calls' =>
      '(cb, err) ← CheckPrice cb pair_ price now;
      '(cb, errs) ← check_all cb pair_ calls';
      mret (cb, err :: errs)
  end.

(** The price deviates from the mean of the recent prices by more than
    the effective threshold, as [CheckPrice] computes the two. *)
Definition out_of_threshold (cb : CircuitBreaker) (st : breakerState)
  (price : decimal.Decimal) (now : Z) : Prop :=
  ∃ dev, deviation (recentPrices st) price = Done dev
         ∧ decimal.GreaterThan dev (effective_threshold cb now) = true.

End breaker.

(** The state a check finds open after the recovery window: half-open,
    failures reset. *)
Definition half_open_of (st : breakerState) : breakerState :=
  {| pair := pair st; recentPrices := recentPrices st;
     lastTradeTs := lastTradeTs st; state := StateHalfOpen;
     failures := 0; openedAt := openedAt st |}.

(** The same state, closed with no failure counted. *)
Definition closed_of (st : breakerState) : breakerState :=
  {| pair := pair st; recentPrices := recentPrices st;
     lastTradeTs := lastTradeTs st; state := StateClosed;
     failures := 0; openedAt := openedAt st |}.

(** The state after a rejected check at time [now]: one more failure, and
    open from [now] on once the failure limit is reached. *)
Definition rejected (st : breakerState) (now : Z) : breakerState :=
  if DefaultFailureLimit <=? failures st + 1 then
    {| pair := pair st; recentPrices := recentPrices st;
       lastTradeTs := lastTradeTs st; state := StateOpen;
       failures := failures st + 1; openedAt := now |}
  else
    {| pair := pair st; recentPrices := recentPrices st;
       lastTradeTs := lastTradeTs st; state := state st;
       failures := failures st + 1; openedAt := openedAt st |}.

Definition RecordTrade (cb : CircuitBreaker) (pair_ : string)
  (price : decimal.Decimal) (now : Z) : CircuitBreaker :=
  let '(cb, st) := getOrCreateState cb pair_ in
  let cb := recordPrice cb pair_ st price in
  match states cb !! pair_ with
  | Some st =>
      set_state cb pair_ {| pair := pair st; recentPrices := recentPrices st;
                      lastTradeTs := now; state := state st;
                      failures := failures st; openedAt := openedAt st |}
  | None => cb
  end.

Definition GetState (cb : CircuitBreaker) (pair_ : string) : State :=
  match states cb !! pair_ with
  | Some st => state st
  | None => StateClosed
  end.

(** ** Quote hash ([router/hash.go]) *)

Module json.

(** What [encoding/json] holds after [Unmarshal] into
    [map[string]interface{}]: a string, or a float64 (here always an
    integer, given by its value). *)
Inductive value : Set :=
| Str (s : string)
| Num (f : Z).

(** The values of the fields of a struct being marshalled. *)
Inductive field : Set :=
| FString (s : string)
| FInt (n : Z).

(** Characters the encoder copies unescaped into a string literal
    ([htmlSafeSet]): printable ASCII but the double quote, the
    backslash, [<], [>] and [&]. *)
Definition htmlSafe (c : ascii) : bool :=
  let n := nat_of_ascii c in
  ((32 <=? n) && (n <? 128))%nat
  && negb ((n =? 34) || (n =? 92) || (n =? 60) || (n =? 62) || (n =? 38))%nat.

Definition is_ascii (c : ascii) : bool := (nat_of_ascii c <? 128)%nat.

(** The float64 nearest to an integer (ties to even): exact up to 2^53. *)
Definition float64_of_int (n : Z) : Z :=
  let a := Z.abs n in
  if a <=? 2 ^ 53 then n
  else
    let e := Z.log2 a - 52 in
    let m := a / 2 ^ e in
    let r := a mod 2 ^ e in
    let half := 2 ^ (e - 1) in
    let m' := if (half <? r) || ((r =? half) && Z.odd m) then m + 1 else m in
    Z.sgn n * (m' * 2 ^ e).

Definition quote : string := String (ascii_of_nat 34) "".

Fixpoint join (sep : string) (l : list string) : string :=
  match l with
  | [] => ""
  | [x] => x
  | x :: l' => x +:+ sep +:+ join sep l'
  end.

Definition str_le (a b : string) : Prop := String.leb a b = true.

#[global] Instance str_le_dec a b : Decision (str_le a b).
Proof. unfold str_le. apply _. Defined.

(** [sort.Strings]: bytewise lexicographic order. *)
Definition sort_Strings (l : list string) : list string :=
  merge_sort str_le l.

Section encoding.

(** The library's treatment of what the quote engine never produces:
    [escape] writes a string literal that needs escaping,
    [toValidUTF8] is the string read back from such a literal, and
    [formatFloat] prints a float64 beyond 2^53. *)
Variable escape : string -> string.
Variable toValidUTF8 : string -> string.
Variable formatFloat : Z -> string.

Definition appendString (s : string) : string :=
  if forallb htmlSafe (list_ascii_of_string s)
  then quote +:+ s +:+ quote
  else escape s.

(** An integer-valued float64 below 1e21 prints in plain notation with
    the shortest digits that read back; up to 2^53 those are the
    integer's own. *)
Definition appendFloat (f : Z) : string :=
  if Z.abs f <=? 2 ^ 53 then pretty f else formatFloat f.

Definition encode (v : value) : string :=
  match v with
  | Str s => appendString s
  | Num f => appendFloat f
  end.

(** [Unmarshal(Marshal(struct))]: the fields keyed by their tags,
    numbers as float64, strings as they read back. *)
Definition read_back (f : field) : value :=
  match f with
  | FString s =>
      Str (if forallb is_ascii (list_ascii_of_string s) then s
           else toValidUTF8 s)
  | FInt n => Num (float64_of_int n)
  end.

Definition Unmarshal_Marshal (fields : list (string * field))
  : gmap string value :=
  foldl (λ m kv, <[kv.1 := read_back kv.2]> m) ∅ fields.

(** [Marshal] of a map: the keys in sorted order. *)
Definition Marshal_map (m : gmap string value) : string :=
  let keys := sort_Strings (map fst (map_to_list m)) in
  "{" +:+
  join "," (map (λ k, appendString k +:+ ":"
                      +:+ encode (default (Str "") (m !! k))) keys)
  +:+ "}".

End encoding.

End json.

Record hashInput : Set := {
  hi_In : string;          (* `json:"in"` *)
  hi_Out : string;         (* `json:"out"` *)
  hi_Amount : string;      (* `json:"amount"` *)
  hi_RouterBps : Z;        (* `json:"router_bps"` *)
  hi_TradingFees : string; (* `json:"trading_fees"` *)
  hi_EstOutFee : string;   (* `json:"est_out_fee"` *)
  hi_LedgerIndex : Z;      (* `json:"ledger_index"` *)
  hi_TTL : Z               (* `json:"ttl"` *)
}.

(** The fields in declaration order, as [json.Marshal] writes them. *)
Definition hashInput_fields (v : hashInput) : list (string * json.field) :=
  [("in", json.FString (hi_In v));
   ("out", json.FString (hi_Out v));
   ("amount", json.FString (hi_Amount v));
   ("router_bps", json.FInt (hi_RouterBps v));
   ("trading_fees", json.FString (hi_TradingFees v));
   ("est_out_fee", json.FString (hi_EstOutFee v));
   ("ledger_index", json.FInt (hi_LedgerIndex v));
   ("ttl", json.FInt (hi_TTL v))].

Section hash.

Variable escape : string -> string.
Variable toValidUTF8 : string -> string.
Variable formatFloat : Z -> string.

(** [blake2b.Sum256] *)
Variable blake2b_Sum256 : string -> string.

(** Neither [Marshal] nor [Unmarshal] can fail on these values: the
    error branches of the source are dead. *)
Definition canonicalJSON (v : hashInput) : string + error :=
  let obj := json.Unmarshal_Marshal toValidUTF8 (hashInput_fields v) in
  let keys := map fst (map_to_list obj) in
  let keys := json.sort_Strings keys in
  let sorted :=
    foldl (λ (m : gmap string json.value) k,
             <[k := default (json.Str "") (obj !! k)]> m) ∅ keys in
  inl (json.Marshal_map escape formatFloat sorted).

Definition ComputeQuoteHash (req : QuoteRequest) (fees : Fees)
  (ledgerIndex : Z) (ttl : Z) : string + error :=
  let input :=
    {| hi_In := Asset_String (In_ req);
       hi_Out := Asset_String (Out req);
       hi_Amount := decimal.String (Amount req);
       hi_RouterBps := RouterBps fees;
       hi_TradingFees := decimal.String (TradingFees fees);
       hi_EstOutFee := decimal.String (EstOutFee fees);
       hi_LedgerIndex := ledgerIndex;
       hi_TTL := ttl |} in
  match canonicalJSON input with
  | inr err => inr err
  | inl canonical => inl (blake2b_Sum256 canonical)
  end.

End hash.

(** ** In-memory KV store ([kv.MemoryStore]) *)

Module kv.

Definition DefaultMaxBytes : Z := 512 * 1024 * 1024.
Definition DefaultMaxKeyLength : Z := 256.
Definition DefaultMaxValueSize : Z := 1024 * 1024.

Definition NamespaceQuotes : string := "quotes".
Definition NamespaceRateLimits : string := "rate_limits".
Definition NamespaceCircuitBreaker : string := "circuit_breaker".
Definition NamespaceSystem : string := "system".

Definition namespaceQuotas : gmap string Z :=
  list_to_map
    [(NamespaceQuotes, 10000);
     (NamespaceRateLimits, 100000);
     (NamespaceCircuitBreaker, 1000);
     (NamespaceSystem, 128)].

(** [expiresAt] is [None] for the zero [time.Time] (no expiry).
    [lruNode] names the element of the LRU list made for the entry. *)
Record entry : Set := {
  namespace : string;
  key : string;
  value : string;
  expiresAt : option Z;
  size_bytes : Z;        (* [size] *)
  lruNode : nat
}.

(** [container/list]: the elements front to back, each with its identity
    (the pointer [*list.Element]) and its value, a full key. *)
Abbreviation List := (list (nat * string)).

Record MemoryStore : Type := {
  data : gmap string entry;
  lru : List;
  lruAlloc : nat;          (* identities handed out so far *)
  maxBytes : Z;
  currentBytes : Z;
  maxKeyLength : Z;
  maxValueSize : Z;
  evictions : Z;
  hits : Z;
  misses : Z
}.

Definition NewMemoryStoreWithConfig (maxBytes maxKeyLength maxValueSize : Z)
  : MemoryStore :=
  {| data := ∅; lru := []; lruAlloc := 0;
     maxBytes := maxBytes; currentBytes := 0;
     maxKeyLength := maxKeyLength; maxValueSize := maxValueSize;
     evictions := 0; hits := 0; misses := 0 |}.

Definition NewMemoryStore : MemoryStore :=
  NewMemoryStoreWithConfig DefaultMaxBytes DefaultMaxKeyLength
    DefaultMaxValueSize.

(** *** The LRU list *)

(** [l.Remove(e)]: nothing happens when [e] is not an element of [l]. *)
Definition Remove (l : List) (e : nat) : List :=
  filter (λ x, x.1 ≠ e) l.

(** [l.MoveToFront(e)] *)
Definition MoveToFront (l : List) (e : nat) : List :=
  match list_find (λ x, x.1 = e) l with
  | Some (_, x) => x :: Remove l e
  | None => l
  end.

Definition Back (l : List) : option (nat * string) := last l.

(** *** Field updates *)

Definition with_lru (s : MemoryStore) (l : List) : MemoryStore :=
  {| data := data s; lru := l; lruAlloc := lruAlloc s;
     maxBytes := maxBytes s; currentBytes := currentBytes s;
     maxKeyLength := maxKeyLength s; maxValueSize := maxValueSize s;
     evictions := evictions s; hits := hits s; misses := misses s |}.

Definition with_data (s : MemoryStore) (d : gmap string entry)
  : MemoryStore :=
  {| data := d; lru := lru s; lruAlloc := lruAlloc s;
     maxBytes := maxBytes s; currentBytes := currentBytes s;
     maxKeyLength := maxKeyLength s; maxValueSize := maxValueSize s;
     evictions := evictions s; hits := hits s; misses := misses s |}.

(** [atomic.AddInt64(&s.currentBytes, n)] *)
Definition add_currentBytes (s : MemoryStore) (n : Z) : MemoryStore :=
  {| data := data s; lru := lru s; lruAlloc := lruAlloc s;
     maxBytes := maxBytes s; currentBytes := currentBytes s + n;
     maxKeyLength := maxKeyLength s; maxValueSize := maxValueSize s;
     evictions := evictions s; hits := hits s; misses := misses s |}.

Definition add_evictions (s : MemoryStore) : MemoryStore :=
  {| data := data s; lru := lru s; lruAlloc := lruAlloc s;
     maxBytes := maxBytes s; currentBytes := currentBytes s;
     maxKeyLength := maxKeyLength s; maxValueSize := maxValueSize s;
     evictions := evictions s + 1; hits := hits s; misses := misses s |}.

Definition add_hits (s : MemoryStore) : MemoryStore :=
  {| data := data s; lru := lru s; lruAlloc := lruAlloc s;
     maxBytes := maxBytes s; currentBytes := currentBytes s;
     maxKeyLength := maxKeyLength s; maxValueSize := maxValueSize s;
     evictions := evictions s; hits := hits s + 1; misses := misses s |}.

Definition add_misses (s : MemoryStore) : MemoryStore :=
  {| data := data s; lru := lru s; lruAlloc := lruAlloc s;
     maxBytes := maxBytes s; currentBytes := currentBytes s;
     maxKeyLength := maxKeyLength s; maxValueSize := maxValueSize s;
     evictions := evictions s; hits := hits s; misses := misses s + 1 |}.

(** *** Helpers of the store *)

Definition makeKey (namespace key : string) : string :=
  namespace +:+ ":" +:+ key.

Definition len (s : string) : Z := Z.of_nat (String.length s).

(** [!e.expiresAt.IsZero() && now.After(e.expiresAt)] *)
Definition expired (e : entry) (now : Z) : bool :=
  match expiresAt e with
  | Some t => t <? now
  | None => false
  end.

(** [e.expiresAt.IsZero() || now.Before(e.expiresAt)] *)
Definition unexpired (e : entry) (now : Z) : bool :=
  match expiresAt e with
  | Some t => now <? t
  | None => true
  end.

Definition deleteEntryLocked (s : MemoryStore) (fullKey : string)
  (e : entry) : MemoryStore :=
  let s := with_lru s (Remove (lru s) (lruNode e)) in
  let s := with_data s (delete fullKey (data s)) in
  add_currentBytes s (- size_bytes e).

Definition validate (s : MemoryStore) (namespace key value : string)
  : option error :=
  if String.eqb namespace "" then Some ErrNamespaceEmpty
  else if String.eqb key "" then Some ErrKeyEmpty
  else if maxKeyLength s <? len key then Some ErrKeyTooLong
  else if maxValueSize s <? len value then Some ErrValueTooLarge
  else None.

(** Number of entries of [namespace] that have not expired. *)
Definition live_count (s : MemoryStore) (namespace_ : string) (now : Z)
  : Z :=
  Z.of_nat (size (filter
    (λ kv : string * entry,
       namespace kv.2 = namespace_ ∧ unexpired kv.2 now = true)
    (data s))).

Definition checkNamespaceQuota (s : MemoryStore) (namespace : string)
  (now : Z) : option error :=
  match namespaceQuotas !! namespace with
  | None => None
  | Some quota =>
      let count := live_count s namespace now in
      if quota <=? count then Some ErrNamespaceQuota else None
  end.

Definition evictOldest (s : MemoryStore) : MemoryStore * bool :=
  match Back (lru s) with
  | None => (s, false)
  | Some (_, fullKey) =>
      match data s !! fullKey with
      | Some e => (add_evictions (deleteEntryLocked s fullKey e), true)
      | None => (s, false)
      end
  end.

(** [for s.currentBytes+int64(entrySize) > s.maxBytes { if
    !s.evictOldest() { return ErrMemoryLimit } }]; the boolean tells
    whether room was made. *)
Fixpoint evict_loop (fuel : nat) (s : MemoryStore) (entrySize : Z)
  : exec (MemoryStore * bool) :=
  match fuel with
  | O => OutOfFuel
  | S fuel' =>
      if maxBytes s <? currentBytes s + entrySize then
        match evictOldest s with
        | (s, true) => evict_loop fuel' s entrySize
        | (s, false) => Done (s, false)
        end
      else Done (s, true)
  end.

(** [setLocked].  Lines 115-148 of [Set] repeat it word for word. *)
Definition setLocked (s : MemoryStore) (namespace_ key_ value_ : string)
  (ttl : Z) (now : Z) : exec (MemoryStore * option error) :=
  let fullKey := makeKey namespace_ key_ in
  let entrySize := len fullKey + len value_ + 64 in
  let s :=
    match data s !! fullKey with
    | Some existing =>
        let s := add_currentBytes s (- size_bytes existing) in
        with_lru s (Remove (lru s) (lruNode existing))
    | None => s
    end in
  '(s, room) ← evict_loop (S (size (data s))) s entrySize;
  if negb room then mret (s, Some ErrMemoryLimit)
  else
    let expiresAt_ := if 0 <? ttl then Some (now + ttl) else None in
    let e := {| namespace := namespace_; key := key_; value := value_;
                expiresAt := expiresAt_; size_bytes := entrySize;
                lruNode := lruAlloc s |} in
    let s :=
      {| data := <[fullKey := e]> (data s);
         lru := (lruAlloc s, fullKey) :: lru s;     (* PushFront *)
         lruAlloc := S (lruAlloc s);
         maxBytes := maxBytes s; currentBytes := currentBytes s;
         maxKeyLength := maxKeyLength s; maxValueSize := maxValueSize s;
         evictions := evictions s; hits := hits s; misses := misses s |} in
    mret (add_currentBytes s entrySize, None).

(** *** The operations *)

Definition Get (s : MemoryStore) (namespace key : string) (now : Z)
  : MemoryStore * option string :=
  if String.eqb namespace "" || String.eqb key "" then (add_misses s, None)
  else
    let fullKey := makeKey namespace key in
    match data s !! fullKey with
    | None => (add_misses s, None)
    | Some e =>
        if expired e now then
          (add_misses (deleteEntryLocked s fullKey e), None)
        else
          let s := with_lru s (MoveToFront (lru s) (lruNode e)) in
          (add_hits s, Some (value e))
    end.

Definition Set_ (s : MemoryStore) (namespace key value : string)
  (ttl : Z) (now : Z) : exec (MemoryStore * option error) :=
  match validate s namespace key value with
  | Some err => mret (s, Some err)
  | None =>
      match checkNamespaceQuota s namespace now with
      | Some err => mret (s, Some err)
      | None => setLocked s namespace key value ttl now
      end
  end.

Definition Delete (s : MemoryStore) (namespace key : string)
  : MemoryStore * option error :=
  if String.eqb namespace "" || String.eqb key "" then (s, Some ErrKeyEmpty)
  else
    let fullKey := makeKey namespace key in
    match data s !! fullKey with
    | None => (s, Some ErrKeyNotFound)
    | Some e => (deleteEntryLocked s fullKey e, None)
    end.

(** [strconv.ParseInt(s, 10, 64)]: an optional sign, then digits only;
    [None] on a syntax or range error. *)
Definition digit_of (c : ascii) : option Z :=
  let n := Z.of_nat (nat_of_ascii c) in
  if (48 <=? n) && (n <=? 57) then Some (n - 48) else None.

Fixpoint parse_digits (s : string) (acc : Z) : option Z :=
  match s with
  | EmptyString => Some acc
  | String c r =>
      match digit_of c with
      | Some d => parse_digits r (acc * 10 + d)
      | None => None
      end
  end.

Definition ParseInt (s : string) : option Z :=
  match s with
  | EmptyString => None
  | String c r =>
      let '(neg, body) :=
        if Ascii.eqb c "+" then (false, r)
        else if Ascii.eqb c "-" then (true, r)
        else (false, s) in
      match body with
      | EmptyString => None
      | _ =>
          match parse_digits body 0 with
          | None => None
          | Some n =>
              let v := if neg : bool then - n else n in
              if (- 2 ^ 63 <=? v) && (v <=? 2 ^ 63 - 1) then Some v
              else None
          end
      end
  end.

(** [count++] on an int64 *)
Definition incr64 (count : Z) : Z :=
  (count + 1 + 2 ^ 63) mod 2 ^ 64 - 2 ^ 63.

Definition IncrementRateLimit (s : MemoryStore) (partnerID : string)
  (ttl : Z) (now : Z) : exec (MemoryStore * (Z * option error)) :=
  if String.eqb partnerID "" then mret (s, (0, Some ErrKeyEmpty))
  else
    let fullKey := makeKey NamespaceRateLimits partnerID in
    let fresh (s : MemoryStore) :=
      '(s, err) ← setLocked s NamespaceRateLimits partnerID "1" ttl now;
      match err with
      | Some err => mret (s, (0, Some err))
      | None => mret (s, (1, None))
      end in
    match data s !! fullKey with
    | None => fresh s
    | Some e =>
        if expired e now then fresh (deleteEntryLocked s fullKey e)
        else
          match ParseInt (value e) with
          | None => mret (s, (0, Some ErrInvalidCounter))
          | Some count =>
              let count := incr64 count in
              let newValue := pretty count in
              '(s, err) ← setLocked s NamespaceRateLimits partnerID
                            newValue ttl now;
              match err with
              | Some err => mret (s, (0, Some err))
              | None => mret (s, (count, None))
              end
          end
    end.

(** [cleanup]: the expired keys are collected, then deleted one by one. *)
Definition cleanup (s : MemoryStore) (now : Z) : MemoryStore :=
  let toDelete :=
    map fst (map_to_list
      (filter (λ kv : string * entry, expired kv.2 now = true) (data s))) in
  foldl (λ s fullKey,
           match data s !! fullKey with
           | Some e => deleteEntryLocked s fullKey e
           | None => s
           end) s toDelete.

(** [Keys]: the keys of a namespace that have not expired (in no
    particular order). *)
Definition Keys (s : MemoryStore) (namespace_ : string) (now : Z)
  : list string :=
  map (λ kv : string * entry, key kv.2)
    (map_to_list (filter
      (λ kv : string * entry,
         namespace kv.2 = namespace_ ∧ unexpired kv.2 now = true)
      (data s))).

(** *** Operation sequences *)

Inductive op : Set :=
| OpGet (namespace key : string)
| OpSet (namespace key value : string) (ttl : Z)
| OpDelete (namespace key : string)
| OpIncrementRateLimit (partnerID : string) (ttl : Z)
| OpCleanup.

(** One operation at time [now]: the store after it and the error it
    returned, if any. *)
Definition step (s : MemoryStore) (now : Z) (o : op)
  : exec (MemoryStore * option error) :=
  match o with
  | OpGet ns k => mret ((Get s ns k now).1, None)
  | OpSet ns k v ttl => Set_ s ns k v ttl now
  | OpDelete ns k => mret (Delete s ns k)
  | OpIncrementRateLimit p ttl =>
      '(s, (_, err)) ← IncrementRateLimit s p ttl now;
      mret (s, err)
  | OpCleanup => mret (cleanup s now, None)
  end.

(** A sequence of timed operations, started in [s]. *)
Fixpoint run (s : MemoryStore) (ops : list (Z * op)) : exec MemoryStore :=
  match ops with
  | [] => Done s
  | (now, o) :: ops' =>
      '(s', _) ← step s now o;
      run s' ops'
  end.

(** *** Quotes and the ledger index *)

(** [hex.EncodeToString]: two lower-case hexadecimal digits per byte. *)
Definition hextable : string := "0123456789abcdef".

Definition hex_digit (n : nat) : ascii :=
  default "0"%char (String.get n hextable).

Fixpoint EncodeToString (src : string) : string :=
  match src with
  | EmptyString => ""
  | String c rest =>
      let v := nat_of_ascii c in
      String (hex_digit (v / 16))
        (String (hex_digit (v mod 16)) (EncodeToString rest))
  end.

(** A quote hash is a [[32]byte]: a string of 32 bytes. *)
Definition GetQuote (s : MemoryStore) (hash : string) (now : Z)
  : MemoryStore * option string :=
  let key := EncodeToString hash in
  Get s NamespaceQuotes key now.

Definition SetQuote (s : MemoryStore) (hash route : string) (ttl : Z)
  (now : Z) : exec (MemoryStore * option error) :=
  let key := EncodeToString hash in
  Set_ s NamespaceQuotes key route ttl now.

(** [strconv.ParseUint(s, 10, 32)]: digits only, no sign; [None] on a
    syntax or range error. *)
Definition ParseUint32 (s : string) : option Z :=
  match s with
  | EmptyString => None
  | _ =>
      match parse_digits s 0 with
      | None => None
      | Some n => if n <=? 2 ^ 32 - 1 then Some n else None
      end
  end.

(** [idx] is a [uint32]; [strconv.FormatUint(uint64(idx), 10)] prints
    its decimal digits. *)
Definition SetLedgerIndex (s : MemoryStore) (idx : Z) (now : Z)
  : exec (MemoryStore * option error) :=
  let value := pretty idx in
  Set_ s NamespaceSystem "ledger_index" value 0 now.

Definition GetLedgerIndex (s : MemoryStore) (now : Z)
  : MemoryStore * (Z * bool) :=
  match Get s NamespaceSystem "ledger_index" now with
  | (s, None) => (s, (0, false))
  | (s, Some value) =>
      match ParseUint32 value with
      | None => (s, (0, false))
      | Some parsed => (s, (parsed, true))
      end
  end.

(** *** Statistics *)

Record Stats : Type := {
  TotalKeys : Z;
  CurrentBytes : Z;
  MaxBytes : Z;
  Evictions : Z;
  Hits : Z;
  Misses : Z;
  NamespaceCounts : gmap string Z
}.

(** The body of the loop of [Stats]: an entry that has not expired counts
    for its namespace and for the total. *)
Definition count_entry (now : Z) (e : entry) (acc : gmap string Z * Z)
  : gmap string Z * Z :=
  if unexpired e now then
    (<[namespace e := default 0 (acc.1 !! namespace e) + 1]> acc.1,
     acc.2 + 1)
  else acc.

Definition Stats_ (s : MemoryStore) (now : Z) : Stats :=
  let '(namespaceCounts, totalKeys) :=
    map_fold (λ _ e acc, count_entry now e acc) (∅, 0) (data s) in
  {| TotalKeys := totalKeys;
     CurrentBytes := currentBytes s;
     MaxBytes := maxBytes s;
     Evictions := evictions s;
     Hits := hits s;
     Misses := misses s;
     NamespaceCounts := namespaceCounts |}.

End kv.

(** ** The AMM hop as the specification writes it

    [x' = x (1 - fee_bps/10000)], [y = x' R_out / (R_in + x')], over the
    rationals. *)
Definition amm_formula (R_in R_out x : Q) (fee_bps : Z) : Q :=
  let x' := (x * (1 - inject_Z fee_bps / inject_Z 10000))%Q in
  ((x' * R_out) / (R_in + x'))%Q.

Definition reserves (pool : AMMPool) (asset1ToAsset2 : bool)
  : decimal.Decimal * decimal.Decimal :=
  if asset1ToAsset2 then (Asset1Reserve pool, Asset2Reserve pool)
  else (Asset2Reserve pool, Asset1Reserve pool).

(** The pool with another fee. *)
Definition with_fee (pool : AMMPool) (fee_bps : Z) : AMMPool :=
  {| Asset1 := Asset1 pool; Asset2 := Asset2 pool;
     Asset1Reserve := Asset1Reserve pool; Asset2Reserve := Asset2Reserve pool;
     TradingFeeBps := fee_bps; LPToken := LPToken pool;
     pool_Account := pool_Account pool |}.

(** The data-model constraints on a pool that the AMM math needs: both
    reserves strictly positive and [0 <= fee_bps <= 10000]. *)
Definition pool_valid (pool : AMMPool) : Prop :=
  (0 < decimal.toQ (Asset1Reserve pool))%Q
  ∧ (0 < decimal.toQ (Asset2Reserve pool))%Q
  ∧ 0 <= TradingFeeBps pool <= 10000.

(** ** Concrete data of the specification's scenarios *)

Definition issuer_I : string := "rvYAfWj5gh67oV6fW32ZzP3Aw4Eubs59B".
Definition XRP : Asset := {| Currency := "XRP"; Issuer := "" |}.
Definition USD_I : Asset := {| Currency := "USD"; Issuer := issuer_I |}.

Definition mkPool (a1 a2 : Asset) (r1 r2 fee_bps : Z) : AMMPool :=
  {| Asset1 := a1; Asset2 := a2;
     Asset1Reserve := decimal.NewFromInt r1;
     Asset2Reserve := decimal.NewFromInt r2;
     TradingFeeBps := fee_bps; LPToken := ""; pool_Account := "" |}.

(** Scenario 1: pool (XRP, USD@I, 10000, 15000, 30 bps). *)
Definition pool_xrp_usd : AMMPool := mkPool XRP USD_I 10000 15000 30.

(** Two outcomes of a check agree on everything but the name of the
    state: same error, and for the pair the same recorded prices and the
    same failure count; an accepted price leaves the first one closed. *)
Definition same_verdict (pair_ : string)
  (r1 r2 : exec (CircuitBreaker * option error)) : Prop :=
  match r1, r2 with
  | Done (cb1, e1), Done (cb2, e2) =>
      e1 = e2
      ∧ ∃ s1 s2, states cb1 !! pair_ = Some s1 ∧ states cb2 !! pair_ = Some s2
                 ∧ recentPrices s1 = recentPrices s2
                 ∧ failures s1 = failures s2
                 ∧ state s2 = StateClosed
                 ∧ (e1 = None → state s1 = StateClosed)
  | Panic, Panic => True
  | _, _ => False
  end.

(** Scenario 6: a breaker with threshold 0.05, caution off, whose pair
    XRP-USD has seen trades at price 1.0. *)
Definition price_1_0 : decimal.Decimal := decimal.New 1 0.
Definition price_1_2 : decimal.Decimal := decimal.New 12 (-1).

Definition primed (st : State) (failures_ : Z) : breakerState :=
  {| pair := "XRP-USD"; recentPrices := [price_1_0; price_1_0];
     lastTradeTs := 0; state := st; failures := failures_; openedAt := 0 |}.

Definition breaker_with (st : breakerState) : CircuitBreaker :=
  {| states := {[ "XRP-USD" := st ]};
     threshold := 0x1.999999999999ap-5%float;   (* 0.05 *)
     cautionMode := false; cautionUntil := 0;
     persistCallback := false; persisted := [] |}.

(** [NewFromFloat] on the two thresholds in play: 0.05 and its half. *)
Definition NewFromFloat_0_05 (f : PrimFloat.float) : decimal.Decimal :=
  if PrimFloat.eqb f 0x1.999999999999ap-5%float then decimal.New 5 (-2)
  else decimal.New 25 (-3).

(** ** Decimal literals, as the specification words them

    A decimal literal is an optional minus sign, digits, and optionally
    a point followed by digits: no thousands separator, no leading zero
    before another digit, no trailing zero after the point, no point
    without a digit after it, and no negative zero. *)
Module literal.

Definition digit (c : ascii) : option Z :=
  let n := Z.of_nat (nat_of_ascii c) in
  if (48 <=? n) && (n <=? 57) then Some (n - 48) else None.

(** The number a string of digits writes, after the digits of [acc]. *)
Fixpoint number (s : string) (acc : Z) : option Z :=
  match s with
  | "" => Some acc
  | String c r =>
      match digit c with
      | Some d => number r (acc * 10 + d)
      | None => None
      end
  end.

(** The text before the first point, and the text after it if there is
    a point. *)
Fixpoint split_point (s : string) : string * option string :=
  match s with
  | "" => ("", None)
  | String c r =>
      if Ascii.eqb c "." then ("", Some r)
      else let '(i, f) := split_point r in (String c i, f)
  end.

Fixpoint ends_in_zero (s : string) : bool :=
  match s with
  | "" => false
  | String c "" => Ascii.eqb c "0"
  | String _ r => ends_in_zero r
  end.

Definition leading_zero (s : string) : bool :=
  match s with
  | String c (String _ _) => Ascii.eqb c "0"
  | _ => false
  end.

(** The value of a literal without sign. *)
Definition unsigned (s : string) : option Q :=
  let '(i, f) := split_point s in
  if String.eqb i "" || leading_zero i then None
  else
    match number i 0, f with
    | Some n, None => Some (inject_Z n)
    | Some n, Some f =>
        if String.eqb f "" || ends_in_zero f then None
        else
          match number f 0 with
          | Some m =>
              Some (inject_Z n
                    + inject_Z m / inject_Z (10 ^ Z.of_nat (String.length f)))%Q
          | None => None
          end
    | None, _ => None
    end.

(** The value of a literal; [None] for a text that is not one. *)
Definition value (s : string) : option Q :=
  match s with
  | String c r =>
      if Ascii.eqb c "-" then
        match unsigned r with
        | Some q => if Qeq_bool q 0 then None else Some (- q)%Q
        | None => None
        end
      else unsigned s
  | "" => None
  end.


End literal.


(** ** The canonical serialization as the specification tables it

    A JSON object of exactly eight members, keys in the order amount,
    est_out_fee, in, ledger_index, out, router_bps, trading_fees, ttl; no
    white space; amount, est_out_fee, in, out and trading_fees are JSON
    strings, ledger_index, router_bps and ttl are JSON numbers.  Nothing
    here is taken from the encoder of the code. *)

(** The canonical string form of an asset: the currency when the issuer
    is empty, otherwise currency, a point, issuer. *)
Definition canonical_form (a : Asset) : string :=
  match Issuer a with
  | "" => Currency a
  | String _ _ => Currency a +:+ "." +:+ Issuer a
  end.

(** A character that stands for itself in a JSON string literal, and
    that no encoder escapes: printable ASCII other than the double
    quote, the backslash, [<], [>] and [&]. *)
Definition plain_char (c : ascii) : bool :=
  let n := nat_of_ascii c in
  (32 <=? n)%nat && (n <=? 126)%nat
  && negb (n =? 34)%nat && negb (n =? 92)%nat
  && negb (n =? 60)%nat && negb (n =? 62)%nat && negb (n =? 38)%nat.

Fixpoint plain (s : string) : bool :=
  match s with
  | "" => true
  | String c r => plain_char c && plain r
  end.









(** ** What the byte budget of the KV store is measured against *)

Module kv_spec.

Import kv.

(** Sum of the recorded sizes of the entries of a map. *)
Definition total_bytes (d : gmap string entry) : Z :=
  map_fold (λ _ e acc, size_bytes e + acc) 0 d.

(** The live entries at time [now]: those a [Get] at [now] returns. *)
Definition live (d : gmap string entry) (now : Z) : gmap string entry :=
  filter (λ kv : string * entry, expired kv.2 now = false) d.

(** The store with the entry of [k], if any, taken out of the map only. *)
Definition hide (k : string) (s : MemoryStore) : MemoryStore :=
  with_data s (delete k (data s)).

(** The accounting invariant: the byte counter is the sum of the sizes of
    the entries held, within the budget, and the LRU list has exactly one
    element per entry, the one the entry points to. *)
Record Inv (s : MemoryStore) : Prop := {
  inv_bytes : currentBytes s = total_bytes (data s);
  inv_bound : currentBytes s <= maxBytes s;
  inv_sizes : ∀ k e, data s !! k = Some e → 0 <= size_bytes e;
  inv_nodup : NoDup (lru s).*1;
  inv_lru : ∀ id k,
    (id, k) ∈ lru s ↔ ∃ e, data s !! k = Some e ∧ lruNode e = id;
  inv_alloc : ∀ id k, (id, k) ∈ lru s → (id < lruAlloc s)%nat
}.

(** The operation writes over an entry that the store holds ([Set] on a
    key present in the map, [IncrementRateLimit] on a counter present and
    not expired). *)
Definition overwrites (s : MemoryStore) (now : Z) (o : op) : bool :=
  match o with
  | OpSet ns k _ _ => bool_decide (is_Some (data s !! makeKey ns k))
  | OpIncrementRateLimit p _ =>
      match data s !! makeKey NamespaceRateLimits p with
      | Some e => negb (expired e now)
      | None => false
      end
  | _ => false
  end.

(** No operation of the sequence is an overwrite that fails with
    [ErrMemoryLimit]. *)
Fixpoint no_failed_overwrite (s : MemoryStore) (ops : list (Z * op)) : Prop :=
  match ops with
  | [] => True
  | (now, o) :: ops' =>
      match step s now o with
      | Done (s', err) =>
          ¬ (overwrites s now o = true ∧ err = Some ErrMemoryLimit)
          ∧ no_failed_overwrite s' ops'
      | _ => True
      end
  end.

End kv_spec.

(** ** Concrete stores *)

Module kv_examples.

Import kv.

(** The store of the LRU test: 500 bytes, values of 100 bytes. *)
Definition small : MemoryStore := NewMemoryStoreWithConfig 500 256 200.

Definition value100 : string := decimal.Repeat "x" 100.

Definition lru_scenario : list (Z * op) :=
  [(0, OpSet "test" "key1" value100 0);
   (0, OpSet "test" "key2" value100 0);
   (1, OpGet "test" "key1");
   (2, OpSet "test" "key3" value100 30);
   (3, OpIncrementRateLimit "partner" 10);
   (4, OpIncrementRateLimit "partner" 10);
   (5, OpDelete "test" "key1");
   (50, OpCleanup)].

(** A store of 100 bytes: one entry of 67 bytes fits, one of 107 does
    not. *)
Definition tiny : MemoryStore := NewMemoryStoreWithConfig 100 256 512.

Definition value40 : string := decimal.Repeat "x" 40.

(** The default store with the [system] namespace filled to its quota of
    128 keys, named 0 to 127. *)
Definition system_full : exec MemoryStore :=
  run NewMemoryStore
    (map (λ i : nat, (0, OpSet NamespaceSystem (pretty i) "v" 0)) (seq 0 128)).

End kv_examples.

(** ** The heap order of the priority queue

    [container/heap] keeps the slice a binary min-heap for [Less]: no
    entry is cheaper than its parent, the entry at [(j - 1) / 2]. *)

(** The accumulated cost of a queue entry, as a rational. *)
Definition node_key (x : node) : Q := decimal.toQ (cost x).

Definition heap_ok (h : list node) : Prop :=
  ∀ j a b, (0 < j)%nat →
    h !! j = Some b → h !! ((j - 1) / 2)%nat = Some a →
    (node_key a <= node_key b)%Q.

(** The cost found at an index of the queue. *)
Definition kat (h : list node) (j : nat) : Q :=
  match h !! j with Some x => node_key x | None => 0%Q end.

(** The heap order restricted to the first [n] slots. *)
Definition heap_on (h : list node) (n : nat) : Prop :=
  ∀ j, (0 < j < n)%nat → (kat h ((j - 1) / 2) <= kat h j)%Q.

(** While [up] runs, the order holds everywhere except between [k] and
    its parent, and the children of [k] are no cheaper than the parent
    of [k]. *)
Definition up_inv (h : list node) (k : nat) : Prop :=
  (∀ j, (0 < j < length h)%nat → j ≠ k →
     (kat h ((j - 1) / 2) <= kat h j)%Q) ∧
  (∀ j, (0 < j < length h)%nat → ((j - 1) / 2)%nat = k → (0 < k)%nat →
     (kat h ((k - 1) / 2) <= kat h j)%Q).

(** While [down] runs on the first [n] slots, the order holds there
    except below [i], and the children of [i] are no cheaper than the
    parent of [i]. *)
Definition down_inv (h : list node) (i n : nat) : Prop :=
  (∀ j, (0 < j < n)%nat → ((j - 1) / 2)%nat ≠ i →
     (kat h ((j - 1) / 2) <= kat h j)%Q) ∧
  (∀ j, (0 < j < n)%nat → ((j - 1) / 2)%nat = i → (0 < i)%nat →
     (kat h ((i - 1) / 2) <= kat h j)%Q).

(** ** Sound routes

    The data model compares assets by canonical string, and every asset
    of the data model has a non-empty one: the native asset is its
    currency token, any other asset carries an issuer. *)

Definition named (a : Asset) : Prop := Asset_String a ≠ "".

(** Every asset of the snapshot is named. *)
Definition snapshot_named (pf : Pathfinder) : Prop :=
  Forall (λ p, named (Asset1 p) ∧ named (Asset2 p)) (pools pf) ∧
  Forall (λ o, named (TakerPays o) ∧ named (TakerGets o)) (offers pf).

Definition graph_named (graph : gmap string (list edge)) : Prop :=
  ∀ k es e, graph !! k = Some es → e ∈ es → to e ≠ "".

(** [hops] walks along [path], starting with [amount] and feeding every
    hop with the output of the one before. *)
Fixpoint route_follows (path : list string) (amount : decimal.Decimal)
  (hops : list Hop) : Prop :=
  match path, hops with
  | from :: ((to_ :: _) as rest), hop :: hops' =>
      Asset_String (hop_In hop) = from ∧
      Asset_String (hop_Out hop) = to_ ∧
      AmountIn hop = amount ∧
      route_follows rest (AmountOut hop) hops'
  | [], [] | [_], [] => True
  | _, _ => False
  end.

(** What the data model asks of a route answering a request from [in_]
    to [out]. *)
Definition route_sound (in_ out : Asset) (route : Route) : Prop :=
  Hops route ≠ [] ∧
  (∃ hop, head (Hops route) = Some hop ∧
          Asset_String (hop_In hop) = Asset_String in_) ∧
  (∃ hop, last (Hops route) = Some hop ∧
          Asset_String (hop_Out hop) = Asset_String out) ∧
  (∀ i hop next, Hops route !! i = Some hop → Hops route !! S i = Some next →
     Asset_String (hop_Out hop) = Asset_String (hop_In next) ∧
     AmountOut hop = AmountIn next) ∧
  (length (Hops route) <= 3)%nat.

(** The assets the search has reached: the start and every asset with a
    predecessor. *)
Definition reached (start : string) (prev : gmap string string)
  (x : string) : Prop :=
  x = start ∨ is_Some (prev !! x).

(** What the search keeps true of its state. *)
Record search_inv (start : string) (st : search) : Prop := {
  inv_prev : ∀ x y, prev st !! x = Some y → x ≠ "" ∧ reached start (prev st) y;
  inv_pq : ∀ nd, nd ∈ pq st → reached start (prev st) (asset nd);
  inv_heap : heap_ok (pq st)
}.

(** ** Concrete snapshots for the pathfinder *)

(** A token without issuer, enough to name a node of the graph. *)
Definition token (name : string) : Asset :=
  {| Currency := name; Issuer := "" |}.

(** Scenario 1 as a snapshot. *)
Definition pf_scenario_1 : Pathfinder := NewPathfinder [pool_xrp_usd] [].

(** A line of four pools A - B - C - D - E: the only path from A to E
    has five nodes. *)
Definition pf_line : Pathfinder :=
  NewPathfinder
    [ mkPool (token "A") (token "B") 1000 1000 30;
      mkPool (token "B") (token "C") 1000 1000 30;
      mkPool (token "C") (token "D") 1000 1000 30;
      mkPool (token "D") (token "E") 1000 1000 30 ] [].

(** S trades with a, b and c at the same fee, and both b and c trade
    with T: two routes of equal cost from S to T, the one through b
    listed first. *)
Definition pf_ties : Pathfinder :=
  NewPathfinder
    [ mkPool (token "S") (token "a") 1000 1000 30;
      mkPool (token "S") (token "b") 1000 1000 30;
      mkPool (token "S") (token "c") 1000 1000 30;
      mkPool (token "b") (token "T") 1000 1000 30;
      mkPool (token "c") (token "T") 1000 1000 30 ] [].

(** Three queue entries of the same cost. *)
Definition tie (name : string) : node :=
  {| asset := name; cost := decimal.New 3 (-3) |}.

(** The nodes a route passes, by canonical string. *)
Definition route_nodes (r : Route) : list string :=
  match Hops r with
  | [] => []
  | hop :: _ => Asset_String (hop_In hop)
                :: map (λ h, Asset_String (hop_Out h)) (Hops r)
  end.

(** ** Termination of the search

    The edges still to be relaxed: those leaving a node that has not
    been visited. *)
Definition pending (graph : gmap string (list edge))
  (vis : gmap string bool) : nat :=
  map_fold (λ k es n,
              if default false (vis !! k) then n else (length es + n)%nat)
           0%nat graph.

(** The visited nodes, latest first: predecessors are visited nodes, and
    the predecessor of a visited node was visited before it. *)
Record search_order (start : string) (st : search) (order : list string)
  : Prop := {
  ord_nodup : NoDup order;
  ord_prev : ∀ x y, prev st !! x = Some y → y ∈ order;
  ord_before : ∀ o1 x o2 y,
    order = o1 ++ x :: o2 → prev st !! x = Some y → y ∈ o2;
  ord_visited : ∀ x, x ∈ order → is_visited st x = true;
  ord_reached : ∀ x, x ∈ order → reached start (prev st) x;
  ord_pq : ∀ nd, nd ∈ pq st → reached start (prev st) (asset nd)
}.

(** A string without the separator of the canonical form. *)
Definition dotless (s : string) : bool :=
  forallb (λ c, negb (Ascii.eqb c ".")) (list_ascii_of_string s).

(** ** Counting the reads of a sequence of operations *)

Definition is_get (o : kv.op) : bool :=
  match o with kv.OpGet _ _ => true | _ => false end.

(** The number of [Get]s among the operations. *)
Definition gets (ops : list (Z * kv.op)) : Z :=
  Z.of_nat (length (filter (λ x : Z * kv.op, is_get x.2 = true) ops)).

(** The reads a store has answered. *)
Definition reads (s : kv.MemoryStore) : Z := kv.hits s + kv.misses s.

(** The store [tiny] after [Set("n", "k", "", 0)]: one entry of 67
    bytes. *)
Definition tiny_with_one : kv.MemoryStore :=
  Eval vm_compute in
    match kv.Set_ kv_examples.tiny "n" "k" "" 0 0 with
    | Done (s, _) => s
    | _ => kv_examples.tiny
    end.

(** The store [small] after two writes of 100 bytes, [key1] first. *)
Definition small_with_two : kv.MemoryStore :=
  Eval vm_compute in
    match kv.run kv_examples.small
            [(0, kv.OpSet "test" "key1" kv_examples.value100 0);
             (0, kv.OpSet "test" "key2" kv_examples.value100 0)] with
    | Done s => s
    | _ => kv_examples.small
    end.

(** The store [small] after one, and after two, calls of
    [IncrementRateLimit("partner", 10)], at times 0 and 10. *)
Definition small_counted_once : kv.MemoryStore :=
  Eval vm_compute in
    match kv.IncrementRateLimit kv_examples.small "partner" 10 0 with
    | Done (s, _) => s
    | _ => kv_examples.small
    end.

Definition small_counted_twice : kv.MemoryStore :=
  Eval vm_compute in
    match kv.IncrementRateLimit small_counted_once "partner" 10 10 with
    | Done (s, _) => s
    | _ => kv_examples.small
    end.

(** A store whose keys may have four bytes at most. *)
Definition short_keys : kv.MemoryStore := kv.NewMemoryStoreWithConfig 500 4 200.

(** A string in which the character [c] does not occur. *)
Definition free_of (c : ascii) (s : string) : bool :=
  forallb (λ x, negb (Ascii.eqb x c)) (list_ascii_of_string s).

(** The value of a hexadecimal digit: its place in [hextable]. *)
Definition hex_value (c : ascii) : nat :=
  match list_find (λ x, x = c) (list_ascii_of_string kv.hextable) with
  | Some (i, _) => i
  | None => 0%nat
  end.

(** A quote hash of 32 bytes. *)
Definition hash_of_x : string := decimal.Repeat "x" 32.

(** The sum of the counts of a map of counters. *)
Definition sum_counts (m : gmap string Z) : Z :=
  map_fold (λ _ c acc, c + acc) 0 m.

(** ** The breaker's price window *)

(** The price is within the effective threshold of the mean of the
    recent prices, as [CheckPrice] computes the two. *)
Definition in_threshold (NewFromFloat : PrimFloat.float → decimal.Decimal)
  (cb : CircuitBreaker) (st : breakerState) (price : decimal.Decimal)
  (now : Z) : Prop :=
  ∃ dev, deviation (recentPrices st) price = Done dev
         ∧ decimal.GreaterThan dev (effective_threshold NewFromFloat cb now)
           = false.

(** The recent prices after one more has been recorded: the last
    [DefaultMaxPrices] of them. *)
Definition window (prices : list decimal.Decimal) (price : decimal.Decimal)
  : list decimal.Decimal :=
  if (DefaultMaxPrices <? length (prices ++ [price]))%nat
  then drop 1 (prices ++ [price])
  else prices ++ [price].

(** No pair holds more than [DefaultMaxPrices] prices. *)
Definition windows_ok (cb : CircuitBreaker) : Prop :=
  ∀ pair_ st, states cb !! pair_ = Some st →
    (length (recentPrices st) <= DefaultMaxPrices)%nat.

(** A breaker with a persist callback, whose pair XRP-USD is in state
    [st]. *)
Definition persisting (st : breakerState) : CircuitBreaker :=
  {| states := {[ "XRP-USD" := st ]};
     threshold := threshold (breaker_with st);
     cautionMode := cautionMode (breaker_with st);
     cautionUntil := cautionUntil (breaker_with st);
     persistCallback := true;
     persisted := [] |}.

(** A pair whose only recorded price is zero. *)
Definition zero_priced : breakerState :=
  {| pair := "XRP-USD"; recentPrices := [decimal.New 0 0];
     lastTradeTs := 0; state := StateClosed; failures := 0; openedAt := 0 |}.

(** The state of a pair after an accepted price: half-open becomes
    closed with the failures reset, the price joins the window. *)
Definition accepted (st : breakerState) (price : decimal.Decimal)
  : breakerState :=
  {| pair := pair st;
     recentPrices := window (recentPrices st) price;
     lastTradeTs := lastTradeTs st;
     state := if bool_decide (state st = StateHalfOpen) then StateClosed
              else state st;
     failures := if bool_decide (state st = StateHalfOpen) then 0
                 else failures st;
     openedAt := openedAt st |}.

(** ** Where the search can go *)

(** [x] is the target of an edge of the graph. *)
Definition is_target (graph : gmap string (list edge)) (x : string) : Prop :=
  ∃ k es e, graph !! k = Some es ∧ e ∈ es ∧ to e = x.

(** The assets a pool or an offer of the snapshot pays out. *)
Definition pays_out (pf : Pathfinder) (x : string) : Prop :=
  (∃ p, p ∈ pools pf
        ∧ (x = Asset_String (Asset1 p) ∨ x = Asset_String (Asset2 p)))
  ∨ (∃ o, o ∈ offers pf ∧ x = Asset_String (TakerGets o)).

(** The assets a pool or an offer of the snapshot takes in: the nodes
    with an edge leaving them, the keys of the graph. *)
Definition takes_in (pf : Pathfinder) (x : string) : Prop :=
  (∃ p, p ∈ pools pf
        ∧ (x = Asset_String (Asset1 p) ∨ x = Asset_String (Asset2 p)))
  ∨ (∃ o, o ∈ offers pf ∧ x = Asset_String (TakerPays o)).

(** No edge has a weight above 1: no edge has a negative cost. *)
Definition weights_le_1 (graph : gmap string (list edge)) : Prop :=
  ∀ k es e, graph !! k = Some es → e ∈ es → (decimal.toQ (weight e) <= 1)%Q.

(** What the search keeps true when no cost is negative: the costs in
    the queue are not negative, a distance is recorded only for the
    start and for nodes with an edge leaving them, and a predecessor
    only for nodes with a distance. *)
Record search_nonneg (graph : gmap string (list edge)) (start : string)
  (st : search) : Prop := {
  nn_pq : ∀ nd, nd ∈ pq st → (0 <= decimal.toQ (cost nd))%Q;
  nn_dist : ∀ x, is_Some (dist st !! x) → x = start ∨ is_Some (graph !! x);
  nn_prev : ∀ x, is_Some (prev st !! x) → is_Some (dist st !! x)
}.

(** One offer from XRP to USD, at the quality given. *)
Definition pf_one_offer (quality : decimal.Decimal) : Pathfinder :=
  NewPathfinder []
    [{| TakerPays := XRP; TakerGets := USD_I; Quality := quality;
        offer_Account := ""; Sequence := 0 |}].

(** ** Hops and the snapshot *)

(** The hop is what [findHop] makes of a pool or of an offer of the
    snapshot: for a pool, in either direction, the output of
    [calculateAMMOutput]; for an offer, the input times the quality. *)
Definition hop_backed (pf : Pathfinder) (hop : Hop) : Prop :=
  (Type_ hop = "amm" ∧
   ∃ p, p ∈ pools pf ∧
     ((hop_In hop = Asset1 p ∧ hop_Out hop = Asset2 p
       ∧ calculateAMMOutput p (AmountIn hop) true = Done (AmountOut hop))
      ∨ (hop_In hop = Asset2 p ∧ hop_Out hop = Asset1 p
         ∧ calculateAMMOutput p (AmountIn hop) false
           = Done (AmountOut hop))))
  ∨ (Type_ hop = "orderbook" ∧
     ∃ o, o ∈ offers pf ∧ hop_In hop = TakerPays o
          ∧ hop_Out hop = TakerGets o
          ∧ AmountOut hop = decimal.Mul (AmountIn hop) (Quality o)).

(** ** Quote engine ([router.QuoteEngine]) *)

Record QuoteResponse : Set := {
  resp_Route : Route;
  resp_Out : decimal.Decimal;
  resp_Price : decimal.Decimal;
  resp_Fees : Fees;
  resp_LedgerIndex : Z;
  resp_QuoteHash : string;
  resp_TTLLedgers : Z
}.

(** The engine holds a validator, which has no state, a pathfinder, the
    breaker it checks prices with, and a KV store that [GenerateQuote]
    does not use; the last one is left out. *)
Record QuoteEngine : Type := {
  pathfinder : Pathfinder;
  breaker : CircuitBreaker;
  routerBps : Z
}.

(** [for _, hop := range route.Hops { if hop.Type == "amm" { ... } }] *)
Fixpoint calculateTotalFees_loop (hops : list Hop)
  (totalTradingFees : decimal.Decimal) : exec decimal.Decimal :=
  match hops with
  | [] => mret totalTradingFees
  | hop :: hops' =>
      if String.eqb (Type_ hop) "amm" then
        fee ← must (decimal.Div (decimal.Sub (AmountIn hop) (AmountOut hop))
                      (AmountIn hop));
        calculateTotalFees_loop hops' (decimal.Add totalTradingFees fee)
      else calculateTotalFees_loop hops' totalTradingFees
  end.

Definition calculateTotalFees (route : Route) : exec Fees :=
  totalTradingFees ← calculateTotalFees_loop (Hops route) decimal.Zero;
  mret {| RouterBps := 0; TradingFees := totalTradingFees;
          EstOutFee := decimal.Zero |}.

(** [route.Hops[len(route.Hops)-1]]: an index out of range panics. *)
Definition last_hop (route : Route) : exec Hop := must (last (Hops route)).

Definition calculatePriceImpact (route : Route) (amountIn : decimal.Decimal)
  : exec decimal.Decimal :=
  if (length (Hops route) =? 0)%nat then mret decimal.Zero
  else
    hop ← last_hop route;
    let finalAmount := AmountOut hop in
    if decimal.IsZero amountIn then mret decimal.Zero
    else
      executionPrice ← must (decimal.Div finalAmount amountIn);
      let impact :=
        decimal.Abs (decimal.Sub (decimal.NewFromInt 1) executionPrice) in
      mret impact.

Section engine.

Variable NewFromFloat : PrimFloat.float -> decimal.Decimal.
Variable escape : string -> string.
Variable toValidUTF8 : string -> string.
Variable formatFloat : Z -> string.
Variable blake2b_Sum256 : string -> string.

(** [GenerateQuote]: the breaker after the call, and the response or the
    error.  [now] is the time the breaker reads. *)
Definition GenerateQuote (qe : QuoteEngine) (req : QuoteRequest)
  (ledgerIndex : Z) (now : Z)
  : exec (CircuitBreaker * (QuoteResponse + error)) :=
  match ValidateQuoteRequest req with
  | Some err => mret (breaker qe, inr err)
  | None =>
      r ← FindBestRoute (pathfinder qe) (In_ req) (Out req) (Amount req);
      match r with
      | inr err => mret (breaker qe, inr err)
      | inl route =>
          totalFees ← calculateTotalFees route;
          let totalFees :=
            {| RouterBps := routerBps qe;
               TradingFees := TradingFees totalFees;
               EstOutFee := EstOutFee totalFees |} in
          hop ← last_hop route;
          let finalAmount := AmountOut hop in
          price ← must (decimal.Div finalAmount (Amount req));
          priceImpact ← calculatePriceImpact route (Amount req);
          let route :=
            {| Hops := Hops route; TotalFees := TotalFees route;
               PriceImpact := priceImpact |} in
          let pair_ :=
            Asset_String (In_ req) +:+ "-" +:+ Asset_String (Out req) in
          '(cb, err) ← CheckPrice NewFromFloat (breaker qe) pair_ price now;
          match err with
          | Some err => mret (cb, inr err)
          | None =>
              let ttl := 100 in
              match ComputeQuoteHash escape toValidUTF8 formatFloat
                      blake2b_Sum256 req totalFees ledgerIndex ttl with
              | inr err => mret (cb, inr err)
              | inl quoteHash =>
                  mret (cb,
                        inl {| resp_Route := route;
                               resp_Out := finalAmount;
                               resp_Price := price;
                               resp_Fees := totalFees;
                               resp_LedgerIndex := ledgerIndex;
                               resp_QuoteHash := quoteHash;
                               resp_TTLLedgers := ttl |})
              end
          end
      end
  end.

End engine.

(** The engine of scenario 1: its pool, a new breaker at threshold 0.05,
    20 basis points for the router. *)
Definition engine_scenario_1 : QuoteEngine :=
  {| pathfinder := pf_scenario_1;
     breaker := NewCircuitBreaker 0x1.999999999999ap-5%float 0;
     routerBps := 20 |}.

(** Two pools in a row, the first with a fee of 100 percent: whatever
    goes in, nothing comes out of it. *)
Definition EUR_I : Asset := {| Currency := "EUR"; Issuer := issuer_I |}.

Definition pf_full_fee : Pathfinder :=
  NewPathfinder
    [ mkPool XRP USD_I 10000 15000 10000;
      mkPool USD_I EUR_I 1000 1000 30 ] [].

(** The share of its input that an AMM hop does not give back, as
    [calculateTotalFees] computes it: [(in - out) / in], rounded to 16
    places. *)
Definition hop_fee (hop : Hop) : Q :=
  round16 ((decimal.toQ (AmountIn hop) - decimal.toQ (AmountOut hop))
           / decimal.toQ (AmountIn hop)).

(** The sum of these over the AMM hops of a list. *)
Fixpoint amm_fees (hops : list Hop) : Q :=
  match hops with
  | [] => 0
  | hop :: hops' =>
      if String.eqb (Type_ hop) "amm" then (hop_fee hop + amm_fees hops')%Q
      else amm_fees hops'
  end.

(** The request of scenario 1: 100 XRP for USD. *)
Definition request_scenario_1 : QuoteRequest :=
  {| In_ := XRP; Out := USD_I; Amount := decimal.NewFromInt 100 |}.

(** The response to a request whose route is priced and whose price the
    breaker accepts, as [GenerateQuote] assembles it. *)
Definition response_of (qe : QuoteEngine) (req : QuoteRequest)
  (ledgerIndex : Z) (route : Route) (fees : Fees) (hop : Hop)
  (price : decimal.Decimal) (quoteHash : string) : QuoteResponse :=
  {| resp_Route :=
       {| Hops := Hops route; TotalFees := TotalFees route;
          PriceImpact :=
            decimal.Abs (decimal.Sub (decimal.NewFromInt 1) price) |};
     resp_Out := AmountOut hop;
     resp_Price := price;
     resp_Fees := {| RouterBps := routerBps qe;
                     TradingFees := TradingFees fees;
                     EstOutFee := EstOutFee fees |};
     resp_LedgerIndex := ledgerIndex;
     resp_QuoteHash := quoteHash;
     resp_TTLLedgers := 100 |}.

(** The name under which [GenerateQuote] files a request's price with
    the breaker. *)
Definition pair_of (req : QuoteRequest) : string :=
  Asset_String (In_ req) +:+ "-" +:+ Asset_String (Out req).

(** The outcome of scenario 1 at ledger 7, with the identity for the
    escaping, the UTF-8 repair and the digest. *)
Definition outcome_scenario_1
  : exec (CircuitBreaker * (QuoteResponse + error)) :=
  Eval vm_compute in
    GenerateQuote NewFromFloat_0_05 id id pretty id
      engine_scenario_1 request_scenario_1 7 1.

(** A request for EUR, and the engine over the two pools in a row. *)
Definition request_for_EUR : QuoteRequest :=
  {| In_ := XRP; Out := EUR_I; Amount := decimal.NewFromInt 100 |}.

Definition engine_full_fee : QuoteEngine :=
  {| pathfinder := pf_full_fee;
     breaker := NewCircuitBreaker 0x1.999999999999ap-5%float 0;
     routerBps := 20 |}.

(** The hop through the second of the two pools: nothing goes in. *)
Definition hop_of_nothing : Hop :=
  {| Type_ := "amm"; hop_In := USD_I; hop_Out := EUR_I;
     AmountIn := decimal.New 0 (-16); AmountOut := decimal.New 0 (-16) |}.

(* ===================================================================== *)
(** * Part II: properties                                                 *)
(* ===================================================================== *)

(** ** Decimals denote rationals *)

Section decimal_facts.

Import decimal.
Local Open Scope Q_scope.

Lemma ten_nz : ¬ inject_Z 10 == 0.
Proof. discriminate. Qed.

Lemma pow10_pos (e : Z) : 0 < inject_Z 10 ^ e.
Proof. apply Qpower_0_lt. reflexivity. Qed.

Lemma pow10_inject (k : Z) : (0 <= k)%Z → inject_Z (10 ^ k) == inject_Z 10 ^ k.
Proof. intros. by apply Zpower_Qpower. Qed.

Lemma toQ_New v e : toQ (New v e) = inject_Z v * inject_Z 10 ^ e.
Proof. reflexivity. Qed.

Lemma toQ_scale v k e :
  (0 <= k)%Z → toQ (New (v * 10 ^ k) e) == toQ (New v (e + k)).
Proof.
  intros Hk. rewrite !toQ_New, inject_Z_mult, pow10_inject by done.
  rewrite (Qpower_plus _ e k ten_nz). ring.
Qed.

Lemma toQ_rescale_down d e : (e <= exp d)%Z → toQ (rescale d e) == toQ d.
Proof.
  intros He. unfold rescale.
  destruct (Z.eqb_spec (exp d) e) as [Heq|Hne]; [reflexivity|].
  destruct (Z.ltb_spec (exp d) e); [lia|].
  rewrite toQ_scale by lia. destruct d as [v x]; simpl in *.
  replace (e + Z.abs (e - x))%Z with x by lia. reflexivity.
Qed.

Lemma exp_rescale d e : exp (rescale d e) = e.
Proof.
  unfold rescale. destruct (Z.eqb_spec (exp d) e); [done|].
  by destruct (exp d <? e)%Z.
Qed.

Lemma RescalePair_spec d1 d2 :
  let '(r1, r2) := RescalePair d1 d2 in
  exp r1 = Z.min (exp d1) (exp d2) ∧ exp r2 = Z.min (exp d1) (exp d2)
  ∧ toQ r1 == toQ d1 ∧ toQ r2 == toQ d2.
Proof.
  unfold RescalePair.
  destruct (Z.eqb_spec (exp d1) (exp d2)) as [Heq|Hne].
  { rewrite Heq, Z.min_id. repeat split; reflexivity. }
  destruct (Z.eqb_spec (Z.min (exp d1) (exp d2)) (exp d1)) as [Hm|Hm]; simpl.
  - rewrite exp_rescale. repeat split; try done; try reflexivity.
    apply toQ_rescale_down. lia.
  - rewrite exp_rescale. repeat split; try done; try reflexivity; try lia.
    apply toQ_rescale_down. lia.
Qed.

Lemma toQ_Add d d2 : toQ (Add d d2) == toQ d + toQ d2.
Proof.
  unfold Add. pose proof (RescalePair_spec d d2) as H.
  destruct (RescalePair d d2) as [r1 r2]. destruct H as (E1 & E2 & <- & <-).
  rewrite !toQ_New, inject_Z_plus. unfold toQ. rewrite E2, <- E1. ring.
Qed.

Lemma toQ_Sub d d2 : toQ (Sub d d2) == toQ d - toQ d2.
Proof.
  unfold Sub. pose proof (RescalePair_spec d d2) as H.
  destruct (RescalePair d d2) as [r1 r2]. destruct H as (E1 & E2 & <- & <-).
  rewrite !toQ_New. unfold Z.sub. rewrite inject_Z_plus, inject_Z_opp.
  unfold toQ. rewrite E2, <- E1. ring.
Qed.

Lemma toQ_Mul d d2 : toQ (Mul d d2) == toQ d * toQ d2.
Proof.
  unfold Mul. rewrite toQ_New, inject_Z_mult, (Qpower_plus _ _ _ ten_nz).
  unfold toQ. ring.
Qed.

Lemma toQ_NewFromInt v : toQ (NewFromInt v) == inject_Z v.
Proof. unfold NewFromInt. rewrite toQ_New. simpl. ring. Qed.

Lemma toQ_Zero : toQ Zero == 0.
Proof. reflexivity. Qed.

Lemma toQ_Abs d : toQ (Abs d) == Qabs (toQ d).
Proof.
  unfold Abs. rewrite toQ_New. unfold toQ.
  rewrite Qabs_Qmult, (Qabs_pos (_ ^ _)) by (apply Qlt_le_weak, pow10_pos).
  apply Qmult_comp; [|reflexivity].
  unfold Qabs, inject_Z. simpl. reflexivity.
Qed.

Lemma Qcompare_scale (a b : Z) (p : Q) :
  0 < p → (inject_Z a * p ?= inject_Z b * p) = (a ?= b)%Z.
Proof.
  intros Hp. destruct (Z.compare_spec a b) as [->|Hlt|Hgt].
  - apply Qeq_alt. reflexivity.
  - apply Qlt_alt. apply Qmult_lt_compat_r; [done|]. by rewrite <- Zlt_Qlt.
  - apply Qgt_alt. apply Qmult_lt_compat_r; [done|]. by rewrite <- Zlt_Qlt.
Qed.

Lemma Cmp_toQ d d2 : Cmp d d2 = (toQ d ?= toQ d2).
Proof.
  unfold Cmp. destruct (Z.eqb_spec (exp d) (exp d2)) as [Heq|Hne].
  { unfold toQ. rewrite Heq. symmetry. apply Qcompare_scale, pow10_pos. }
  pose proof (RescalePair_spec d d2) as H.
  destruct (RescalePair d d2) as [r1 r2]. destruct H as (E1 & E2 & <- & <-).
  unfold toQ. rewrite E1, E2. symmetry. apply Qcompare_scale, pow10_pos.
Qed.

Lemma LessThan_toQ d d2 : LessThan d d2 = true ↔ toQ d < toQ d2.
Proof.
  unfold LessThan. rewrite Cmp_toQ, Qlt_alt.
  destruct (toQ d ?= toQ d2); split; congruence.
Qed.

Lemma GreaterThan_toQ d d2 : GreaterThan d d2 = true ↔ toQ d2 < toQ d.
Proof.
  unfold GreaterThan. rewrite Cmp_toQ, (Qgt_alt (toQ d) (toQ d2)).
  destruct (toQ d ?= toQ d2); split; congruence.
Qed.

Lemma LessThanOrEqual_toQ d d2 :
  LessThanOrEqual d d2 = true ↔ toQ d <= toQ d2.
Proof.
  unfold LessThanOrEqual. rewrite Cmp_toQ, Qle_alt.
  destruct (toQ d ?= toQ d2); split; congruence.
Qed.

End decimal_facts.

(** ** Rounding half away from zero *)

Section rounding.

Local Open Scope Q_scope.

#[global] Instance round_half_away_proper : Proper (Qeq ==> eq) round_half_away.
Proof.
  intros q1 q2 E. unfold round_half_away.
  assert (Qle_bool 0 q1 = Qle_bool 0 q2) as ->.
  { apply eq_true_iff_eq. rewrite !Qle_bool_iff. by rewrite E. }
  destruct (Qle_bool 0 q2); by rewrite E.
Qed.

Lemma round_half_away_opp q : round_half_away (- q) = (- round_half_away q)%Z.
Proof.
  unfold round_half_away.
  destruct (Qle_bool 0 q) eqn:H1, (Qle_bool 0 (- q)) eqn:H2.
  - apply Qle_bool_iff in H1, H2. assert (q == 0) as E by lra.
    rewrite E. reflexivity.
  - by rewrite Qopp_involutive.
  - lia.
  - exfalso.
    assert (¬ 0 <= q) by (rewrite <- Qle_bool_iff; congruence).
    assert (¬ 0 <= - q) by (rewrite <- Qle_bool_iff; congruence).
    lra.
Qed.

Lemma round_half_away_nonneg q :
  0 <= q → round_half_away q = Qfloor (q + (1 # 2)).
Proof.
  intros H. unfold round_half_away.
  apply Qle_bool_iff in H. by rewrite H.
Qed.

Lemma round_half_away_le q1 q2 :
  q1 <= q2 → (round_half_away q1 <= round_half_away q2)%Z.
Proof.
  intros H. unfold round_half_away.
  destruct (Qle_bool 0 q1) eqn:H1, (Qle_bool 0 q2) eqn:H2.
  - apply Qfloor_resp_le. lra.
  - apply Qle_bool_iff in H1.
    assert (¬ 0 <= q2) by (rewrite <- Qle_bool_iff; congruence). lra.
  - assert (¬ 0 <= q1) by (rewrite <- Qle_bool_iff; congruence).
    apply Qle_bool_iff in H2.
    assert (0 <= Qfloor (- q1 + (1 # 2)))%Z.
    { change 0%Z with (Qfloor 0). apply Qfloor_resp_le. lra. }
    assert (0 <= Qfloor (q2 + (1 # 2)))%Z.
    { change 0%Z with (Qfloor 0). apply Qfloor_resp_le. lra. }
    lia.
  - apply Z.opp_le_mono. rewrite !Z.opp_involutive.
    apply Qfloor_resp_le. lra.
Qed.

(** On a quotient of non-negative integers it is the quotient plus one
    when twice the remainder reaches the divisor. *)
Lemma round_half_away_div (a b : Z) :
  (0 <= a)%Z → (0 < b)%Z →
  round_half_away (inject_Z a / inject_Z b)
  = (a / b + (if 2 * (a mod b) <? b then 0 else 1))%Z.
Proof.
  intros Ha Hb.
  assert (0 < inject_Z b) as Hb'.
  { change 0 with (inject_Z 0). by rewrite <- Zlt_Qlt. }
  rewrite round_half_away_nonneg.
  2:{ apply Qle_shift_div_l; [done|]. rewrite Qmult_0_l.
      change 0 with (inject_Z 0). by rewrite <- Zle_Qle. }
  assert (inject_Z a / inject_Z b + (1 # 2)
          == inject_Z (2 * a + b) / inject_Z (2 * b)) as ->.
  { rewrite inject_Z_plus, !inject_Z_mult. field. lra. }
  rewrite <- Zdiv_Qdiv.
  pose proof (Z.div_mod a b ltac:(lia)) as E.
  pose proof (Z.mod_pos_bound a b Hb) as Hr.
  set (k := (a / b)%Z) in *. set (r := (a mod b)%Z) in *.
  destruct (Z.ltb_spec (2 * r) b).
  - symmetry. apply Z.div_unique with (r := (2 * r + b)%Z); lia.
  - symmetry. apply Z.div_unique with (r := (2 * r - b)%Z); lia.
Qed.

Lemma quot_sign (aa bb : Z) :
  bb ≠ 0%Z →
  ((Z.sgn aa * Z.sgn bb < 0 → Z.quot aa bb = - Z.abs (Z.quot aa bb))
   ∧ (0 <= Z.sgn aa * Z.sgn bb → Z.quot aa bb = Z.abs (Z.quot aa bb)))%Z.
Proof.
  intros Hbb.
  assert (∀ a b, 0 <= a → 0 < b → 0 <= Z.quot a b)%Z as Hpos.
  { intros. apply Z.quot_pos; lia. }
  destruct (Z.lt_trichotomy aa 0) as [Ha|[->|Ha]],
           (Z.lt_trichotomy bb 0) as [Hb|[->|Hb]]; try done;
    rewrite ?Z.quot_0_l by done; split; try (simpl; lia); intros _.
  - pose proof (Hpos (- aa) (- bb))%Z. rewrite Z.quot_opp_opp in * by lia. lia.
  - pose proof (Hpos (- aa) bb)%Z. rewrite Z.quot_opp_l in * by lia. lia.
  - pose proof (Hpos aa (- bb))%Z. rewrite Z.quot_opp_r in * by lia. lia.
  - pose proof (Hpos aa bb)%Z. lia.
Qed.

(** In terms of the truncated quotient and remainder, for any signs. *)
Lemma round_half_away_quot (aa bb : Z) :
  bb ≠ 0%Z →
  round_half_away (inject_Z aa / inject_Z bb)
  = (Z.quot aa bb
     + (if 2 * Z.abs (Z.rem aa bb) <? Z.abs bb then 0
        else if Z.sgn aa * Z.sgn bb <? 0 then -1 else 1))%Z.
Proof.
  intros Hbb.
  assert (Hq : (Z.abs (Z.quot aa bb) = Z.abs aa / Z.abs bb)%Z).
  { rewrite <- Z.quot_abs by done. apply Z.quot_div_nonneg; lia. }
  assert (Hr : (Z.abs (Z.rem aa bb) = Z.abs aa mod Z.abs bb)%Z).
  { rewrite <- Z.rem_abs by done. apply Z.rem_mod_nonneg; lia. }
  pose proof (round_half_away_div (Z.abs aa) (Z.abs bb) ltac:(lia) ltac:(lia))
    as H.
  rewrite <- Hq, <- Hr in H.
  assert (¬ inject_Z bb == 0) as Hnz.
  { intros E. apply Hbb. unfold Qeq in E. simpl in E. lia. }
  destruct (quot_sign aa bb Hbb) as [Hneg Hpos].
  destruct (Z.ltb_spec (Z.sgn aa * Z.sgn bb) 0) as [Hs|Hs].
  - (* opposite signs *)
    assert (inject_Z aa / inject_Z bb
            == - (inject_Z (Z.abs aa) / inject_Z (Z.abs bb))) as ->.
    { assert (Z.abs aa = - aa ∧ Z.abs bb = bb ∨ Z.abs aa = aa ∧ Z.abs bb = - bb)%Z
        as [[-> ->]|[-> ->]] by lia;
        rewrite ?inject_Z_opp; field; done. }
    rewrite round_half_away_opp, H.
    destruct (2 * Z.abs (Z.rem aa bb) <? Z.abs bb)%Z; lia.
  - assert (inject_Z aa / inject_Z bb
            == inject_Z (Z.abs aa) / inject_Z (Z.abs bb)) as ->.
    { assert (Z.abs aa = - aa ∧ Z.abs bb = - bb ∨ Z.abs aa = aa ∧ Z.abs bb = bb
              ∨ aa = 0 ∧ Z.abs aa = 0)%Z
        as [[-> ->]|[[-> ->]|[-> ->]]] by lia;
        rewrite ?inject_Z_opp; try reflexivity.
      all: try (field; done).
      all: unfold Qdiv; by rewrite !Qmult_0_l. }
    rewrite H.
    destruct (2 * Z.abs (Z.rem aa bb) <? Z.abs bb)%Z; lia.
Qed.

End rounding.

(** ** Division rounds to sixteen places *)

Section division.

Import decimal.
Local Open Scope Q_scope.

Lemma Cmp_New_le v1 e1 v2 e2 :
  (e1 <= e2)%Z →
  Cmp (New v1 e1) (New v2 e2) = (v1 ?= v2 * 10 ^ (e2 - e1))%Z.
Proof.
  intros He. unfold Cmp, RescalePair; simpl.
  destruct (Z.eqb_spec e1 e2) as [->|Hne].
  { rewrite Z.sub_diag. simpl. by rewrite Z.mul_1_r. }
  replace (Z.min e1 e2) with e1 by lia.
  rewrite Z.eqb_refl. simpl.
  unfold rescale; simpl.
  destruct (Z.eqb_spec e2 e1); [lia|].
  destruct (Z.ltb_spec e2 e1); [lia|]. simpl.
  replace (Z.abs (e1 - e2)) with (e2 - e1)%Z by lia. reflexivity.
Qed.

Lemma sgn_scale a k : (0 <= k)%Z → Z.sgn (a * 10 ^ k) = Z.sgn a.
Proof.
  intros. rewrite Z.sgn_mul.
  assert (0 < 10 ^ k)%Z by (apply Z.pow_pos_nonneg; lia).
  rewrite (Z.sgn_pos (10 ^ k)) by done. lia.
Qed.

Lemma div_operands_quotient d d2 :
  value d2 ≠ 0%Z →
  let '(aa, bb) := decimal.div_operands d d2 in
  bb ≠ 0%Z ∧ Z.sgn aa = Z.sgn (value d) ∧ Z.sgn bb = Z.sgn (value d2)
  ∧ toQ d / toQ d2 * inject_Z (10 ^ 16) == inject_Z aa / inject_Z bb.
Proof.
  intros Hb. unfold decimal.div_operands.
  assert (¬ inject_Z (value d2) == 0) as Hb'.
  { intros E. unfold Qeq in E. simpl in E. lia. }
  pose proof (Qpower_not_0 (inject_Z 10) (exp d) ten_nz) as N1.
  pose proof (Qpower_not_0 (inject_Z 10) (exp d2) ten_nz) as N2.
  destruct (Z.ltb_spec (exp d - exp d2 + 16) 0) as [He|He].
  - assert (0 < 10 ^ (- (exp d - exp d2 + 16)))%Z
      by (apply Z.pow_pos_nonneg; lia).
    split; [lia|]. split; [done|]. split; [apply sgn_scale; lia|].
    rewrite inject_Z_mult, !pow10_inject by lia.
    replace (- (exp d - exp d2 + 16))%Z with (exp d2 - exp d - 16)%Z by lia.
    rewrite !(Qpower_minus _ _ _ ten_nz). unfold toQ.
    pose proof (Qpower_not_0 (inject_Z 10) 16 ten_nz) as N3.
    field. repeat split; done.
  - assert (0 < 10 ^ (exp d - exp d2 + 16))%Z
      by (apply Z.pow_pos_nonneg; lia).
    split; [done|]. split; [apply sgn_scale; lia|]. split; [done|].
    rewrite inject_Z_mult, !pow10_inject by lia.
    rewrite (Qpower_plus _ _ _ ten_nz), (Qpower_minus _ _ _ ten_nz).
    unfold toQ. field. repeat split; done.
Qed.

Lemma Div_value d d2 :
  value d2 ≠ 0%Z →
  let '(aa, bb) := decimal.div_operands d d2 in
  Div d d2 =
  Some (New (Z.quot aa bb
             + (if 2 * Z.abs (Z.rem aa bb) <? Z.abs bb then 0
                else if Z.sgn aa * Z.sgn bb <? 0 then -1 else 1))%Z (-16)).
Proof.
  intros Hb. pose proof (div_operands_quotient d d2 Hb) as Hq.
  unfold decimal.div_operands in *.
  unfold Div, DivRound, QuoRem, DivisionPrecision, Abs.
  destruct (Z.eqb_spec (value d2) 0); [done|].
  change (- (16))%Z with (-16)%Z.
  replace (exp d - exp d2 - -16)%Z with (exp d - exp d2 + 16)%Z by lia.
  destruct (Z.ltb_spec (exp d - exp d2 + 16) 0) as [He|He];
    destruct Hq as (Hbb & S1 & S2 & _); cbn [value exp].
  - rewrite Cmp_New_le by lia.
    replace (exp d2 - (exp d + 16))%Z with (- (exp d - exp d2 + 16))%Z by lia.
    assert (0 < 10 ^ (- (exp d - exp d2 + 16)))%Z
      by (apply Z.pow_pos_nonneg; lia).
    rewrite S2.
    set (bb := (value d2 * 10 ^ (- (exp d - exp d2 + 16)))%Z) in *.
    assert (Z.abs (value d2) * 10 ^ (- (exp d - exp d2 + 16)) = Z.abs bb)%Z
      as -> by (unfold bb; rewrite Z.abs_mul; lia).
    set (r := Z.abs (Z.rem (value d) bb)).
    destruct (Z.ltb_spec (2 * r) (Z.abs bb)) as [Hlt|Hge].
    + assert ((r * 2 ?= Z.abs bb)%Z = Lt) as -> by (apply Z.compare_lt_iff; lia).
      by rewrite Z.add_0_r.
    + assert ((r * 2 ?= Z.abs bb)%Z ≠ Lt) by (rewrite Z.compare_lt_iff; lia).
      destruct (r * 2 ?= Z.abs bb)%Z; try done;
        destruct (Z.sgn (value d) * Z.sgn (value d2) <? 0)%Z; reflexivity.
  - rewrite Cmp_New_le by lia.
    replace (exp d2 - (-16 + exp d2 + 16))%Z with 0%Z by lia.
    rewrite Z.mul_1_r, S1.
    set (aa := (value d * 10 ^ (exp d - exp d2 + 16))%Z) in *.
    set (r := Z.abs (Z.rem aa (value d2))).
    destruct (Z.ltb_spec (2 * r) (Z.abs (value d2))) as [Hlt|Hge].
    + assert ((r * 2 ?= Z.abs (value d2))%Z = Lt) as ->
        by (apply Z.compare_lt_iff; lia).
      by rewrite Z.add_0_r.
    + assert ((r * 2 ?= Z.abs (value d2))%Z ≠ Lt)
        by (rewrite Z.compare_lt_iff; lia).
      destruct (r * 2 ?= Z.abs (value d2))%Z; try done;
        destruct (Z.sgn (value d) * Z.sgn (value d2) <? 0)%Z; reflexivity.
Qed.

(** [Div] returns exactly when the divisor is not zero, and then the
    quotient rounded half away from zero at the sixteenth place. *)
Lemma Div_spec d d2 :
  value d2 ≠ 0%Z →
  ∃ q, Div d d2 = Some q ∧ exp q = (-16)%Z
       ∧ value q = round_half_away (toQ d / toQ d2 * inject_Z (10 ^ 16)).
Proof.
  intros Hb. pose proof (Div_value d d2 Hb) as Hv.
  pose proof (div_operands_quotient d d2 Hb) as Hq.
  destruct (decimal.div_operands d d2) as [aa bb].
  destruct Hq as (Hbb & _ & _ & E).
  eexists. split; [exact Hv|]. split; [done|].
  simpl. by rewrite E, round_half_away_quot.
Qed.

Lemma Div_by_zero d d2 : value d2 = 0%Z → Div d d2 = None.
Proof.
  intros H. unfold Div, DivRound, QuoRem. by rewrite H.
Qed.

Lemma toQ_round16 q r :
  exp q = (-16)%Z → value q = round_half_away (r * inject_Z (10 ^ 16)) →
  toQ q == round16 r.
Proof.
  intros He Hv. unfold toQ, round16. rewrite He, Hv.
  generalize (round_half_away (r * inject_Z (10 ^ 16))). intros z.
  rewrite (Qpower_opp (inject_Z 10) 16). rewrite <- pow10_inject by lia.
  rewrite Qmake_Qdiv. rewrite Z2Pos.id by lia. reflexivity.
Qed.

Lemma value_nz_toQ d : value d ≠ 0%Z ↔ ¬ toQ d == 0.
Proof.
  pose proof (pow10_pos (exp d)).
  split.
  - intros Hv E. unfold toQ in E. apply Qmult_integral in E as [E|E]; [|lra].
    unfold Qeq in E. simpl in E. lia.
  - intros Hn Hv. apply Hn. unfold toQ. rewrite Hv. ring.
Qed.

End division.

(** ** Validator *)

Section validator_facts.

Import regexp validator_spec.

Lemma all_chars_String p c s :
  all_chars p (String c s) = p c && all_chars p s.
Proof. reflexivity. Qed.

(** A bounded repetition that must reach the end of the text. *)
Lemma match_rep_end k n m s :
  match_rep k n m (λ s, String.eqb s "") s
  = (n <=? String.length s)%nat && (String.length s <=? n + m)%nat
    && all_chars (in_class k) s.
Proof.
  revert m s. induction n as [|n IH]; intros m s.
  - revert s. induction m as [|m IHm]; intros s.
    + by destruct s.
    + destruct s as [|c s]; [reflexivity|].
      cbn [match_rep]. rewrite IHm. cbn [String.eqb orb String.length].
      rewrite all_chars_String.
      destruct (in_class k c); simpl; rewrite ?andb_false_r; done.
  - destruct s as [|c s]; [reflexivity|].
    cbn [match_rep]. rewrite IH. cbn [String.length].
    rewrite all_chars_String.
    destruct (in_class k c); simpl; rewrite ?andb_false_r; done.
Qed.

Lemma match_rep_S k n m rest c s :
  match_rep k (S n) m rest (String c s)
  = in_class k c && match_rep k n m rest s.
Proof. reflexivity. Qed.

Lemma match_rep_0 k rest s : match_rep k 0 0 rest s = rest s.
Proof. by destruct s. Qed.

Lemma base58_class_spec c : in_class base58_class c = is_base58 c.
Proof. by destruct c as [[] [] [] [] [] [] [] []]. Qed.

Lemma currency_class_spec c : in_class currency_class c = is_upper_or_digit c.
Proof. by destruct c as [[] [] [] [] [] [] [] []]. Qed.

Lemma lit_r_spec c : in_class [("r", "r")%char] c = Ascii.eqb c "r".
Proof. by destruct c as [[] [] [] [] [] [] [] []]. Qed.

Lemma all_chars_ext p q s :
  (∀ c, p c = q c) → all_chars p s = all_chars q s.
Proof.
  intros H. induction s as [|c s IH]; [done|].
  by rewrite !all_chars_String, H, IH.
Qed.

Lemma xrplAddressRegex_spec s :
  MatchString xrplAddressRegex s = address_pattern s.
Proof.
  unfold MatchString, xrplAddressRegex, address_pattern.
  cbn [match_items lit cls lo hi Nat.sub].
  destruct s as [|c s]; [reflexivity|].
  rewrite match_rep_S, match_rep_0, lit_r_spec.
  rewrite match_rep_end, (all_chars_ext _ _ _ base58_class_spec).
  change (24 + 10)%nat with 34%nat.
  by rewrite !andb_assoc.
Qed.

Lemma currencyRegex_spec s :
  MatchString currencyRegex s = currency_pattern s.
Proof.
  unfold MatchString, currencyRegex, currency_pattern.
  cbn [match_items cls lo hi Nat.sub].
  rewrite match_rep_end, (all_chars_ext _ _ _ currency_class_spec).
  reflexivity.
Qed.

Lemma ValidateAsset_spec a : ValidateAsset a = check_asset a.
Proof.
  unfold ValidateAsset, check_asset, structural_error, address_error,
    native, IsValidXRPLAddress.
  rewrite currencyRegex_spec, xrplAddressRegex_spec.
  destruct (String.eqb (Currency a) ""); [done|].
  destruct (String.eqb (Currency a) "XRP"); simpl.
  { by destruct (String.eqb (Issuer a) ""). }
  destruct (currency_pattern (Currency a)); [|done]. simpl.
  destruct (String.eqb (Issuer a) ""); [done|].
  by destruct (address_pattern (strings.TrimSpace (Issuer a))).
Qed.

Lemma amount_nonpositive d :
  decimal.LessThanOrEqual d decimal.Zero = Qle_bool (decimal.toQ d) 0.
Proof.
  apply eq_true_iff_eq.
  by rewrite LessThanOrEqual_toQ, Qle_bool_iff, toQ_Zero.
Qed.

Lemma amount_too_large d :
  decimal.GreaterThan d (decimal.NewFromInt (10 ^ 18))
  = negb (Qle_bool (decimal.toQ d) (inject_Z (10 ^ 18))).
Proof.
  apply eq_true_iff_eq.
  rewrite GreaterThan_toQ, toQ_NewFromInt, negb_true_iff.
  rewrite <- not_true_iff_false, Qle_bool_iff.
  split; [apply Qlt_not_le | apply Qnot_le_lt].
Qed.

End validator_facts.

(** C9. The validator applies its checks in the order amount > 0,
    amount <= 1e18, input asset, output asset, same asset, and answers the
    first violated one: the embedded [ValidateQuoteRequest] is the
    specification's ordered list of checks, with InvalidAsset for the
    structural asset errors, InvalidAddress for an issuer that, once
    trimmed, fails the address pattern, SameAssets for equal canonical
    strings, and no error otherwise. *)
Theorem C9_validate_first_violation (req : QuoteRequest) :
  ValidateQuoteRequest req = validator_spec.validate req.
Proof.
  unfold ValidateQuoteRequest, validator_spec.validate.
  rewrite amount_nonpositive, amount_too_large, !ValidateAsset_spec.
  reflexivity.
Qed.

(** ** AMM hop *)

Section amm_facts.

Import decimal.
Local Open Scope Q_scope.

#[global] Instance round16_proper : Proper (Qeq ==> Qeq) round16.
Proof. intros q1 q2 E. unfold round16. by rewrite E. Qed.

Lemma round16_le q1 q2 : q1 <= q2 → round16 q1 <= round16 q2.
Proof.
  intros H. unfold round16, Qle. simpl.
  apply Z.mul_le_mono_nonneg_r; [lia|].
  apply round_half_away_le.
  apply Qmult_le_compat_r; [done|]. discriminate.
Qed.

(** [1 - fee_bps/10000] is computed exactly. *)
Lemma feeMultiplier_spec bps :
  feeMultiplier bps = Done (New (10 ^ 16 - bps * 10 ^ 12) (-16)).
Proof.
  unfold feeMultiplier.
  pose proof (Div_value (NewFromInt bps) (NewFromInt 10000) ltac:(done)) as H.
  unfold div_operands in H. simpl in H.
  replace (bps * 10 ^ (0 - 0 + 16))%Z with (bps * 10 ^ 12 * 10000)%Z in H
    by lia.
  rewrite Z.quot_mul, Z.rem_mul in H by done. simpl in H.
  rewrite H. simpl. unfold Sub, RescalePair, rescale; simpl.
  change (Z.min 0 (-16)) with (-16)%Z. unfold mret, exec_ret.
  f_equal. f_equal. change (Z.abs (-16 - 0)) with 16%Z. lia.
Qed.

Lemma toQ_feeMultiplier bps :
  toQ (New (10 ^ 16 - bps * 10 ^ 12) (-16))
  == 1 - inject_Z bps / inject_Z 10000.
Proof.
  rewrite toQ_New. unfold Z.sub.
  rewrite inject_Z_plus, inject_Z_opp, inject_Z_mult.
  change (inject_Z 10 ^ (-16)) with (1 # 10000000000000000).
  change (inject_Z (10 ^ 16)) with (10000000000000000 # 1).
  change (inject_Z (10 ^ 12)) with (1000000000000 # 1).
  change (inject_Z 10000) with (10000 # 1).
  field.
Qed.

Lemma fee_fraction_le (fee1 fee2 : Z) :
  (fee1 <= fee2)%Z →
  inject_Z fee1 / inject_Z 10000 <= inject_Z fee2 / inject_Z 10000.
Proof.
  intros H. rewrite Zle_Qle in H. unfold Qdiv.
  apply Qmult_le_compat_r; [done|]. discriminate.
Qed.

Lemma fee_fraction_le_1 (fee : Z) :
  (fee <= 10000)%Z → inject_Z fee / inject_Z 10000 <= 1.
Proof.
  intros H. apply fee_fraction_le in H.
  assert (inject_Z 10000 / inject_Z 10000 == 1) as E by reflexivity.
  by rewrite E in H.
Qed.

(** The exact hop output grows with the fee-reduced input. *)
Lemma hop_mono (R_in R_out u v : Q) :
  0 < R_in → 0 <= R_out → 0 <= u → u <= v →
  u * R_out / (R_in + u) <= v * R_out / (R_in + v).
Proof.
  intros HR HO Hu Huv.
  apply Qle_shift_div_l; [lra|].
  setoid_replace (u * R_out / (R_in + u) * (R_in + v))
    with (u * R_out * (R_in + v) / (R_in + u))
    using relation Qeq by (field; lra).
  apply Qle_shift_div_r; [lra|].
  assert (0 <= (v - u) * R_out * R_in) by (repeat apply Qmult_le_0_compat; lra).
  lra.
Qed.

Lemma amm_formula_mono_amount R_in R_out x1 x2 fee :
  0 < R_in → 0 <= R_out → (0 <= fee <= 10000)%Z → 0 <= x1 → x1 <= x2 →
  amm_formula R_in R_out x1 fee <= amm_formula R_in R_out x2 fee.
Proof.
  intros HR HO [Hf1 Hf2] Hx H12. unfold amm_formula.
  assert (0 <= 1 - inject_Z fee / inject_Z 10000) as Hm.
  { pose proof (fee_fraction_le_1 fee Hf2). lra. }
  apply hop_mono; try done.
  - by apply Qmult_le_0_compat.
  - by apply Qmult_le_compat_r.
Qed.

Lemma amm_formula_mono_fee R_in R_out x fee1 fee2 :
  0 < R_in → 0 <= R_out → (fee1 <= fee2 <= 10000)%Z → 0 <= x →
  amm_formula R_in R_out x fee2 <= amm_formula R_in R_out x fee1.
Proof.
  intros HR HO [Hf1 Hf2] Hx. unfold amm_formula.
  pose proof (fee_fraction_le_1 fee2 Hf2) as Hm.
  pose proof (fee_fraction_le fee1 fee2 Hf1).
  apply hop_mono; try done.
  - apply Qmult_le_0_compat; lra.
  - rewrite !(Qmult_comm x). apply Qmult_le_compat_r; lra.
Qed.

(** What [calculateAMMOutput] returns on a valid pool: the formula of the
    specification, rounded to sixteen places. *)
Lemma calculateAMMOutput_spec pool x dir :
  pool_valid pool → 0 < toQ x →
  ∃ y, calculateAMMOutput pool x dir = Done y
       ∧ toQ y == round16 (amm_formula (toQ (reserves pool dir).1)
                             (toQ (reserves pool dir).2) (toQ x)
                             (TradingFeeBps pool)).
Proof.
  intros (H1 & H2 & Hf) Hx. unfold calculateAMMOutput.
  rewrite feeMultiplier_spec. cbn [mbind exec_bind].
  set (fm := New (10 ^ 16 - TradingFeeBps pool * 10 ^ 12) (-16)).
  assert (0 <= toQ fm) as Hm.
  { unfold fm. rewrite toQ_feeMultiplier.
    destruct Hf as [Hf1 Hf2].
    pose proof (fee_fraction_le_1 _ Hf2). lra. }
  assert (∃ rin rout, reserves pool dir = (rin, rout)
                      ∧ 0 < toQ rin ∧ 0 < toQ rout) as (rin & rout & E & Hi & Ho).
  { unfold reserves. destruct dir; eauto. }
  assert ((if dir then (Asset1Reserve pool, Asset2Reserve pool)
           else (Asset2Reserve pool, Asset1Reserve pool)) = (rin, rout)) as ->
    by exact E.
  rewrite E. cbn [fst snd].
  set (num := Mul (Mul x fm) rout). set (den := Add rin (Mul x fm)).
  assert (toQ den == toQ rin + toQ x * toQ fm) as Hden
    by (unfold den; by rewrite toQ_Add, toQ_Mul).
  assert (0 <= toQ x * toQ fm) by (apply Qmult_le_0_compat; lra).
  assert (value den ≠ 0%Z) as Hnz by (apply value_nz_toQ; lra).
  destruct (Div_spec num den Hnz) as (y & Hy & He & Hv).
  exists y. rewrite Hy. split; [done|].
  rewrite (toQ_round16 y (toQ num / toQ den) He Hv).
  apply round16_proper. unfold amm_formula, num.
  rewrite Hden, !toQ_Mul. unfold fm. rewrite toQ_feeMultiplier. reflexivity.
Qed.

End amm_facts.

(** C3 (as amended). On a pool with strictly positive reserves and
    [0 <= fee_bps <= 10000], for a strictly positive input amount,
    [calculateAMMOutput] returns the value of
    [(x (1 - fee_bps/10000) R_out) / (R_in + x (1 - fee_bps/10000))]
    rounded half away from zero to sixteen decimal places; the output is
    non-decreasing in the input amount and non-increasing in [fee_bps]. *)
Theorem C3_amm_output_rounded_monotone
  (pool : AMMPool) (dir : bool) (x : decimal.Decimal) :
  pool_valid pool → (0 < decimal.toQ x)%Q →
  ∃ y, calculateAMMOutput pool x dir = Done y
    ∧ (decimal.toQ y ==
       round16 (amm_formula (decimal.toQ (reserves pool dir).1)
                  (decimal.toQ (reserves pool dir).2) (decimal.toQ x)
                  (TradingFeeBps pool)))%Q
    ∧ (∀ x' y', (decimal.toQ x <= decimal.toQ x')%Q →
         calculateAMMOutput pool x' dir = Done y' →
         (decimal.toQ y <= decimal.toQ y')%Q)
    ∧ (∀ fee' y', TradingFeeBps pool <= fee' <= 10000 →
         calculateAMMOutput (with_fee pool fee') x dir = Done y' →
         (decimal.toQ y' <= decimal.toQ y)%Q).
Proof.
  intros Hp Hx.
  destruct (calculateAMMOutput_spec pool x dir Hp Hx) as (y & Hy & Ey).
  exists y. split; [done|]. split; [done|].
  assert (0 < decimal.toQ (reserves pool dir).1
          ∧ 0 < decimal.toQ (reserves pool dir).2)%Q as [Hi Ho].
  { destruct Hp as (? & ? & _). unfold reserves. by destruct dir. }
  destruct Hp as (H1 & H2 & Hf).
  split.
  - intros x' y' Hxx Hy'.
    destruct (calculateAMMOutput_spec pool x' dir) as (y'' & Hy'' & Ey');
      [done | lra |].
    rewrite Hy' in Hy''. injection Hy'' as <-.
    rewrite Ey, Ey'. apply round16_le.
    apply amm_formula_mono_amount; try done; lra.
  - intros fee' y' Hff Hy'.
    destruct (calculateAMMOutput_spec (with_fee pool fee') x dir)
      as (y'' & Hy'' & Ey'); [by repeat split; simpl; try lia | done |].
    rewrite Hy' in Hy''. injection Hy'' as <-.
    rewrite Ey, Ey'. apply round16_le.
    change (reserves (with_fee pool fee') dir) with (reserves pool dir).
    apply amm_formula_mono_fee; try done; lra.
Qed.

(** Scenario 1 of the specification: 100 XRP into the pool
    (XRP, USD@I, 10000, 15000, 30 bps) gives 148.0737051595591948 USD. *)
Lemma C3_amm_output_witness :
  ∃ y, calculateAMMOutput pool_xrp_usd (decimal.NewFromInt 100) true = Done y
       ∧ (decimal.toQ y == round16 (amm_formula 10000 15000 100 30))%Q.
Proof.
  assert (pool_valid pool_xrp_usd) as Hp.
  { unfold pool_valid. simpl. repeat split; try reflexivity; lia. }
  assert (0 < decimal.toQ (decimal.NewFromInt 100))%Q as Hx by reflexivity.
  destruct (C3_amm_output_rounded_monotone pool_xrp_usd true
              (decimal.NewFromInt 100) Hp Hx) as (y & Hy & Ey & _).
  exists y. split; [exact Hy | exact Ey].
Defined.

(** C3 as stated fails: on the pool of scenario 1 the inputs 100 and
    100.00000000000000000001 give the same output, which is not the exact
    value of the formula either. *)
Lemma C3_counterexample :
  let x1 := decimal.NewFromInt 100 in
  let x2 := decimal.New (10 ^ 22 + 1) (-20) in
  let y := decimal.New 1480737051595591948 (-16) in
  pool_valid pool_xrp_usd
  ∧ (0 < decimal.toQ x1)%Q ∧ (decimal.toQ x1 < decimal.toQ x2)%Q
  ∧ calculateAMMOutput pool_xrp_usd x1 true = Done y
  ∧ calculateAMMOutput pool_xrp_usd x2 true = Done y
  ∧ ¬ (decimal.toQ y == amm_formula 10000 15000 (decimal.toQ x1) 30)%Q.
Proof.
  cbv zeta. split.
  { unfold pool_valid. simpl. repeat split; try reflexivity; lia. }
  split; [reflexivity|]. split; [reflexivity|].
  split; [by vm_compute|]. split; [by vm_compute|].
  by vm_compute.
Qed.

(** ** Circuit breaker *)

Section breaker_facts.

Variable NewFromFloat : PrimFloat.float → decimal.Decimal.

Abbreviation CheckPrice := (CheckPrice NewFromFloat).
Abbreviation evaluate := (evaluate NewFromFloat).
Abbreviation check_all := (check_all NewFromFloat).
Abbreviation out_of_threshold := (out_of_threshold NewFromFloat).
Abbreviation effective_threshold := (effective_threshold NewFromFloat).

(** Writing a pair's state does not touch what the threshold is computed
    from. *)
Lemma effective_threshold_set_state cb key st now :
  effective_threshold (set_state cb key st) now = effective_threshold cb now.
Proof. reflexivity. Qed.

Lemma out_of_threshold_set_state cb key st0 st st' price now :
  recentPrices st' = recentPrices st →
  out_of_threshold cb st price now →
  out_of_threshold (set_state cb key st0) st' price now.
Proof. intros E (dev & Hd & Hg). exists dev. by rewrite E. Qed.

(** With no price on record the deviation cannot be computed: the mean is
    zero and the division panics.  ([CheckPrice] tests for the empty
    queue first.) *)
Lemma out_of_threshold_nonempty cb st price now :
  out_of_threshold cb st price now → recentPrices st ≠ [].
Proof.
  intros (dev & Hd & _) E. rewrite E in Hd.
  change (deviation [] price)
    with (d ← must (decimal.Div (decimal.Sub price decimal.Zero)
                      decimal.Zero);
          mret (decimal.Abs d) : exec _) in Hd.
  rewrite Div_by_zero in Hd by done. discriminate.
Qed.

Lemma length_nonempty {A} (l : list A) : l ≠ [] → (length l =? 0)%nat = false.
Proof. by destruct l. Qed.

Lemma evaluate_reject cb key st price now :
  out_of_threshold cb st price now →
  evaluate cb key st price now
  = Done (set_state cb key (rejected st now), Some ErrCircuitBreakerOpen).
Proof.
  intros Hout. pose proof (out_of_threshold_nonempty _ _ _ _ Hout) as Hne.
  destruct Hout as (dev & Hd & Hg).
  unfold evaluate. rewrite (length_nonempty _ Hne), Hd.
  cbn [mbind exec_bind]. rewrite Hg. unfold rejected.
  by destruct (DefaultFailureLimit <=? failures st + 1).
Qed.

Lemma CheckPrice_not_open cb pair_ st price now :
  states cb !! pair_ = Some st → state st ≠ StateOpen →
  CheckPrice cb pair_ price now = evaluate cb pair_ st price now.
Proof.
  intros Hst Hno. unfold CheckPrice, getOrCreateState. rewrite Hst.
  by rewrite bool_decide_eq_false_2.
Qed.

Lemma CheckPrice_reject cb pair_ st price now :
  states cb !! pair_ = Some st → state st ≠ StateOpen →
  out_of_threshold cb st price now →
  CheckPrice cb pair_ price now
  = Done (set_state cb pair_ (rejected st now), Some ErrCircuitBreakerOpen).
Proof.
  intros Hst Hno Hout.
  by rewrite (CheckPrice_not_open _ _ _ _ _ Hst Hno), evaluate_reject.
Qed.

Lemma CheckPrice_open_within cb pair_ st price now :
  states cb !! pair_ = Some st → state st = StateOpen →
  now - openedAt st <= 30 * Second →
  CheckPrice cb pair_ price now = Done (cb, Some ErrCircuitBreakerOpen).
Proof.
  intros Hst Ho Ht. unfold CheckPrice, getOrCreateState. rewrite Hst.
  rewrite bool_decide_eq_true_2 by done.
  by destruct (Z.ltb_spec (30 * Second) (now - openedAt st)); [lia|].
Qed.

Lemma CheckPrice_open_after cb pair_ st price now :
  states cb !! pair_ = Some st → state st = StateOpen →
  30 * Second < now - openedAt st →
  CheckPrice cb pair_ price now
  = evaluate (set_state cb pair_ (half_open_of st)) pair_ (half_open_of st)
      price now.
Proof.
  intros Hst Ho Ht. unfold CheckPrice, getOrCreateState. rewrite Hst.
  rewrite bool_decide_eq_true_2 by done.
  by destruct (Z.ltb_spec (30 * Second) (now - openedAt st)); [|lia].
Qed.

Lemma lookup_set_state cb key st :
  states (set_state cb key st) !! key = Some st.
Proof. apply lookup_insert_eq. Qed.

Lemma set_state_set_state cb key st st' :
  set_state (set_state cb key st) key st' = set_state cb key st'.
Proof. unfold set_state. simpl. by rewrite insert_insert_eq. Qed.

(** Rejections that stay below the limit only count. *)
Lemma rejected_below st now :
  failures st + 1 < DefaultFailureLimit →
  rejected st now
  = {| pair := pair st; recentPrices := recentPrices st;
       lastTradeTs := lastTradeTs st; state := state st;
       failures := failures st + 1; openedAt := openedAt st |}.
Proof.
  intros H. unfold rejected.
  by destruct (Z.leb_spec DefaultFailureLimit (failures st + 1)); [lia|].
Qed.

Lemma rejected_limit st now :
  DefaultFailureLimit <= failures st + 1 →
  state (rejected st now) = StateOpen ∧ openedAt (rejected st now) = now
  ∧ failures (rejected st now) = failures st + 1
  ∧ recentPrices (rejected st now) = recentPrices st.
Proof.
  intros H. unfold rejected.
  by destruct (Z.leb_spec DefaultFailureLimit (failures st + 1)); [|lia].
Qed.

(** A run of rejected checks that stays below the limit: every check
    answers [ErrCircuitBreakerOpen], the state keeps its name and the
    failures add up. *)
Lemma check_all_below calls : ∀ cb pair_ st,
  states cb !! pair_ = Some st → state st ≠ StateOpen →
  failures st + Z.of_nat (length calls) < DefaultFailureLimit →
  Forall (λ c, out_of_threshold cb st c.1 c.2) calls →
  ∃ st', check_all cb pair_ calls
         = Done (set_state cb pair_ st',
                 replicate (length calls) (Some ErrCircuitBreakerOpen))
         ∧ state st' = state st
         ∧ recentPrices st' = recentPrices st
         ∧ failures st' = failures st + Z.of_nat (length calls).
Proof.
  induction calls as [|[price now] calls IH]; intros cb pair_ st Hst Hno Hf Hall.
  - exists st. simpl. split; [|by rewrite Z.add_0_r].
    unfold mret, exec_ret. do 2 f_equal. unfold set_state.
    destruct cb; simpl in *. f_equal. by rewrite insert_id.
  - apply Forall_cons in Hall as [Hout Hall]. simpl in Hout.
    cbn [length] in Hf.
    cbn [check_all]. rewrite (CheckPrice_reject _ _ _ _ _ Hst Hno Hout).
    cbn [mbind exec_bind].
    rewrite rejected_below by lia.
    set (st1 := {| pair := pair st; recentPrices := recentPrices st;
                   lastTradeTs := lastTradeTs st; state := state st;
                   failures := failures st + 1; openedAt := openedAt st |}).
    destruct (IH (set_state cb pair_ st1) pair_ st1) as (st' & E & H1 & H2 & H3).
    + apply lookup_set_state.
    + done.
    + simpl. lia.
    + eapply Forall_impl; [exact Hall|]. intros [p t] H. simpl in *.
      by apply out_of_threshold_set_state with (st := st).
    + exists st'. rewrite E. cbn [mbind exec_bind].
      rewrite set_state_set_state. split; [done|].
      simpl in *. repeat split; try done. lia.
Qed.

Lemma check_all_app calls1 calls2 cb pair_ cb1 errs1 :
  check_all cb pair_ calls1 = Done (cb1, errs1) →
  check_all cb pair_ (calls1 ++ calls2)
  = ('(cb2, errs2) ← check_all cb1 pair_ calls2; mret (cb2, errs1 ++ errs2)).
Proof.
  revert cb cb1 errs1. induction calls1 as [|[price now] calls1 IH];
    intros cb cb1 errs1 H.
  - simpl in H. injection H as <- <-. simpl.
    by destruct (check_all cb pair_ calls2) as [[??]| |].
  - cbn [check_all app] in *.
    destruct (CheckPrice cb pair_ price now) as [[cb' err]| |]; try done.
    cbn [mbind exec_bind] in *.
    destruct (check_all cb' pair_ calls1) as [[cb'' errs]| |] eqn:E; try done.
    cbn [mbind exec_bind] in H. injection H as <- <-.
    rewrite (IH _ _ _ E).
    by destruct (check_all cb'' pair_ calls2) as [[??]| |].
Qed.

(** No loop: the deviation is computed or the division panics. *)
Lemma deviation_no_fuel prices price : deviation prices price ≠ OutOfFuel.
Proof.
  unfold deviation, calculateAverage.
  destruct (length prices =? 0)%nat; cbn [mbind exec_bind mret exec_ret].
  - by destruct (decimal.Div _ _).
  - destruct (decimal.Div _ _); [|done]. cbn [must mbind exec_bind].
    by destruct (decimal.Div _ _).
Qed.

(** The evaluation of a price from the half-open state with no failure
    counted decides as the evaluation from the closed state does. *)
Lemma evaluate_half_open_as_closed cb pair_ st price now :
  recentPrices st ≠ [] →
  same_verdict pair_
    (evaluate (set_state cb pair_ (half_open_of st)) pair_ (half_open_of st)
       price now)
    (evaluate (set_state cb pair_ (closed_of st)) pair_ (closed_of st)
       price now).
Proof.
  intros Hne. unfold evaluate. cbn [recentPrices half_open_of closed_of].
  rewrite (length_nonempty _ Hne), !effective_threshold_set_state.
  pose proof (deviation_no_fuel (recentPrices st) price) as Hnf.
  destruct (deviation (recentPrices st) price) as [dev| |]; try done.
  cbn [mbind exec_bind].
  destruct (decimal.GreaterThan dev (effective_threshold cb now)).
  - simpl. split; [done|]. rewrite !lookup_insert_eq.
    do 2 eexists. by repeat split.
  - simpl. split; [done|]. unfold recordPrice; simpl.
    destruct (persistCallback cb); simpl; rewrite !lookup_insert_eq;
      do 2 eexists; by repeat split.
Qed.

End breaker_facts.

(** C4. Breaker safety.  For a pair with state [st]:
    - from the closed state with [f < 5] failures counted, a run of
      [5 - f] consecutive out-of-threshold checks (five from a fresh
      count) is rejected throughout and leaves the state open, [openedAt]
      being the time of the last of them;
    - a check made while open and within 30 seconds of [openedAt] returns
      [ErrCircuitBreakerOpen] and changes nothing;
    - a check made while open and more than 30 seconds after [openedAt]
      is the check of the same breaker with the pair half-open and its
      failures reset to 0, and that check decides as it would from the
      closed state. *)
Theorem C4_breaker_safety
  (NewFromFloat : PrimFloat.float → decimal.Decimal)
  (cb : CircuitBreaker) (pair_ : string) (st : breakerState) :
  states cb !! pair_ = Some st →
  (state st = StateClosed → 0 <= failures st < DefaultFailureLimit →
   ∀ calls price now,
     length calls = Z.to_nat (DefaultFailureLimit - failures st - 1) →
     Forall (λ c, out_of_threshold NewFromFloat cb st c.1 c.2)
       (calls ++ [(price, now)]) →
     ∃ cb' st',
       check_all NewFromFloat cb pair_ (calls ++ [(price, now)])
       = Done (cb', replicate (S (length calls)) (Some ErrCircuitBreakerOpen))
       ∧ states cb' !! pair_ = Some st'
       ∧ state st' = StateOpen ∧ openedAt st' = now)
  ∧ (state st = StateOpen →
     ∀ price now, now - openedAt st <= 30 * Second →
       CheckPrice NewFromFloat cb pair_ price now
       = Done (cb, Some ErrCircuitBreakerOpen))
  ∧ (state st = StateOpen →
     ∀ price now, 30 * Second < now - openedAt st →
       CheckPrice NewFromFloat cb pair_ price now
       = CheckPrice NewFromFloat (set_state cb pair_ (half_open_of st)) pair_
           price now
       ∧ (recentPrices st ≠ [] →
          same_verdict pair_
            (CheckPrice NewFromFloat (set_state cb pair_ (half_open_of st))
               pair_ price now)
            (CheckPrice NewFromFloat (set_state cb pair_ (closed_of st))
               pair_ price now))).
Proof.
  intros Hst. split; [|split].
  - intros Hc Hf calls price now Hlen Hall.
    apply Forall_app in Hall as [Hall Hlast].
    rewrite Forall_singleton in Hlast. simpl in Hlast.
    destruct (check_all_below NewFromFloat calls cb pair_ st)
      as (st1 & E & H1 & H2 & H3); try done.
    { by rewrite Hc. }
    { rewrite Hlen. lia. }
    rewrite (check_all_app _ _ _ _ _ _ _ E). cbn [check_all].
    rewrite (CheckPrice_reject NewFromFloat _ _ st1 price now).
    + cbn [mbind exec_bind]. rewrite set_state_set_state.
      destruct (rejected_limit st1 now) as (R1 & R2 & _).
      { rewrite H3, Hlen. lia. }
      exists (set_state cb pair_ (rejected st1 now)), (rejected st1 now).
      split.
      { unfold mret, exec_ret. do 2 f_equal.
        replace (S (length calls)) with (length calls + 1)%nat by lia.
        by rewrite replicate_add. }
      split; [apply lookup_set_state|]. by split.
    + apply lookup_set_state.
    + by rewrite H1, Hc.
    + by apply out_of_threshold_set_state with (st := st).
  - intros Ho price now Ht. by apply CheckPrice_open_within with (st := st).
  - intros Ho price now Ht.
    rewrite (CheckPrice_open_after NewFromFloat _ _ _ _ _ Hst Ho Ht).
    rewrite (CheckPrice_not_open NewFromFloat _ _ (half_open_of st))
      by (done || apply lookup_set_state).
    split; [done|]. intros Hne.
    rewrite (CheckPrice_not_open NewFromFloat _ _ (closed_of st))
      by (done || apply lookup_set_state).
    by apply evaluate_half_open_as_closed.
Qed.

(** Scenario 6: primed at price 1.0, five checks at 1.20 are rejected and
    open the breaker. *)
Lemma C4_breaker_safety_witness :
  ∃ cb' st',
    check_all NewFromFloat_0_05 (breaker_with (primed StateClosed 0)) "XRP-USD"
      (replicate 4 (price_1_2, 7) ++ [(price_1_2, 9)])
    = Done (cb', replicate 5 (Some ErrCircuitBreakerOpen))
    ∧ states cb' !! "XRP-USD" = Some st'
    ∧ state st' = StateOpen ∧ openedAt st' = 9.
Proof.
  assert (states (breaker_with (primed StateClosed 0)) !! "XRP-USD"
          = Some (primed StateClosed 0)) as Hst by (vm_compute; reflexivity).
  destruct (C4_breaker_safety NewFromFloat_0_05 _ _ _ Hst) as (Ha & _ & _).
  apply Ha.
  - reflexivity.
  - simpl. unfold DefaultFailureLimit. lia.
  - reflexivity.
  - cbn [replicate app].
    repeat (apply Forall_cons; split); try apply List.Forall_nil;
      (exists (decimal.New 2000000000000000 (-16));
       split; vm_compute; reflexivity).
Defined.

(** C5 (as amended). In the half-open state with prices on record, an
    out-of-threshold check is rejected with [ErrCircuitBreakerOpen] and
    counts one more failure; the state becomes open, [openedAt] being the
    time of the check, when that count reaches 5, as it does from the
    closed state, and stays half-open below 5. *)
Theorem C5_half_open_rejection
  (NewFromFloat : PrimFloat.float → decimal.Decimal)
  (cb : CircuitBreaker) (pair_ : string) (st : breakerState)
  (price : decimal.Decimal) (now : Z) :
  states cb !! pair_ = Some st →
  state st = StateHalfOpen →
  recentPrices st ≠ [] →
  out_of_threshold NewFromFloat cb st price now →
  ∃ cb' st',
    CheckPrice NewFromFloat cb pair_ price now
    = Done (cb', Some ErrCircuitBreakerOpen)
    ∧ states cb' !! pair_ = Some st'
    ∧ recentPrices st' = recentPrices st
    ∧ failures st' = failures st + 1
    ∧ (DefaultFailureLimit <= failures st + 1 →
       state st' = StateOpen ∧ openedAt st' = now)
    ∧ (failures st + 1 < DefaultFailureLimit →
       state st' = StateHalfOpen ∧ openedAt st' = openedAt st).
Proof.
  intros Hst Hh _ Hout.
  exists (set_state cb pair_ (rejected st now)), (rejected st now).
  split.
  { apply CheckPrice_reject; try done. by rewrite Hh. }
  split; [apply lookup_set_state|].
  unfold rejected.
  destruct (Z.leb_spec DefaultFailureLimit (failures st + 1)); simpl;
    repeat split; try done; lia.
Qed.

Lemma C5_half_open_rejection_witness :
  ∃ cb' st',
    CheckPrice NewFromFloat_0_05 (breaker_with (primed StateHalfOpen 4))
      "XRP-USD" price_1_2 77
    = Done (cb', Some ErrCircuitBreakerOpen)
    ∧ states cb' !! "XRP-USD" = Some st'
    ∧ state st' = StateOpen ∧ openedAt st' = 77.
Proof.
  destruct (C5_half_open_rejection NewFromFloat_0_05
              (breaker_with (primed StateHalfOpen 4)) "XRP-USD"
              (primed StateHalfOpen 4) price_1_2 77)
    as (cb' & st' & H1 & H2 & _ & _ & H3 & _).
  - vm_compute; reflexivity.
  - reflexivity.
  - discriminate.
  - exists (decimal.New 2000000000000000 (-16)). split; vm_compute; reflexivity.
  - exists cb', st'. split; [exact H1|]. split; [exact H2|].
    apply H3. vm_compute. discriminate.
Defined.

(** C5 as stated fails.  The pair is half-open with one failure counted
    (what a rejected first check after the recovery window leaves); a
    further check at 1.20 against a mean of 1.0 is out of threshold, is
    rejected, and leaves the pair half-open, not open. *)
Lemma C5_counterexample :
  let cb := breaker_with (primed StateHalfOpen 1) in
  states cb !! "XRP-USD" = Some (primed StateHalfOpen 1)
  ∧ out_of_threshold NewFromFloat_0_05 cb (primed StateHalfOpen 1) price_1_2 77
  ∧ ∃ cb', CheckPrice NewFromFloat_0_05 cb "XRP-USD" price_1_2 77
           = Done (cb', Some ErrCircuitBreakerOpen)
           ∧ GetState cb' "XRP-USD" = StateHalfOpen
           ∧ GetState cb' "XRP-USD" ≠ StateOpen.
Proof.
  cbv zeta. split; [vm_compute; reflexivity|]. split.
  { exists (decimal.New 2000000000000000 (-16)). split; vm_compute; reflexivity. }
  eexists. split; [vm_compute; reflexivity|].
  split; [vm_compute; reflexivity|]. vm_compute. discriminate.
Qed.

(** C10. In the closed state with prices on record, an out-of-threshold
    check returns [ErrCircuitBreakerOpen] although the state stays closed
    (as long as the failures counted, this one included, are below 5); the
    rejected price is not appended to the recent prices. *)
Theorem C10_closed_rejection
  (NewFromFloat : PrimFloat.float → decimal.Decimal)
  (cb : CircuitBreaker) (pair_ : string) (st : breakerState)
  (price : decimal.Decimal) (now : Z) :
  states cb !! pair_ = Some st →
  state st = StateClosed →
  recentPrices st ≠ [] →
  out_of_threshold NewFromFloat cb st price now →
  failures st + 1 < DefaultFailureLimit →
  ∃ cb' st',
    CheckPrice NewFromFloat cb pair_ price now
    = Done (cb', Some ErrCircuitBreakerOpen)
    ∧ states cb' !! pair_ = Some st'
    ∧ state st' = StateClosed
    ∧ recentPrices st' = recentPrices st
    ∧ failures st' = failures st + 1.
Proof.
  intros Hst Hc _ Hout Hf.
  exists (set_state cb pair_ (rejected st now)), (rejected st now).
  split.
  { apply CheckPrice_reject; try done. by rewrite Hc. }
  split; [apply lookup_set_state|].
  by rewrite rejected_below.
Qed.

Lemma C10_closed_rejection_witness :
  ∃ cb' st',
    CheckPrice NewFromFloat_0_05 (breaker_with (primed StateClosed 0))
      "XRP-USD" price_1_2 77
    = Done (cb', Some ErrCircuitBreakerOpen)
    ∧ states cb' !! "XRP-USD" = Some st'
    ∧ state st' = StateClosed
    ∧ recentPrices st' = [price_1_0; price_1_0]
    ∧ failures st' = 1.
Proof.
  apply (C10_closed_rejection NewFromFloat_0_05
           (breaker_with (primed StateClosed 0)) "XRP-USD"
           (primed StateClosed 0) price_1_2 77).
  - vm_compute; reflexivity.
  - reflexivity.
  - discriminate.
  - exists (decimal.New 2000000000000000 (-16)). split; vm_compute; reflexivity.
  - vm_compute. reflexivity.
Defined.

(** ** Decimal literals *)

Section literal_facts.

Import literal.

(** *** Strings *)

Lemma append_empty (s : string) : "" +:+ s = s.
Proof. reflexivity. Qed.

Lemma append_String c (s t : string) : String c s +:+ t = String c (s +:+ t).
Proof. reflexivity. Qed.

Lemma str_app_nil_r (s : string) : s +:+ "" = s.
Proof. induction s as [|c s IH]; [done|]. by rewrite append_String, IH. Qed.

Lemma str_app_assoc (s t u : string) : (s +:+ t) +:+ u = s +:+ t +:+ u.
Proof.
  induction s as [|c s IH]; [done|]. by rewrite !append_String, IH.
Qed.




Lemma rev_app_spec (s : string) : ∀ acc,
  String.rev_app s acc = String.rev s +:+ acc.
Proof.
  unfold String.rev. induction s as [|c s IH]; intros acc; [done|].
  cbn [String.rev_app]. rewrite IH, (IH (String c "")), str_app_assoc.
  by rewrite append_String, append_empty.
Qed.

Lemma rev_String c (s : string) :
  String.rev (String c s) = String.rev s +:+ String c "".
Proof. unfold String.rev at 1. cbn [String.rev_app]. apply rev_app_spec. Qed.

Lemma rev_app (s t : string) :
  String.rev (s +:+ t) = String.rev t +:+ String.rev s.
Proof.
  induction s as [|c s IH].
  - by rewrite append_empty, str_app_nil_r.
  - by rewrite append_String, !rev_String, IH, str_app_assoc.
Qed.




(** *** Digits *)



Lemma digit_range c d : digit c = Some d → 0 <= d <= 9.
Proof.
  unfold digit. cbv zeta.
  destruct (_ && _) eqn:E; [|done]. intros [= <-]. lia.
Qed.

Lemma number_nonneg (s : string) : ∀ acc m,
  0 <= acc → number s acc = Some m → acc <= m.
Proof.
  induction s as [|c s IH]; intros acc m Ha; cbn [number].
  { intros [= <-]. lia. }
  destruct (digit c) as [d|] eqn:E; [|done].
  apply digit_range in E. intros H%IH; lia.
Qed.









(** *** Literals *)






End literal_facts.

Section literal_of_decimal.

Import literal.





Local Open Scope Q_scope.






End literal_of_decimal.

(** ** Quote hash *)

Section hash_facts.

Variable escape : string → string.
Variable toValidUTF8 : string → string.
Variable formatFloat : Z → string.




Lemma plain_app (s t : string) : plain (s +:+ t) = plain s && plain t.
Proof.
  induction s as [|c s IH]; [done|]. rewrite append_String. cbn [plain].
  by rewrite IH, andb_assoc.
Qed.





Lemma upper_or_digit_plain c : validator_spec.is_upper_or_digit c = true → plain_char c = true.
Proof. destruct c as [[] [] [] [] [] [] [] []]; by vm_compute. Qed.

Lemma base58_plain c : validator_spec.is_base58 c = true → plain_char c = true.
Proof. destruct c as [[] [] [] [] [] [] [] []]; by vm_compute. Qed.

Lemma all_chars_plain (p : ascii → bool) (s : string) :
  (∀ c, p c = true → plain_char c = true) →
  validator_spec.all_chars p s = true → plain s = true.
Proof.
  intros Hp. unfold validator_spec.all_chars.
  induction s as [|c s IH]; [done|]. cbn [list_ascii_of_string forallb plain].
  intros [Hc Hs]%andb_true_iff. by rewrite (Hp c Hc), IH.
Qed.

(** The assets of the data model have a plain canonical form: the
    native asset, and a currency code with an address as issuer. *)
Lemma data_model_asset_plain a :
  (Currency a = "XRP" ∧ Issuer a = "")
  ∨ (validator_spec.currency_pattern (Currency a) = true
     ∧ validator_spec.address_pattern (Issuer a) = true) →
  plain (canonical_form a) = true.
Proof.
  unfold canonical_form. intros [[Hc ->]|[Hc Hi]].
  { by rewrite Hc. }
  unfold validator_spec.currency_pattern in Hc. apply andb_true_iff in Hc as [_ Hc].
  apply (all_chars_plain _ _ upper_or_digit_plain) in Hc.
  destruct (Issuer a) as [|c r] eqn:E; [done|].
  cbn [validator_spec.address_pattern] in Hi.
  apply andb_true_iff in Hi as [Hi Hr]. apply andb_true_iff in Hi as [Hi _].
  apply andb_true_iff in Hi as [Hi _]. apply Ascii.eqb_eq in Hi as ->.
  apply (all_chars_plain _ _ base58_plain) in Hr.
  rewrite plain_app, Hc, append_String, append_empty. cbn [plain].
  by rewrite Hr.
Qed.





End hash_facts.




(** ** KV store *)

Section kv_facts.

Import kv kv_spec.

(** *** Sums of sizes *)

Lemma total_bytes_empty : total_bytes ∅ = 0.
Proof. apply map_fold_empty. Qed.

Lemma total_bytes_insert (d : gmap string entry) k e :
d !! k = None → total_bytes (<[k := e]> d) = size_bytes e + total_bytes d.
Proof.
intros H. unfold total_bytes.
apply (map_fold_insert_L (λ _ e acc, size_bytes e + acc)); [|done].
intros. lia.
Qed.

Lemma total_bytes_delete (d : gmap string entry) k e :
d !! k = Some e → total_bytes d = size_bytes e + total_bytes (delete k d).
Proof.
intros H. unfold total_bytes.
apply (map_fold_delete_L (λ _ e acc, size_bytes e + acc)); [|done].
intros. lia.
Qed.

Lemma total_bytes_nonneg (d : gmap string entry) :
(∀ k e, d !! k = Some e → 0 <= size_bytes e) → 0 <= total_bytes d.
Proof.
induction d as [|k e d Hk IH] using map_ind; intros H.
- by rewrite total_bytes_empty.
- rewrite total_bytes_insert by done.
  assert (0 <= size_bytes e) by (apply (H k); apply lookup_insert_eq).
  assert (0 <= total_bytes d); [|lia].
  apply IH. intros k' e' H'. apply (H k').
  rewrite lookup_insert_ne; [done|]. intros ->. congruence.
Qed.

(** *** The LRU list *)

Lemma lru_functional (l : List) id k1 k2 :
NoDup l.*1 → (id, k1) ∈ l → (id, k2) ∈ l → k1 = k2.
Proof.
induction l as [|[i k] l IH]; intros Hnd H1 H2.
- by apply elem_of_nil in H1.
- apply NoDup_cons in Hnd as [Hni Hnd]. csimpl in *.
  apply elem_of_cons in H1 as [H1|H1], H2 as [H2|H2].
  + congruence.
  + injection H1 as -> ->. exfalso. apply Hni.
    apply list_elem_of_fmap. by exists (i, k2).
  + injection H2 as -> ->. exfalso. apply Hni.
    apply list_elem_of_fmap. by exists (i, k1).
  + by apply IH.
Qed.

Lemma elem_of_Remove (l : List) e x : x ∈ Remove l e ↔ x.1 ≠ e ∧ x ∈ l.
Proof. unfold Remove. by rewrite list_elem_of_filter. Qed.

Lemma NoDup_Remove (l : List) e : NoDup l.*1 → NoDup (Remove l e).*1.
Proof.
intros H. eapply sublist_NoDup; [exact H|].
apply fmap_sublist. unfold Remove. apply sublist_filter.
Qed.

Lemma Remove_absent (l : List) e : (∀ k, (e, k) ∉ l) → Remove l e = l.
Proof.
intros H. induction l as [|[i k] l IH]; [done|].
unfold Remove in *. rewrite filter_cons. simpl.
destruct (decide (i ≠ e)) as [Hne|Heq].
- f_equal. apply IH. intros k' Hk'. apply (H k'). by right.
- exfalso. apply (H k). apply dec_stable in Heq as ->. by left.
Qed.

Lemma elem_of_MoveToFront (l : List) e x :
NoDup l.*1 → x ∈ MoveToFront l e ↔ x ∈ l.
Proof.
intros Hnd. unfold MoveToFront.
destruct (list_find _ l) as [[i y]|] eqn:E; [|done].
apply list_find_Some in E as (Hy & Hey & _).
apply list_elem_of_lookup_2 in Hy. simpl in Hey.
rewrite elem_of_cons, elem_of_Remove. split.
- intros [->|[_ H]]; done.
- intros Hx. destruct (decide (x.1 = e)) as [Hxe|Hxe]; [left|by right].
  destruct x as [xi xk], y as [yi yk]. simpl in *. subst.
  f_equal. by eapply lru_functional.
Qed.

Lemma NoDup_MoveToFront (l : List) e : NoDup l.*1 → NoDup (MoveToFront l e).*1.
Proof.
intros Hnd. unfold MoveToFront.
destruct (list_find _ l) as [[i y]|] eqn:E; [|done].
apply list_find_Some in E as (Hy & Hey & _). simpl in Hey.
csimpl. apply NoDup_cons. split; [|by apply NoDup_Remove].
intros Hin. apply list_elem_of_fmap in Hin as ([i' k'] & Hi & Hin).
apply elem_of_Remove in Hin as [Hne _]. simpl in *. congruence.
Qed.

End kv_facts.
Section kv_inv.

Import kv kv_spec.

(** *** The invariant through the helpers *)

Lemma Inv_nonneg s : Inv s → 0 <= currentBytes s.
Proof.
intros [Hb _ Hs _ _ _]. rewrite Hb. by apply total_bytes_nonneg.
Qed.

Lemma Inv_counters s s' :
data s' = data s → lru s' = lru s → lruAlloc s' = lruAlloc s →
maxBytes s' = maxBytes s → currentBytes s' = currentBytes s →
Inv s → Inv s'.
Proof.
intros E1 E2 E3 E4 E5 [H1 H2 H3 H4 H5 H6].
split; rewrite ?E1, ?E2, ?E3, ?E4, ?E5; done.
Qed.

Lemma Inv_fresh maxBytes_ maxKeyLength_ maxValueSize_ :
0 <= maxBytes_ →
Inv (NewMemoryStoreWithConfig maxBytes_ maxKeyLength_ maxValueSize_).
Proof.
intros H. split; simpl.
- by rewrite total_bytes_empty.
- done.
- intros k e. by rewrite lookup_empty.
- constructor.
- intros id k. split.
  + intros Hin. by apply elem_of_nil in Hin.
  + intros (e & He & _). by rewrite lookup_empty in He.
- intros id k Hin. by apply elem_of_nil in Hin.
Qed.

Lemma hide_absent k s : data s !! k = None → hide k s = s.
Proof.
intros H. destruct s. unfold hide, with_data. simpl in *.
f_equal. by apply delete_id.
Qed.

Lemma Inv_deleteEntryLocked s k e :
Inv s → data s !! k = Some e → Inv (deleteEntryLocked s k e).
Proof.
intros [Hb Hm Hs Hn Hl Ha] He.
assert (0 <= size_bytes e) by by apply (Hs k).
split; simpl.
- rewrite Hb, (total_bytes_delete _ _ _ He). lia.
- lia.
- intros k' e' H'. apply lookup_delete_Some in H' as [_ H']. by apply (Hs k').
- by apply NoDup_Remove.
- intros id k'. rewrite elem_of_Remove, Hl. simpl. split.
  + intros (Hne & e' & He' & Hid). exists e'. split; [|done].
    apply lookup_delete_Some. split; [|done]. intros ->. congruence.
  + intros (e' & He' & Hid). apply lookup_delete_Some in He' as [Hk He'].
    split; [|by exists e']. intros Heq. apply Hk.
    apply (lru_functional (lru s) (lruNode e)); [done| |].
    * apply Hl. by exists e.
    * apply Hl. exists e'. split; [done|congruence].
- intros id k' Hin. apply elem_of_Remove in Hin as [_ Hin]. by apply (Ha id k').
Qed.

(** Eviction under a hidden key: the entry at the back of the list is
  never the hidden one. *)
Lemma evictOldest_hidden k s :
Inv (hide k s) →
match evictOldest s with
| (s', true) =>
    Inv (hide k s') ∧ (size (data s') < size (data s))%nat
    ∧ data s' !! k = data s !! k ∧ maxBytes s' = maxBytes s
| (s', false) => s' = s
end.
Proof.
intros HI. unfold evictOldest, Back.
destruct (last (lru s)) as [[id k']|] eqn:El; [|done].
assert ((id, k') ∈ lru (hide k s)) as Hin.
{ simpl. by apply last_Some_elem_of. }
apply (inv_lru _ HI) in Hin as (e & He & Hid). simpl in He.
apply lookup_delete_Some in He as [Hne He]. rewrite He.
split; [|split; [|split]].
- apply Inv_counters with (s := deleteEntryLocked (hide k s) k' e);
    simpl; try done.
  + apply delete_delete.
  + apply Inv_deleteEntryLocked; [done|]. simpl.
    by apply lookup_delete_Some.
- simpl. rewrite map_size_delete, He. 
  assert (size (data s) ≠ 0%nat); [|lia].
  apply map_size_non_empty_iff. intros E. by rewrite E, lookup_empty in He.
- simpl. by rewrite lookup_delete_ne.
- done.
Qed.

Lemma evict_loop_hidden k entrySize fuel : ∀ s,
Inv (hide k s) → (size (data s) < fuel)%nat →
∃ s' room,
  evict_loop fuel s entrySize = Done (s', room)
  ∧ Inv (hide k s') ∧ data s' !! k = data s !! k
  ∧ maxBytes s' = maxBytes s
  ∧ (room = true → currentBytes s' + entrySize <= maxBytes s').
Proof.
induction fuel as [|fuel IH]; intros s HI Hf; [lia|].
cbn [evict_loop].
destruct (Z.ltb_spec (maxBytes s) (currentBytes s + entrySize)) as [Hlt|Hge].
- pose proof (evictOldest_hidden k s HI) as He.
  destruct (evictOldest s) as [s1 [|]].
  + destruct He as (HI1 & Hsz & Hk & Hm).
    destruct (IH s1 HI1 ltac:(lia)) as (s' & room & E & HI' & Hk' & Hm' & Hr).
    exists s', room. split; [exact E|]. split; [done|].
    split; [congruence|]. split; [congruence|done].
  + subst s1. exists s, false. by split_and!.
- exists s, true. split_and!; try done.
Qed.

(** The loop never runs out of the fuel [setLocked] gives it, whatever
  the store. *)
Lemma evict_loop_total entrySize fuel : ∀ s,
(size (data s) < fuel)%nat → evict_loop fuel s entrySize ≠ OutOfFuel.
Proof.
induction fuel as [|fuel IH]; intros s Hf; [lia|].
cbn [evict_loop].
destruct (maxBytes s <? currentBytes s + entrySize); [|done].
unfold evictOldest.
destruct (Back (lru s)) as [[id k']|]; [|done].
destruct (data s !! k') as [e|] eqn:He; [|done].
apply IH. simpl. rewrite map_size_delete, He.
assert (size (data s) ≠ 0%nat); [|lia].
apply map_size_non_empty_iff. intros E. by rewrite E, lookup_empty in He.
Qed.

Lemma len_nonneg s : 0 <= len s.
Proof. unfold len. lia. Qed.

(** [setLocked] keeps the invariant when it succeeds, and when it fails
  without having had an entry to write over. *)
Lemma setLocked_Inv s ns k v ttl now :
Inv s →
∃ s' err,
  setLocked s ns k v ttl now = Done (s', err)
  ∧ (err = None ∨ err = Some ErrMemoryLimit)
  ∧ maxBytes s' = maxBytes s
  ∧ (err = None → Inv s')
  ∧ (data s !! makeKey ns k = None → Inv s').
Proof.
intros HI. unfold setLocked.
set (K := makeKey ns k). set (entrySize := len K + len v + 64).
set (s1 := match data s !! K with
           | Some existing =>
               with_lru (add_currentBytes s (- size_bytes existing))
                 (Remove (lru (add_currentBytes s (- size_bytes existing)))
                    (lruNode existing))
           | None => s
           end).
assert (Inv (hide K s1) ∧ data s1 = data s ∧ maxBytes s1 = maxBytes s)
  as (HI1 & Hd1 & Hm1).
{ unfold s1. destruct (data s !! K) as [ex|] eqn:Ex.
  - split; [|done].
    change (Inv (deleteEntryLocked s K ex)). by apply Inv_deleteEntryLocked.
  - by rewrite hide_absent. }
destruct (evict_loop_hidden K entrySize (S (size (data s1))) s1 HI1 ltac:(lia))
  as (s2 & room & E & HI2 & Hk2 & Hm2 & Hr).
rewrite E. cbn [mbind exec_bind].
destruct room; cbn [negb].
- (* room was made: the entry goes in *)
  eexists _, None. split; [reflexivity|]. split; [by left|].
  split; [simpl; congruence|].
  assert (Inv (add_currentBytes
    {| data := <[K := {| namespace := ns; key := k; value := v;
                         expiresAt := if 0 <? ttl then Some (now + ttl)
                                      else None;
                         size_bytes := entrySize; lruNode := lruAlloc s2 |}]>
                 (data s2);
       lru := (lruAlloc s2, K) :: lru s2; lruAlloc := S (lruAlloc s2);
       maxBytes := maxBytes s2; currentBytes := currentBytes s2;
       maxKeyLength := maxKeyLength s2; maxValueSize := maxValueSize s2;
       evictions := evictions s2; hits := hits s2; misses := misses s2 |}
    entrySize)) as HI3; [|by split].
  destruct HI2 as [Hb Hm Hs Hn Hl Ha]. simpl in *.
  pose proof (len_nonneg K). pose proof (len_nonneg v).
  split; simpl.
  + rewrite <- insert_delete_eq, total_bytes_insert by apply lookup_delete_eq.
    simpl. lia.
  + by apply Hr.
  + intros k' e' H'. apply lookup_insert_Some in H' as [[_ <-]|[Hne H']].
    * simpl. unfold entrySize. lia.
    * apply (Hs k'). by apply lookup_delete_Some.
  + apply NoDup_cons. split; [|done].
    intros Hin. apply list_elem_of_fmap in Hin as ([id k'] & Hid & Hin).
    simpl in Hid. subst id. apply Ha in Hin. lia.
  + intros id k'. rewrite elem_of_cons, Hl. split.
    * intros [[= -> ->]|(e' & He' & Hid)].
      -- eexists. split; [apply lookup_insert_eq|done].
      -- apply lookup_delete_Some in He' as [Hne He'].
         exists e'. split; [|done]. by rewrite lookup_insert_ne.
    * intros (e' & He' & Hid).
      apply lookup_insert_Some in He' as [[<- <-]|[Hne He']].
      -- left. by rewrite <- Hid.
      -- right. exists e'. split; [|done]. by apply lookup_delete_Some.
  + intros id k' Hin. apply elem_of_cons in Hin as [[= -> ->]|Hin]; [lia|].
    apply Ha in Hin. lia.
- (* no room: [ErrMemoryLimit] *)
  eexists _, _. split; [reflexivity|]. split; [by right|].
  split; [congruence|]. split; [done|].
  intros Hnone. rewrite <- (hide_absent K s2); [done|]. congruence.
Qed.

Lemma evict_loop_no_panic entrySize fuel : ∀ s,
evict_loop fuel s entrySize ≠ Panic.
Proof.
induction fuel as [|fuel IH]; intros s; [done|].
cbn [evict_loop]. destruct (maxBytes s <? _); [|done].
destruct (evictOldest s) as [s1 [|]]; [apply IH|done].
Qed.

(** [setLocked] always returns. *)
Lemma setLocked_total s ns k v ttl now :
∃ r, setLocked s ns k v ttl now = Done r.
Proof.
unfold setLocked.
match goal with |- context [evict_loop ?f ?s ?z] =>
  pose proof (evict_loop_total z f s) as H1;
  pose proof (evict_loop_no_panic z f s) as H2;
  destruct (evict_loop f s z) as [[s' room]| |] eqn:E
end.
- cbn [mbind exec_bind]. destruct room; eauto.
- done.
- exfalso. apply H1; [|done]. destruct (data s !! makeKey ns k); simpl; lia.
Qed.

End kv_inv.
Section kv_ops.

Import kv kv_spec.

(** *** The invariant through the operations *)

Lemma Get_Inv s ns k now :
Inv s → Inv (Get s ns k now).1 ∧ maxBytes (Get s ns k now).1 = maxBytes s.
Proof.
intros HI. unfold Get.
destruct (String.eqb ns "" || String.eqb k "").
{ split; [|done]. by apply Inv_counters with (s := s). }
destruct (data s !! makeKey ns k) as [e|] eqn:He.
2:{ split; [|done]. by apply Inv_counters with (s := s). }
destruct (expired e now).
- split; [|done].
  apply Inv_counters with (s := deleteEntryLocked s (makeKey ns k) e);
    try done.
  by apply Inv_deleteEntryLocked.
- split; [|done]. destruct HI as [Hb Hm Hs Hn Hl Ha].
  split; simpl; try done.
  + by apply NoDup_MoveToFront.
  + intros id k'. by rewrite elem_of_MoveToFront.
  + intros id k' Hin. apply elem_of_MoveToFront in Hin; [|done].
    by apply (Ha id k').
Qed.

Lemma Delete_Inv s ns k :
Inv s → Inv (Delete s ns k).1 ∧ maxBytes (Delete s ns k).1 = maxBytes s.
Proof.
intros HI. unfold Delete.
destruct (String.eqb ns "" || String.eqb k ""); [done|].
destruct (data s !! makeKey ns k) as [e|] eqn:He; [|done].
split; [|done]. by apply Inv_deleteEntryLocked.
Qed.

Lemma cleanup_Inv s now :
Inv s → Inv (cleanup s now) ∧ maxBytes (cleanup s now) = maxBytes s.
Proof.
unfold cleanup. generalize (map fst (map_to_list
  (filter (λ kv : string * entry, expired kv.2 now = true) (data s)))).
intros keys. revert s. induction keys as [|k keys IH]; intros s HI; [done|].
cbn [foldl]. destruct (data s !! k) as [e|] eqn:He.
- destruct (IH (deleteEntryLocked s k e)) as [H1 H2].
  { by apply Inv_deleteEntryLocked. }
  by split.
- by apply IH.
Qed.

Lemma Set_Inv s ns k v ttl now :
Inv s →
∃ s' err,
  Set_ s ns k v ttl now = Done (s', err)
  ∧ maxBytes s' = maxBytes s
  ∧ (¬ (is_Some (data s !! makeKey ns k) ∧ err = Some ErrMemoryLimit) →
     Inv s').
Proof.
intros HI. unfold Set_.
destruct (validate s ns k v) as [err|]; [by exists s, (Some err)|].
destruct (checkNamespaceQuota s ns now) as [err|]; [by exists s, (Some err)|].
destruct (setLocked_Inv s ns k v ttl now HI)
  as (s' & err & E & Herr & Hm & H1 & H2).
exists s', err. split; [done|]. split; [done|].
intros Hno. destruct Herr as [->| ->]; [by apply H1|].
apply H2. destruct (data s !! makeKey ns k) eqn:Ek; [|done].
exfalso. apply Hno. by split.
Qed.

Lemma IncrementRateLimit_Inv s p ttl now :
Inv s →
∃ s' n err,
  IncrementRateLimit s p ttl now = Done (s', (n, err))
  ∧ maxBytes s' = maxBytes s
  ∧ (¬ (overwrites s now (OpIncrementRateLimit p ttl) = true
        ∧ err = Some ErrMemoryLimit) → Inv s').
Proof.
intros HI. unfold IncrementRateLimit, overwrites.
destruct (String.eqb p ""); [by exists s, 0, (Some ErrKeyEmpty)|].
set (K := makeKey NamespaceRateLimits p).
assert (∀ s0, Inv s0 → data s0 !! K = None → maxBytes s0 = maxBytes s →
  ∃ s' n err,
    ('(s1, err) ← setLocked s0 NamespaceRateLimits p "1" ttl now;
     match err with
     | Some err => mret (s1, (0, Some err))
     | None => mret (s1, (1, None))
     end) = Done (s', (n, err))
    ∧ maxBytes s' = maxBytes s ∧ Inv s') as Hfresh.
{ intros s0 HI0 Hk0 Hm0.
  destruct (setLocked_Inv s0 NamespaceRateLimits p "1" ttl now HI0)
    as (s' & err & E & Herr & Hm & H1 & H2).
  rewrite E. cbn [mbind exec_bind].
  destruct err as [err|]; eexists _, _, _;
    (split; [reflexivity|]); (split; [congruence|]); by apply H2. }
destruct (data s !! K) as [e|] eqn:He.
2:{ destruct (Hfresh s HI He eq_refl) as (s' & n & err & E & Hm & HI').
    by exists s', n, err. }
destruct (expired e now) eqn:Hexp.
{ destruct (Hfresh (deleteEntryLocked s K e)) as (s' & n & err & E & Hm & HI').
  - by apply Inv_deleteEntryLocked.
  - simpl. apply lookup_delete_eq.
  - done.
  - by exists s', n, err. }
destruct (ParseInt (value e)) as [count|].
2:{ by exists s, 0, (Some ErrInvalidCounter). }
destruct (setLocked_Inv s NamespaceRateLimits p (pretty (incr64 count))
            ttl now HI) as (s' & err & E & Herr & Hm & H1 & H2).
rewrite E. cbn [mbind exec_bind].
destruct Herr as [->| ->]; eexists _, _, _;
  (split; [reflexivity|]); (split; [done|]); intros Hno.
- by apply H1.
- exfalso. by apply Hno.
Qed.

Lemma step_Inv s now o :
Inv s →
∃ s' err,
  step s now o = Done (s', err)
  ∧ maxBytes s' = maxBytes s
  ∧ (¬ (overwrites s now o = true ∧ err = Some ErrMemoryLimit) → Inv s').
Proof.
intros HI. destruct o as [ns k|ns k v ttl|ns k|p ttl|]; cbn [step].
- destruct (Get_Inv s ns k now HI) as [H1 H2].
  eexists _, _. split; [reflexivity|]. by split.
- destruct (Set_Inv s ns k v ttl now HI) as (s' & err & E & Hm & H).
  exists s', err. split; [done|]. split; [done|].
  intros Hno. apply H. intros [Hs He]. apply Hno. split; [|done].
  simpl. by apply bool_decide_eq_true.
- destruct (Delete_Inv s ns k HI) as [H1 H2].
  destruct (Delete s ns k) as [s' err]. exists s', err. by split.
- destruct (IncrementRateLimit_Inv s p ttl now HI)
    as (s' & n & err & E & Hm & H).
  rewrite E. cbn [mbind exec_bind]. by exists s', err.
- destruct (cleanup_Inv s now HI) as [H1 H2].
  eexists _, _. split; [reflexivity|]. by split.
Qed.

Lemma run_Inv ops : ∀ s,
Inv s → no_failed_overwrite s ops →
∃ s', run s ops = Done s' ∧ Inv s' ∧ maxBytes s' = maxBytes s.
Proof.
induction ops as [|[now o] ops IH]; intros s HI Hno.
- by exists s.
- cbn [run no_failed_overwrite] in *.
  destruct (step_Inv s now o HI) as (s1 & err & E & Hm & H).
  rewrite E in *. cbn [mbind exec_bind]. destruct Hno as [Hno1 Hno].
  destruct (IH s1 (H Hno1) Hno) as (s' & E' & HI' & Hm').
  exists s'. split; [done|]. split; [done|congruence].
Qed.

End kv_ops.

(** C6 (as amended). In every store state reached from a fresh store with
    a non-negative byte budget by a sequence of Get, Set, Delete,
    IncrementRateLimit and cleanup operations in which no write over an
    existing entry fails with MemoryLimit, [0 <= current_bytes <=
    max_bytes] and [current_bytes] is the sum of the recorded sizes of all
    the entries the store holds, the expired ones that no Get,
    IncrementRateLimit or cleanup has purged yet included. *)
Theorem C6_bytes_accounting
  (maxBytes_ maxKeyLength_ maxValueSize_ : Z) (ops : list (Z * kv.op)) :
  0 <= maxBytes_ →
  kv_spec.no_failed_overwrite
    (kv.NewMemoryStoreWithConfig maxBytes_ maxKeyLength_ maxValueSize_) ops →
  ∃ s,
    kv.run (kv.NewMemoryStoreWithConfig maxBytes_ maxKeyLength_ maxValueSize_)
      ops = Done s
    ∧ 0 <= kv.currentBytes s <= maxBytes_
    ∧ kv.currentBytes s = kv_spec.total_bytes (kv.data s).
Proof.
  intros Hm Hno.
  destruct (run_Inv ops _ (Inv_fresh _ maxKeyLength_ maxValueSize_ Hm) Hno)
    as (s & E & HI & Hmax).
  exists s. split; [done|]. simpl in Hmax.
  pose proof (Inv_nonneg s HI). destruct HI as [Hb Hbound _ _ _ _].
  split; [lia|done].
Qed.

Lemma C6_bytes_accounting_witness :
  ∃ s,
    kv.run kv_examples.small kv_examples.lru_scenario = Done s
    ∧ 0 <= kv.currentBytes s <= 500
    ∧ kv.currentBytes s = kv_spec.total_bytes (kv.data s).
Proof.
  apply (C6_bytes_accounting 500 256 200 kv_examples.lru_scenario).
  - lia.
  - vm_compute. repeat split; intros [H1 H2]; discriminate.
Defined.

(** C6 as stated fails where expiry is lazy: an entry set at time 0 with
    a ttl of 10 is still held and counted at time 20, when no Get can
    return it any more. *)
Lemma C6_counterexample :
  ∃ s,
    kv.run kv_examples.small [(0, kv.OpSet "test" "k" "v" 10)] = Done s
    ∧ (kv.Get s "test" "k" 20).2 = None
    ∧ kv_spec.live (kv.data s) 20 = ∅
    ∧ kv_spec.total_bytes (kv_spec.live (kv.data s) 20) = 0
    ∧ kv.currentBytes s = 71.
Proof.
  eexists. split; [vm_compute; reflexivity|].
  split; [vm_compute; reflexivity|].
  split; [by vm_compute|]. split; by vm_compute.
Qed.

(** The accounting slip that the amended C6 leaves aside.  [Set] takes the
    old entry's bytes off the counter and its node off the list before it
    knows that the new entry fits; when it then fails with
    [ErrMemoryLimit] the old entry is still in the map.  A [Get] returns
    it, the counter no longer covers it, and deleting it takes its bytes
    off a second time: [currentBytes] is negative. *)
Lemma kv_failed_overwrite_slip :
  ∃ s1 s2 s3,
    kv.Set_ kv_examples.tiny "n" "k" "" 0 0 = Done (s1, None)
    ∧ kv.currentBytes s1 = 67
    ∧ kv.Set_ s1 "n" "k" kv_examples.value40 0 1
      = Done (s2, Some ErrMemoryLimit)
    ∧ (kv.Get s2 "n" "k" 2).2 = Some ""
    ∧ kv.currentBytes s2 = 0
    ∧ kv.Delete s2 "n" "k" = (s3, None)
    ∧ kv.currentBytes s3 = -67.
Proof.
  do 3 eexists. split; [vm_compute; reflexivity|].
  split; [reflexivity|]. split; [vm_compute; reflexivity|].
  split; [vm_compute; reflexivity|]. split; [reflexivity|].
  split; [vm_compute; reflexivity|]. reflexivity.
Qed.

Section quota.

Import kv.

(** [Set] asks [checkNamespaceQuota] before it looks the key up: in a
  namespace at its quota every [Set] with valid arguments is refused,
  whether or not the key is there. *)
Lemma Set_at_quota s ns k v ttl now quota :
validate s ns k v = None →
namespaceQuotas !! ns = Some quota →
quota <= live_count s ns now →
Set_ s ns k v ttl now = Done (s, Some ErrNamespaceQuota).
Proof.
intros Hv Hq Hc. unfold Set_, checkNamespaceQuota. rewrite Hv, Hq.
by destruct (Z.leb_spec quota (live_count s ns now)); [|lia].
Qed.

End quota.

(** C7, on the failing input. The [system] namespace holds its 128 live
    keys, 0 among them with the value v; a [Set] with valid arguments on
    the key 0 is refused with [ErrNamespaceQuota] (and, by [Set_at_quota],
    the store is left as it was). *)
Theorem C7_overwrite_refused_at_quota :
  (s ← kv_examples.system_full;
   '(_, err) ← kv.Set_ s kv.NamespaceSystem "0" "w" 0 0;
   mret (kv.live_count s kv.NamespaceSystem 0,
         kv.value <$> kv.data s !! kv.makeKey kv.NamespaceSystem "0",
         kv.validate s kv.NamespaceSystem "0" "w",
         err))
  = Done (128, Some "v", None, Some ErrNamespaceQuota).
Proof. vm_compute. reflexivity. Qed.

(** ** Priority queue *)

Section heap_facts.

Import heap.
Local Open Scope nat_scope.

(** *** Index arithmetic *)

Lemma parent_cases (j i : nat) :
  0 < j → (j - 1) / 2 = i → j = 2 * i + 1 ∨ j = 2 * i + 2.
Proof.
  intros H E. pose proof (Nat.div_mod_eq (j - 1) 2) as D.
  pose proof (Nat.mod_upper_bound (j - 1) 2 ltac:(lia)). lia.
Qed.

Lemma parent_left (i : nat) : (2 * i + 1 - 1) / 2 = i.
Proof.
  replace (2 * i + 1 - 1) with (i * 2) by lia. apply Nat.div_mul. lia.
Qed.

Lemma parent_right (i : nat) : (2 * i + 2 - 1) / 2 = i.
Proof.
  replace (2 * i + 2 - 1) with (1 + i * 2) by lia.
  rewrite Nat.div_add by lia. reflexivity.
Qed.

Lemma parent_lt (j : nat) : 0 < j → (j - 1) / 2 < j.
Proof. intros. pose proof (Nat.div_mod_eq (j - 1) 2). lia. Qed.

Lemma parent_0 : (0 - 1) / 2 = 0.
Proof. reflexivity. Qed.

(** *** [Swap] and [Less] *)

Lemma Swap_lookup (h : list node) i j a b k :
  h !! i = Some a → h !! j = Some b →
  Swap h i j !! k
  = if decide (k = j) then Some a
    else if decide (k = i) then Some b else h !! k.
Proof.
  intros Hi Hj. unfold Swap. rewrite Hi, Hj.
  pose proof (lookup_lt_Some _ _ _ Hi). pose proof (lookup_lt_Some _ _ _ Hj).
  rewrite !list_lookup_insert, !length_insert.
  repeat case_decide; try done; lia.
Qed.

Lemma Swap_length (h : list node) i j : length (Swap h i j) = length h.
Proof.
  unfold Swap. destruct (h !! i), (h !! j); try done.
  by rewrite !length_insert.
Qed.

Lemma Swap_perm (h : list node) i j : Swap h i j ≡ₚ h.
Proof.
  unfold Swap. destruct (h !! i) eqn:Hi, (h !! j) eqn:Hj; try done.
  by apply Permutation_insert_swap.
Qed.

Lemma Less_spec (h : list node) i j a b :
  h !! i = Some a → h !! j = Some b →
  Less h i j = true ↔ (node_key a < node_key b)%Q.
Proof.
  intros Hi Hj. unfold Less. rewrite Hi, Hj. apply LessThan_toQ.
Qed.

Lemma Less_false (h : list node) i j a b :
  h !! i = Some a → h !! j = Some b →
  Less h i j = false ↔ (node_key b <= node_key a)%Q.
Proof.
  intros Hi Hj. rewrite <- not_true_iff_false, (Less_spec h i j a b Hi Hj).
  split; [apply Qnot_lt_le | apply Qle_not_lt].
Qed.

(** *** Lengths and contents *)

Lemma up_loop_length fuel : ∀ h j, length (up_loop fuel h j) = length h.
Proof.
  induction fuel as [|fuel IH]; intros h j; [done|]. cbn [up_loop].
  destruct (_ || _); [done|]. by rewrite IH, Swap_length.
Qed.

Lemma up_loop_perm fuel : ∀ h j, up_loop fuel h j ≡ₚ h.
Proof.
  induction fuel as [|fuel IH]; intros h j; [done|]. cbn [up_loop].
  destruct (_ || _); [done|]. by rewrite IH, Swap_perm.
Qed.

Lemma down_loop_length fuel : ∀ h i n, length (down_loop fuel h i n) = length h.
Proof.
  induction fuel as [|fuel IH]; intros h i n; [done|]. cbn [down_loop].
  destruct (n <=? 2 * i + 1); [done|].
  destruct (negb _); [done|]. by rewrite IH, Swap_length.
Qed.

Lemma down_loop_perm fuel : ∀ h i n, down_loop fuel h i n ≡ₚ h.
Proof.
  induction fuel as [|fuel IH]; intros h i n; [done|]. cbn [down_loop].
  destruct (n <=? 2 * i + 1); [done|].
  destruct (negb _); [done|]. by rewrite IH, Swap_perm.
Qed.

(** [down] leaves the slots from [n] on alone. *)
Lemma down_loop_beyond fuel : ∀ h i n k,
  i < n → n <= k → down_loop fuel h i n !! k = h !! k.
Proof.
  induction fuel as [|fuel IH]; intros h i n k Hi Hk; [done|].
  cbn [down_loop].
  destruct (Nat.leb_spec n (2 * i + 1)); [done|].
  set (j := if _ && _ then _ else _).
  assert (j < n) as Hj.
  { unfold j. destruct (Nat.ltb_spec (2 * i + 1 + 1) n); simpl; [|lia].
    destruct (Less h _ _); lia. }
  destruct (negb _); [done|].
  rewrite IH by lia. unfold Swap.
  destruct (h !! i) eqn:E1, (h !! j) eqn:E2; try done.
  rewrite !list_lookup_insert_ne by lia. done.
Qed.

Lemma Push_length h x : length (Push h x) = S (length h).
Proof.
  unfold Push, up. rewrite up_loop_length, length_app. simpl. lia.
Qed.

Lemma Push_perm h x : Push h x ≡ₚ x :: h.
Proof.
  unfold Push, up. rewrite up_loop_perm. by rewrite Permutation_app_comm.
Qed.

(** [Pop] returns exactly when the queue is not empty. *)
Lemma Pop_None h : Pop h = None ↔ h = [].
Proof.
  unfold Pop, down, Len. split.
  - destruct (last _) eqn:E; [done|]. intros _.
    apply last_None in E. apply (f_equal length) in E.
    rewrite down_loop_length, Swap_length in E. by destruct h.
  - by intros ->.
Qed.

Lemma Pop_perm h x h' : Pop h = Some (x, h') → h ≡ₚ x :: h'.
Proof.
  unfold Pop, down, Len. set (n := length h - 1). set (h1 := down_loop _ _ _ _).
  destruct (last h1) as [y|] eqn:E; [|done]. intros [= -> <-].
  assert (length h1 = length h) as Hlen.
  { unfold h1. by rewrite down_loop_length, Swap_length. }
  assert (h1 ≡ₚ h) as <-.
  { unfold h1. by rewrite down_loop_perm, Swap_perm. }
  apply last_Some in E as [l' ->].
  rewrite length_app in Hlen. simpl in Hlen.
  replace n with (length l') by lia.
  rewrite take_app_length. by rewrite Permutation_app_comm.
Qed.

Lemma Pop_length h x h' : Pop h = Some (x, h') → length h = S (length h').
Proof. intros H. apply Pop_perm in H. by rewrite H. Qed.

End heap_facts.
Section heap_order.

Import heap.
Local Open Scope nat_scope.

Lemma kat_Some h j x : h !! j = Some x → kat h j = node_key x.
Proof. unfold kat. by intros ->. Qed.

Lemma heap_ok_on h : heap_ok h ↔ heap_on h (length h).
Proof.
  split.
  - intros H j Hj.
    destruct (lookup_lt_is_Some_2 h j ltac:(lia)) as [b Hb].
    pose proof (parent_lt j ltac:(lia)).
    destruct (lookup_lt_is_Some_2 h ((j - 1) / 2) ltac:(lia)) as [a Ha].
    rewrite (kat_Some _ _ _ Ha), (kat_Some _ _ _ Hb). apply (H j); [lia|done..].
  - intros H j a b Hj Hb Ha.
    rewrite <- (kat_Some _ _ _ Ha), <- (kat_Some _ _ _ Hb). apply H.
    apply lookup_lt_Some in Hb. lia.
Qed.

Lemma kat_Swap h i j k :
  i < length h → j < length h →
  kat (Swap h i j) k
  = if decide (k = j) then kat h i
    else if decide (k = i) then kat h j else kat h k.
Proof.
  intros Hi Hj.
  destruct (lookup_lt_is_Some_2 h i Hi) as [a Ha].
  destruct (lookup_lt_is_Some_2 h j Hj) as [b Hb].
  unfold kat at 1. rewrite (Swap_lookup h i j a b k Ha Hb).
  rewrite (kat_Some _ _ _ Ha), (kat_Some _ _ _ Hb).
  repeat case_decide; done.
Qed.

Lemma Less_kat h i j :
  i < length h → j < length h →
  Less h i j = true ↔ (kat h i < kat h j)%Q.
Proof.
  intros Hi Hj.
  destruct (lookup_lt_is_Some_2 h i Hi) as [a Ha].
  destruct (lookup_lt_is_Some_2 h j Hj) as [b Hb].
  rewrite (kat_Some _ _ _ Ha), (kat_Some _ _ _ Hb). by apply Less_spec.
Qed.

Lemma Less_kat_false h i j :
  i < length h → j < length h →
  Less h i j = false ↔ (kat h j <= kat h i)%Q.
Proof.
  intros Hi Hj. rewrite <- not_true_iff_false, (Less_kat h i j Hi Hj).
  split; [apply Qnot_lt_le | apply Qle_not_lt].
Qed.

(** *** [up] restores the order after a push *)

Lemma up_loop_heap fuel : ∀ h k,
  k < fuel → k < length h → up_inv h k → heap_ok (up_loop fuel h k).
Proof.
  induction fuel as [|fuel IH]; intros h k Hf Hk [U1 U2]; [lia|].
  cbn [up_loop]. set (i := (k - 1) / 2).
  destruct (Nat.eqb_spec i k) as [E|E]; simpl.
  { apply heap_ok_on. intros j Hj. apply U1; [done|].
    intros ->. pose proof (parent_lt k). lia. }
  assert (0 < k) as Hk0.
  { destruct k; [|lia]. by destruct E. }
  pose proof (parent_lt k Hk0) as Hik. fold i in Hik.
  destruct (Less h k i) eqn:EL; simpl.
  2: { apply Less_kat_false in EL; [|lia..].
    apply heap_ok_on. intros j Hj.
    destruct (decide (j = k)) as [->|]; [done|]. by apply U1. }
  apply Less_kat in EL; [|lia..].
  apply IH; [lia| rewrite Swap_length; lia |].
  split; rewrite Swap_length.
  - intros j Hj Hji. rewrite !kat_Swap by lia.
    pose proof (parent_lt j ltac:(lia)).
    repeat case_decide; try subst j; try lia.
    + apply U2; [done..|lia].
    + apply Qlt_le_weak, EL.
    + pose proof (U1 j Hj ltac:(done)) as Hpj.
      replace ((j - 1) / 2) with i in Hpj by done.
      eapply Qle_trans; [apply Qlt_le_weak, EL | apply Hpj].
    + by apply U1.
  - intros j Hj Hp Hi0. rewrite !kat_Swap by lia.
    pose proof (parent_lt i Hi0).
    pose proof (U1 i ltac:(lia) ltac:(lia)) as Hpi.
    pose proof (parent_lt j ltac:(lia)).
    repeat case_decide; try subst j; try lia.
    + done.
    + eapply Qle_trans; [apply Hpi|]. rewrite <- Hp. by apply U1.
Qed.

(** Pushing an entry keeps the order. *)
Lemma Push_heap h x : heap_ok h → heap_ok (Push h x).
Proof.
  intros H. unfold Push, up, Len.
  rewrite length_app; cbn [length].
  replace (length h + 1 - 1) with (length h) by lia.
  apply up_loop_heap; [lia | rewrite length_app; cbn [length]; lia |].
  apply heap_ok_on in H.
  assert (∀ j, j < length h → kat (h ++ [x]) j = kat h j) as Hkat.
  { intros j Hj. unfold kat. by rewrite lookup_app_l. }
  split; rewrite length_app; cbn [length].
  - intros j Hj Hne. pose proof (parent_lt j ltac:(lia)).
    rewrite !Hkat by lia. apply H. lia.
  - intros j Hj Hp Hk. pose proof (parent_lt j ltac:(lia)). lia.
Qed.

End heap_order.
Section heap_down.

Import heap.
Local Open Scope nat_scope.

(** *** [down] restores the order after the root was replaced *)

Lemma down_loop_heap fuel : ∀ h i n,
  n <= length h → n - i <= fuel → down_inv h i n →
  heap_on (down_loop fuel h i n) n.
Proof.
  induction fuel as [|fuel IH]; intros h i n Hn Hf [D1 D2].
  { intros j Hj. apply D1; [done|]. pose proof (parent_lt j). lia. }
  cbn [down_loop].
  destruct (Nat.leb_spec n (2 * i + 1)) as [Hc|Hc].
  { intros j Hj. apply D1; [done|]. intros E.
    destruct (parent_cases j i ltac:(lia) E); lia. }
  set (j := if _ && _ then _ else _).
  assert ((j = 2 * i + 1 ∨ j = 2 * i + 2) ∧ j < n ∧
          ∀ c, 0 < c < n → (c - 1) / 2 = i → (kat h j <= kat h c)%Q)
    as ([Hj|Hj] & Hjn & Hmin).
  { unfold j. destruct (Nat.ltb_spec (2 * i + 1 + 1) n) as [H2|H2]; cbn [andb].
    - destruct (Less h _ _) eqn:EL.
      + apply Less_kat in EL; [|lia..].
        split_and!; [right; lia | lia |]. intros c Hc0 Hp.
        destruct (parent_cases c i ltac:(lia) Hp) as [->| ->].
        * replace (2 * i + 1 + 1) with (2 * i + 2) in * by lia.
          by apply Qlt_le_weak.
        * replace (2 * i + 1 + 1) with (2 * i + 2) by lia. apply Qle_refl.
      + apply Less_kat_false in EL; [|lia..].
        split_and!; [left; lia | lia |]. intros c Hc0 Hp.
        destruct (parent_cases c i ltac:(lia) Hp) as [->| ->].
        * apply Qle_refl.
        * by replace (2 * i + 1 + 1) with (2 * i + 2) in * by lia.
    - split_and!; [left; lia | lia |]. intros c Hc0 Hp.
      destruct (parent_cases c i ltac:(lia) Hp) as [->| ->]; [apply Qle_refl | lia]. }
  all: assert ((j - 1) / 2 = i) as Hpj
    by (rewrite Hj; first [apply parent_left | apply parent_right]).
  all: assert (i < j) as Hij by lia.
  all: clearbody j.
  all: destruct (Less h j i) eqn:EL; cbn [negb].
  all: try (apply Less_kat_false in EL; [|lia..]; intros c Hc0;
    destruct (decide ((c - 1) / 2 = i)) as [E|E];
    [ rewrite E; eapply Qle_trans; [apply EL | by apply Hmin]
    | by apply D1 ]).
  all: apply Less_kat in EL; [|lia..].
  all: apply IH; [by rewrite Swap_length | lia |].
  all: split; [intros c Hc0 Hp | intros c Hc0 Hp _].
  all: rewrite !kat_Swap by lia.
  all: pose proof (parent_lt c ltac:(lia)).
  all: repeat case_decide; try subst c; try lia.
  all: first
    [ apply Qlt_le_weak, EL
    | apply Hmin; [lia | done]
    | apply D2; [lia | done | lia]
    | apply D1; [lia | done]
    | rewrite <- Hp; apply D1; [lia | lia] ].
Qed.

End heap_down.
Section heap_pop.

Import heap.
Local Open Scope nat_scope.

(** The root of a heap is a cheapest entry. *)
Lemma root_min h n : heap_on h n → ∀ j, j < n → (kat h 0 <= kat h j)%Q.
Proof.
  intros H j. induction (lt_wf j) as [j _ IH]. intros Hj.
  destruct (decide (j = 0)) as [->|]; [apply Qle_refl|].
  pose proof (parent_lt j ltac:(lia)).
  eapply Qle_trans; [apply (IH ((j - 1) / 2)); lia | apply H; lia].
Qed.

Lemma heap_ok_min h x y :
  heap_ok h → h !! 0 = Some x → y ∈ h → (node_key x <= node_key y)%Q.
Proof.
  intros H Hx [j Hy]%list_elem_of_lookup.
  rewrite <- (kat_Some _ _ _ Hx), <- (kat_Some _ _ _ Hy).
  apply heap_ok_on in H. apply (root_min _ _ H).
  by apply lookup_lt_Some in Hy.
Qed.

(** [Pop] removes the root, and what stays is a heap again. *)
Lemma Pop_root h x h' :
  heap_ok h → Pop h = Some (x, h') → h !! 0 = Some x ∧ heap_ok h'.
Proof.
  intros H HP.
  assert (h ≠ []) as Hne. { intros ->. done. }
  assert (0 < length h) as Hlen. { destruct h; [done|simpl; lia]. }
  revert HP. unfold Pop, down, Len. set (n := length h - 1).
  destruct (lookup_lt_is_Some_2 h 0 Hlen) as [a Ha].
  destruct (lookup_lt_is_Some_2 h n ltac:(lia)) as [b Hb].
  set (h1 := Swap h 0 n). set (h2 := down_loop n h1 0 n).
  assert (length h2 = length h) as Hlen2.
  { unfold h2, h1. by rewrite down_loop_length, Swap_length. }
  assert (h2 !! n = Some a) as Hlast.
  { assert (h1 !! n = Some a) as H1.
    { unfold h1. rewrite (Swap_lookup h 0 n a b n Ha Hb).
      by rewrite decide_True. }
    unfold h2. destruct (decide (n = 0)) as [E|E].
    - by rewrite E in *.
    - rewrite down_loop_beyond by lia. done. }
  rewrite last_lookup, Hlen2.
  replace (pred (length h)) with n by lia. rewrite Hlast.
  intros [= <- <-]. split; [done|].
  apply heap_ok_on. rewrite length_take, Hlen2.
  replace (n `min` length h) with n by lia.
  assert (heap_on h2 n) as Hon.
  { apply down_loop_heap; [unfold h1; rewrite Swap_length; lia | lia |].
    apply heap_ok_on in H. split.
    - intros j Hj Hp. unfold h1. rewrite !kat_Swap by lia.
      pose proof (parent_lt j ltac:(lia)).
      repeat case_decide; try lia. apply H. lia.
    - intros; lia. }
  intros j Hj. pose proof (parent_lt j ltac:(lia)).
  unfold kat. rewrite !lookup_take_lt by lia. by apply Hon.
Qed.

(** Every pop returns a cheapest entry of the queue: the order of the
    pops is the order of the costs, and nothing else. *)
Lemma Pop_min h x h' y :
  heap_ok h → Pop h = Some (x, h') → y ∈ h →
  (node_key x <= node_key y)%Q.
Proof.
  intros H HP Hy. destruct (Pop_root h x h' H HP) as [Hx _].
  by apply (heap_ok_min h x y).
Qed.

Lemma heap_ok_nil : heap_ok [].
Proof. intros j a b _ Hb. done. Qed.

End heap_pop.

(** ** Canonical strings name assets *)

Section canonical_strings.

Import validator_spec.

Lemma dotless_String c s :
  dotless (String c s) = negb (Ascii.eqb c ".") && dotless s.
Proof. reflexivity. Qed.

Lemma dotless_split c1 : ∀ c2 i1 i2,
  dotless c1 = true → dotless c2 = true →
  c1 +:+ "." +:+ i1 = c2 +:+ "." +:+ i2 → c1 = c2 ∧ i1 = i2.
Proof.
  induction c1 as [|x c1 IH]; intros [|y c2] i1 i2 H1 H2;
    rewrite ?append_empty, ?append_String, ?append_empty.
  - by intros [= ->].
  - intros [= <- _]. by rewrite dotless_String in H2.
  - intros [= -> _]. by rewrite dotless_String in H1.
  - intros [= -> E]. rewrite dotless_String in H1, H2.
    apply andb_true_iff in H1 as [_ H1]. apply andb_true_iff in H2 as [_ H2].
    destruct (IH _ _ _ H1 H2 E) as [-> ->]. done.
Qed.

Lemma dotless_whole s : ∀ c i, dotless s = true → s ≠ c +:+ "." +:+ i.
Proof.
  induction s as [|x s IH]; intros [|y c] i H;
    rewrite ?append_empty, ?append_String, ?append_empty; try done.
  - intros [= -> _]. by rewrite dotless_String in H.
  - intros [= -> E]. rewrite dotless_String in H.
    apply andb_true_iff in H as [_ H]. by apply (IH c i).
Qed.

Lemma currency_dotless s :
  all_chars is_upper_or_digit s = true → dotless s = true.
Proof.
  unfold all_chars, dotless. rewrite !forallb_forall. intros H c Hc.
  specialize (H c Hc). destruct (Ascii.eqb_spec c ".") as [->|]; done.
Qed.

Lemma ValidateAsset_dotless a :
  ValidateAsset a = None → dotless (Currency a) = true.
Proof.
  unfold ValidateAsset.
  destruct (String.eqb (Currency a) ""); [done|].
  destruct (String.eqb_spec (Currency a) "XRP") as [->|_]; [done|].
  destruct (regexp.MatchString currencyRegex (Currency a)) eqn:E; [|done].
  intros _. rewrite currencyRegex_spec in E. unfold currency_pattern in E.
  apply andb_true_iff in E as [_ E]. by apply currency_dotless.
Qed.

(** On assets the validator admits, the canonical string tells the
    asset: equal strings, equal assets. *)
Lemma Asset_String_inj a b :
  ValidateAsset a = None → ValidateAsset b = None →
  Asset_String a = Asset_String b → a = b.
Proof.
  intros Ha%ValidateAsset_dotless Hb%ValidateAsset_dotless.
  destruct a as [ca ia], b as [cb ib]. unfold Asset_String. simpl in *.
  destruct (String.eqb_spec ia "") as [->|Hia],
           (String.eqb_spec ib "") as [->|Hib].
  - by intros ->.
  - intros E. by apply dotless_whole in E.
  - intros E. symmetry in E. by apply dotless_whole in E.
  - intros E. by destruct (dotless_split _ _ _ _ Ha Hb E) as [-> ->].
Qed.

End canonical_strings.

(** An asset the validator admits is named. *)
Lemma ValidateAsset_named a : ValidateAsset a = None → named a.
Proof.
  unfold ValidateAsset, named, Asset_String.
  destruct (String.eqb_spec (Currency a) "") as [|Hc]; [done|].
  intros _. destruct (String.eqb (Issuer a) ""); [done|].
  destruct (Currency a); [done|]. done.
Qed.

(** An asset of the data model, native or with an issuer, is named. *)
Lemma data_model_asset_named a :
  (Issuer a = "" → Currency a = "XRP") → named a.
Proof.
  unfold named, Asset_String. intros H.
  destruct (String.eqb_spec (Issuer a) "") as [E|E].
  - by rewrite (H E).
  - destruct (Currency a); simpl; [|done].
    destruct (Issuer a); done.
Qed.

(** ** Pathfinder: the search *)

Section search_facts.

Import heap.

Lemma Asset_String_eta a :
  Asset_String {| Currency := Currency a; Issuer := Issuer a |}
  = Asset_String a.
Proof. by destruct a. Qed.

(** *** Every node of the graph is named *)

Lemma graph_append_named g k e :
  graph_named g → to e ≠ "" → graph_named (graph_append g k e).
Proof.
  intros Hg He k' es e'. unfold graph_append.
  destruct (decide (k = k')) as [->|Hk].
  - rewrite lookup_insert_eq. intros [= <-] [Hin| ->%list_elem_of_singleton]%elem_of_app;
      [|done].
    destruct (g !! k') as [es|] eqn:E; simpl in Hin.
    + by apply (Hg k' es).
    + by apply elem_of_nil in Hin.
  - rewrite lookup_insert_ne by done. apply Hg.
Qed.

Lemma buildGraph_pools_named ps : ∀ i g g',
  Forall (λ p, named (Asset1 p) ∧ named (Asset2 p)) ps →
  graph_named g → buildGraph_pools ps i g = Done g' → graph_named g'.
Proof.
  induction ps as [|p ps IH]; intros i g g' Hps Hg; cbn [buildGraph_pools].
  - by intros [= <-].
  - apply Forall_cons in Hps as [[H1 H2] Hps].
    rewrite feeMultiplier_spec. cbn [mbind exec_bind].
    apply IH; [done|]. rewrite !Asset_String_eta.
    by repeat apply graph_append_named.
Qed.

Lemma buildGraph_offers_named os : ∀ i g,
  Forall (λ o, named (TakerPays o) ∧ named (TakerGets o)) os →
  graph_named g → graph_named (buildGraph_offers os i g).
Proof.
  induction os as [|o os IH]; intros i g Hos Hg; cbn [buildGraph_offers];
    [done|].
  apply Forall_cons in Hos as [[H1 H2] Hos].
  apply IH; [done|]. by apply graph_append_named.
Qed.

Lemma buildGraph_named pf graph :
  snapshot_named pf → buildGraph pf = Done graph → graph_named graph.
Proof.
  intros [Hp Ho]. unfold buildGraph.
  destruct (buildGraph_pools _ _ _) as [g| |] eqn:E; cbn; [|done..].
  intros [= <-]. apply buildGraph_offers_named; [done|].
  apply (buildGraph_pools_named _ _ _ _ Hp) in E; [done|].
  intros k es e Hk. by rewrite lookup_empty in Hk.
Qed.

(** [buildGraph] does not panic: the fee divisor is 10000. *)
Lemma buildGraph_pools_Done ps : ∀ i g, ∃ g', buildGraph_pools ps i g = Done g'.
Proof.
  induction ps as [|p ps IH]; intros i g; cbn [buildGraph_pools].
  - by eexists.
  - rewrite feeMultiplier_spec. cbn [mbind exec_bind]. apply IH.
Qed.

Lemma buildGraph_Done pf : ∃ graph, buildGraph pf = Done graph.
Proof.
  unfold buildGraph.
  destruct (buildGraph_pools_Done (pools pf) 0 ∅) as [g ->]. by eexists.
Qed.

(** *** The search keeps its invariant *)

Lemma reached_insert start prev0 x k v :
  reached start prev0 x → reached start (<[k := v]> prev0) x.
Proof.
  intros [->|H]; [by left|right].
  destruct (decide (k = x)) as [->|].
  - by rewrite lookup_insert_eq.
  - by rewrite lookup_insert_ne.
Qed.

Lemma relax_reached start current st e x :
  reached start (prev st) x → reached start (prev (relax current st e)) x.
Proof.
  unfold relax. destruct (is_visited _ _); [done|].
  destruct (decimal.LessThan _ _); [|done]. simpl. apply reached_insert.
Qed.

Lemma relax_inv start current st e :
  search_inv start st → to e ≠ "" →
  reached start (prev st) (asset current) →
  search_inv start (relax current st e).
Proof.
  intros [Hprev Hpq Hheap] He Hc. unfold relax.
  destruct (is_visited _ _); [done|].
  destruct (decimal.LessThan _ _); [|done].
  split; simpl.
  - intros x y. destruct (decide (to e = x)) as [<-|Hx].
    + rewrite lookup_insert_eq. intros [= <-].
      split; [done|]. by apply reached_insert.
    + rewrite lookup_insert_ne by done. intros Hxy.
      destruct (Hprev x y Hxy). split; [done|]. by apply reached_insert.
  - intros nd. rewrite Push_perm. intros [->|Hnd]%elem_of_cons; simpl.
    + right. by rewrite lookup_insert_eq.
    + by apply reached_insert, Hpq.
  - by apply Push_heap.
Qed.

Lemma relax_all_inv start current es : ∀ st,
  search_inv start st → Forall (λ e, to e ≠ "") es →
  reached start (prev st) (asset current) →
  search_inv start (foldl (relax current) st es).
Proof.
  induction es as [|e es IH]; intros st Hst Hes Hc; [done|].
  apply Forall_cons in Hes as [He Hes]. simpl.
  apply IH; [by apply relax_inv | done | by apply relax_reached].
Qed.

Lemma graph_named_edges graph k :
  graph_named graph → Forall (λ e, to e ≠ "") (default [] (graph !! k)).
Proof.
  intros Hg. destruct (graph !! k) as [es|] eqn:E; simpl; [|done].
  apply Forall_forall. intros e. by apply (Hg k es).
Qed.

Lemma dijkstra_loop_inv start graph end_ fuel : ∀ st st',
  graph_named graph → search_inv start st →
  dijkstra_loop fuel graph end_ st = Done st' → search_inv start st'.
Proof.
  induction fuel as [|fuel IH]; intros st st' Hg Hst; [done|].
  cbn [dijkstra_loop].
  destruct (Len (pq st) =? 0)%nat; [by intros [= <-]|].
  destruct (Pop (pq st)) as [[current pq']|] eqn:EP; [|by intros [= <-]].
  destruct Hst as [Hprev Hpq Hheap].
  pose proof (Pop_perm _ _ _ EP) as Hperm.
  destruct (Pop_root _ _ _ Hheap EP) as [_ Hheap'].
  assert (reached start (prev st) (asset current)) as Hc.
  { apply Hpq. rewrite Hperm. by left. }
  assert (∀ nd, nd ∈ pq' → reached start (prev st) (asset nd)) as Hpq'.
  { intros nd Hnd. apply Hpq. rewrite Hperm. by right. }
  cbn [visited prev dist pq].
  destruct (is_visited _ _).
  { apply IH; [done|]. by split. }
  destruct (String.eqb _ _).
  { intros [= <-]. by split. }
  apply IH; [done|].
  apply relax_all_inv; [by split | by apply graph_named_edges | done].
Qed.

(** *** Walking back from the end reaches the start *)

Lemma walk_back_start start prev0 fuel : ∀ at_ acc path,
  start ≠ "" →
  (∀ x y, prev0 !! x = Some y → x ≠ "" ∧ reached start prev0 y) →
  reached start prev0 at_ →
  walk_back fuel prev0 start at_ acc = Done path →
  ∃ pre, path = pre ++ at_ :: acc ∧ head (pre ++ [at_]) = Some start.
Proof.
  induction fuel as [|fuel IH]; intros at_ acc path Hs Hprev Hat; [done|].
  cbn [walk_back].
  assert (at_ ≠ "") as Hne.
  { destruct Hat as [->|[y Hy]]; [done|]. by destruct (Hprev _ _ Hy). }
  destruct (String.eqb_spec at_ "") as [|_]; [done|].
  destruct (String.eqb_spec at_ start) as [->|Hns].
  { intros [= <-]. by exists []. }
  destruct Hat as [->|[y Hy]]; [done|]. rewrite Hy. simpl.
  intros Hw. destruct (Hprev _ _ Hy) as [_ Hr].
  destruct (IH _ _ _ Hs Hprev Hr Hw) as (pre & -> & Hhd).
  exists (pre ++ [y]). split; [by rewrite <- app_assoc|].
  destruct pre; simpl in *; done.
Qed.

Lemma dijkstra_path graph start end_ path c :
  start ≠ "" → graph_named graph →
  dijkstra graph start end_ = Done (Some path, c) →
  head path = Some start ∧ last path = Some end_.
Proof.
  intros Hs Hg. unfold dijkstra.
  destruct (dijkstra_loop _ _ _ _) as [st| |] eqn:EL; cbn; [|done..].
  apply (dijkstra_loop_inv start) in EL; [|done|]; cycle 1.
  { split; cbn [prev pq].
    - intros x y. by rewrite lookup_empty.
    - intros nd. rewrite Push_perm. intros ->%list_elem_of_singleton. by left.
    - apply Push_heap, heap_ok_nil. }
  destruct EL as [Hprev _ _].
  destruct (negb (bool_decide _) && _) eqn:EC; [done|].
  assert (reached start (prev st) end_) as Hr.
  { apply andb_false_iff in EC as [EC|EC].
    - right. apply negb_false_iff in EC. by apply bool_decide_eq_true in EC.
    - left. apply negb_false_iff in EC. symmetry. by apply String.eqb_eq. }
  destruct (walk_back _ _ _ _ _) as [p| |] eqn:EW; cbn; [|done..].
  intros [= <- <-].
  destruct (walk_back_start _ _ _ _ _ _ Hs Hprev Hr EW) as (pre & -> & Hhd).
  split.
  - destruct pre; simpl in *; done.
  - by rewrite last_snoc.
Qed.

End search_facts.

(** ** Pathfinder: the route *)

Section route_facts.

Lemma findHop_pools_ends ps from to_ amount hop :
  findHop_pools ps from to_ amount = Done (Some hop) →
  Asset_String (hop_In hop) = from ∧ Asset_String (hop_Out hop) = to_
  ∧ AmountIn hop = amount.
Proof.
  induction ps as [|p ps IH]; cbn [findHop_pools]; [done|].
  destruct (String.eqb_spec (Asset_String (Asset1 p)) from) as [E1|E1];
    destruct (String.eqb_spec (Asset_String (Asset2 p)) to_) as [E2|E2];
    cbn [andb].
  1: { destruct (calculateAMMOutput p amount true); cbn; [|done..].
       by intros [= <-]. }
  all: destruct (String.eqb_spec (Asset_String (Asset2 p)) from) as [E3|E3];
    destruct (String.eqb_spec (Asset_String (Asset1 p)) to_) as [E4|E4];
    cbn [andb]; try apply IH.
  all: destruct (calculateAMMOutput p amount false); cbn; [|done..].
  all: by intros [= <-].
Qed.

Lemma findHop_offers_ends os from to_ amount hop :
  findHop_offers os from to_ amount = Some hop →
  Asset_String (hop_In hop) = from ∧ Asset_String (hop_Out hop) = to_
  ∧ AmountIn hop = amount.
Proof.
  induction os as [|o os IH]; cbn [findHop_offers]; [done|].
  destruct (String.eqb_spec (Asset_String (TakerPays o)) from) as [E1|E1];
    destruct (String.eqb_spec (Asset_String (TakerGets o)) to_) as [E2|E2];
    cbn [andb]; try apply IH.
  by intros [= <-].
Qed.

Lemma findHop_ends pf from to_ amount hop :
  findHop pf from to_ amount = Done (Some hop) →
  Asset_String (hop_In hop) = from ∧ Asset_String (hop_Out hop) = to_
  ∧ AmountIn hop = amount.
Proof.
  unfold findHop.
  destruct (findHop_pools _ _ _ _) as [[h|]| |] eqn:E; cbn; [| |done..].
  - intros [= <-]. by apply findHop_pools_ends in E.
  - intros [= H]. by apply findHop_offers_ends in H.
Qed.

Lemma buildRoute_loop_follows pf path : ∀ amount hops0 hops,
  buildRoute_loop pf path amount hops0 = Done (Some hops) →
  ∃ new, hops = hops0 ++ new ∧ route_follows path amount new.
Proof.
  induction path as [|from [|to_ rest] IH]; intros amount hops0 hops.
  - intros [= <-]. exists []. by rewrite app_nil_r.
  - intros [= <-]. exists []. by rewrite app_nil_r.
  - cbn [buildRoute_loop].
    destruct (findHop _ _ _ _) as [[hop|]| |] eqn:E; cbn [mbind exec_bind];
      [|done..].
    intros (new & -> & Hnew)%IH. apply findHop_ends in E as (E1 & E2 & E3).
    exists (hop :: new). split; [by rewrite <- app_assoc|]. done.
Qed.

(** *** What a route along a path looks like *)

Lemma route_follows_length path : ∀ amount hops,
  route_follows path amount hops → length hops = (length path - 1)%nat.
Proof.
  induction path as [|from [|to_ rest] IH]; intros amount [|hop hops];
    try done.
  intros (_ & _ & _ & H). apply IH in H. simpl in *. lia.
Qed.

Lemma route_follows_head path amount hops hop :
  route_follows path amount hops → head hops = Some hop →
  head path = Some (Asset_String (hop_In hop)).
Proof.
  destruct path as [|from [|to_ rest]], hops as [|h hops]; try done.
  intros (E & _) [= <-]. simpl. by rewrite E.
Qed.

Lemma route_follows_last path : ∀ amount hops hop,
  route_follows path amount hops → last hops = Some hop →
  last path = Some (Asset_String (hop_Out hop)).
Proof.
  induction path as [|from [|to_ rest] IH]; intros amount [|h hops] hop;
    try done.
  intros (_ & E & _ & H) Hl.
  destruct hops as [|h' hops].
  - injection Hl as <-. destruct rest; [|done]. simpl. by rewrite E.
  - change (last (from :: to_ :: rest)) with (last (to_ :: rest)).
    by apply (IH _ _ _ H).
Qed.

Lemma route_follows_adjacent path : ∀ amount hops i hop next,
  route_follows path amount hops →
  hops !! i = Some hop → hops !! S i = Some next →
  Asset_String (hop_Out hop) = Asset_String (hop_In next)
  ∧ AmountOut hop = AmountIn next.
Proof.
  induction path as [|from [|to_ rest] IH]; intros amount [|h hops] i hop next;
    try done.
  intros (_ & E & _ & H) Hi Hn. destruct i as [|i].
  - injection Hi as <-. simpl in Hn.
    destruct rest as [|x rest], hops as [|h' hops]; try done.
    injection Hn as <-. destruct H as (E1 & _ & E3 & _).
    by rewrite E, E1, E3.
  - by apply (IH _ _ _ _ _ H Hi Hn).
Qed.

End route_facts.

(** ** Pathfinder: the fuel is enough *)

Section search_fuel.

Import heap.
Local Open Scope nat_scope.

Lemma pending_empty graph : pending graph ∅ = edge_count graph.
Proof. reflexivity. Qed.

Lemma pending_insert graph vis k es :
  graph !! k = None →
  pending (<[k := es]> graph) vis
  = if default false (vis !! k) then pending graph vis
    else length es + pending graph vis.
Proof.
  intros Hk. unfold pending.
  rewrite (map_fold_insert_L
    (λ k es n, if default false (vis !! k) then n else length es + n)); [done| |done].
  intros j1 j2 z1 z2 y _ _ _.
  destruct (default false (vis !! j1)), (default false (vis !! j2)); lia.
Qed.

(** Visiting a node takes its edges out of the pending ones. *)
Lemma pending_visit graph vis k :
  default false (vis !! k) = false →
  pending graph (<[k := true]> vis) + length (default [] (graph !! k))
  = pending graph vis.
Proof.
  intros Hv. induction graph as [|i es graph Hi IH] using map_ind.
  - reflexivity.
  - rewrite !pending_insert by done.
    destruct (decide (k = i)) as [->|Hne].
    + rewrite lookup_insert_eq, lookup_insert_eq, Hv. simpl.
      rewrite Hi in IH. simpl in IH. lia.
    + rewrite (lookup_insert_ne vis) by done.
      rewrite (lookup_insert_ne graph) by done.
      destruct (default false (vis !! i)); lia.
Qed.

Lemma relax_visited current st e : visited (relax current st e) = visited st.
Proof.
  unfold relax. destruct (is_visited _ _); [done|].
  by destruct (decimal.LessThan _ _).
Qed.

Lemma relax_length current st e :
  length (pq (relax current st e)) <= S (length (pq st)).
Proof.
  unfold relax. destruct (is_visited _ _); [lia|].
  destruct (decimal.LessThan _ _); [|lia]. simpl. rewrite Push_length. lia.
Qed.

Lemma relax_all_visited current es : ∀ st,
  visited (foldl (relax current) st es) = visited st.
Proof.
  induction es as [|e es IH]; intros st; [done|]. simpl.
  by rewrite IH, relax_visited.
Qed.

Lemma relax_all_length current es : ∀ st,
  length (pq (foldl (relax current) st es)) <= length es + length (pq st).
Proof.
  induction es as [|e es IH]; intros st; simpl; [lia|].
  pose proof (IH (relax current st e)).
  pose proof (relax_length current st e). lia.
Qed.

(** Every turn of the loop takes an entry off the queue or an edge off
    the pending ones. *)
Lemma dijkstra_loop_Done graph end_ fuel : ∀ st,
  length (pq st) + pending graph (visited st) < fuel →
  ∃ st', dijkstra_loop fuel graph end_ st = Done st'.
Proof.
  induction fuel as [|fuel IH]; intros st Hf; [lia|].
  cbn [dijkstra_loop].
  destruct (Len (pq st) =? 0); [by eexists|].
  destruct (Pop (pq st)) as [[current pq']|] eqn:EP; [|by eexists].
  apply Pop_length in EP. cbn [visited prev dist pq].
  destruct (is_visited _ _) eqn:EV.
  { apply IH. simpl. lia. }
  destruct (String.eqb _ _); [by eexists|].
  apply IH. rewrite relax_all_visited. cbn [visited].
  pose proof (relax_all_length current (default [] (graph !! asset current))
    {| dist := dist st; prev := prev st;
       visited := <[asset current := true]> (visited st); pq := pq' |}) as Hl.
  cbn [pq] in Hl.
  pose proof (pending_visit graph (visited st) (asset current) EV). lia.
Qed.

End search_fuel.

Section walk_fuel.

Import heap.
Local Open Scope nat_scope.

Lemma relax_order start current st e order :
  search_order start st order → asset current ∈ order →
  search_order start (relax current st e) order.
Proof.
  intros [K1 K2 K3 K4 K5 K6] Hc. unfold relax.
  destruct (is_visited st (to e)) eqn:EV; [done|].
  destruct (decimal.LessThan _ _); [|done].
  assert (to e ∉ order) as Hto.
  { intros H. apply K4 in H. congruence. }
  split; cbn [prev pq visited].
  - done.
  - intros x y. destruct (decide (to e = x)) as [<-|Hx].
    + rewrite lookup_insert_eq. by intros [= <-].
    + rewrite lookup_insert_ne by done. apply K2.
  - intros o1 x o2 y -> Hxy.
    rewrite lookup_insert_ne in Hxy.
    + by apply (K3 o1 x o2 y).
    + intros <-. apply Hto, elem_of_app. right. by left.
  - intros x Hx. apply K4 in Hx. done.
  - intros x Hx. by apply reached_insert, K5.
  - intros nd. rewrite Push_perm. intros [->|Hnd]%elem_of_cons; simpl.
    + right. by rewrite lookup_insert_eq.
    + by apply reached_insert, K6.
Qed.

Lemma relax_all_order start current order es : ∀ st,
  search_order start st order → asset current ∈ order →
  search_order start (foldl (relax current) st es) order.
Proof.
  induction es as [|e es IH]; intros st Hst Hc; [done|]. simpl.
  apply IH; [by apply relax_order | done].
Qed.

Lemma dijkstra_loop_order start graph end_ fuel : ∀ st st' order,
  search_order start st order →
  dijkstra_loop fuel graph end_ st = Done st' →
  ∃ order', search_order start st' order'.
Proof.
  induction fuel as [|fuel IH]; intros st st' order Hst; [done|].
  cbn [dijkstra_loop].
  destruct (Len (pq st) =? 0); [intros [= <-]; by eexists|].
  destruct (Pop (pq st)) as [[current pq']|] eqn:EP;
    [|intros [= <-]; by eexists].
  destruct Hst as [K1 K2 K3 K4 K5 K6].
  pose proof (Pop_perm _ _ _ EP) as Hperm.
  assert (reached start (prev st) (asset current)) as Hc.
  { apply K6. rewrite Hperm. by left. }
  assert (∀ nd, nd ∈ pq' → reached start (prev st) (asset nd)) as K6'.
  { intros nd Hnd. apply K6. rewrite Hperm. by right. }
  cbn [visited prev dist pq].
  destruct (is_visited _ _) eqn:EV.
  { apply (IH _ _ order). by split. }
  assert (search_order start
            {| dist := dist st; prev := prev st;
               visited := <[asset current := true]> (visited st);
               pq := pq' |} (asset current :: order)) as Hst'.
  { split; cbn [prev pq visited].
    - apply NoDup_cons. split; [|done].
      intros H. apply K4 in H. unfold is_visited in *. simpl in EV.
      congruence.
    - intros x y Hxy. right. by apply (K2 x y).
    - intros [|z o1] x o2 y; simpl.
      + intros [= <- <-]. apply K2.
      + intros [= _ E]. by apply (K3 o1 x o2 y).
    - intros x [->|Hx]%elem_of_cons; unfold is_visited; simpl.
      + by rewrite lookup_insert_eq.
      + destruct (decide (asset current = x)) as [->|].
        * by rewrite lookup_insert_eq.
        * rewrite lookup_insert_ne by done. by apply K4.
    - intros x [->|Hx]%elem_of_cons; [done|by apply K5].
    - done. }
  destruct (String.eqb _ _); [intros [= <-]; by eexists|].
  apply (IH _ _ (asset current :: order)).
  apply relax_all_order; [done|by left].
Qed.

(** A walk that starts inside the visit order only moves to older
    nodes. *)
Lemma walk_back_Done_inside start prev0 order :
  (∀ o1 x o2 y, order = o1 ++ x :: o2 → prev0 !! x = Some y → y ∈ o2) →
  (∀ x, x ∈ order → reached start prev0 x) →
  ∀ n o2 o1 at_ fuel acc,
    length o2 <= n → order = o1 ++ at_ :: o2 → length o2 < fuel →
    ∃ path, walk_back fuel prev0 start at_ acc = Done path.
Proof.
  intros K3 K5 n.
  induction n as [|n IH]; intros o2 o1 at_ fuel acc Hn Ho Hf.
  all: destruct fuel as [|fuel]; [lia|]; cbn [walk_back].
  all: destruct (String.eqb at_ ""); [by eexists|].
  all: destruct (String.eqb_spec at_ start) as [|Hns]; [by eexists|].
  all: destruct (K5 at_) as [|[y Hy]]; [rewrite Ho; apply elem_of_app;
         right; by left | done |].
  all: pose proof (K3 _ _ _ _ Ho Hy) as Hin.
  - destruct o2; [by apply elem_of_nil in Hin | simpl in Hn; lia].
  - apply list_elem_of_split in Hin as (o3 & o4 & ->).
    rewrite Hy. simpl. rewrite length_app in Hn, Hf. simpl in Hn, Hf.
    apply (IH o4 (o1 ++ at_ :: o3)); [lia | | lia].
    by rewrite <- app_assoc.
Qed.

(** The visited nodes are the start and nodes with a predecessor. *)
Lemma order_length start (prev0 : gmap string string) order :
  NoDup order → (∀ x, x ∈ order → reached start prev0 x) →
  length order <= S (size prev0).
Proof.
  intros Hnd Hr.
  rewrite <- (size_list_to_set (C := gset string) order) by done.
  rewrite <- (size_dom prev0 (D := gset string)).
  transitivity (size ({[start]} ∪ dom prev0 : gset string)).
  - apply subseteq_size. intros x Hx%elem_of_list_to_set.
    apply elem_of_union. destruct (Hr x Hx) as [->|H].
    + left. by apply elem_of_singleton.
    + right. by apply elem_of_dom.
  - rewrite size_union_alt, size_singleton.
    pose proof (subseteq_size (dom prev0 ∖ {[start]}) (dom prev0)
                  (subseteq_difference_l _ _ _ (reflexivity _))). lia.
Qed.

Lemma walk_back_Done start st order end_ :
  search_order start st order → reached start (prev st) end_ →
  ∃ path, walk_back (size (prev st) + 2) (prev st) start end_ [] = Done path.
Proof.
  intros [K1 K2 K3 K4 K5 K6] Hend.
  pose proof (order_length start (prev st) order K1 K5) as Hlen.
  replace (size (prev st) + 2) with (S (size (prev st) + 1)) by lia.
  cbn [walk_back].
  destruct (String.eqb end_ ""); [by eexists|].
  destruct (String.eqb_spec end_ start) as [|Hns]; [by eexists|].
  destruct Hend as [|[y Hy]]; [done|]. rewrite Hy. simpl.
  pose proof (K2 _ _ Hy) as Hin.
  apply list_elem_of_split in Hin as (o1 & o2 & ->).
  apply (walk_back_Done_inside start (prev st) (o1 ++ y :: o2) K3 K5
           (length o2) o2 o1); [lia | done |].
  rewrite length_app in Hlen. simpl in Hlen. lia.
Qed.

(** The search returns. *)
Lemma dijkstra_Done graph start end_ :
  ∃ r, dijkstra graph start end_ = Done r.
Proof.
  unfold dijkstra.
  set (st0 := {| dist := _; prev := ∅; visited := ∅; pq := _ |}).
  destruct (dijkstra_loop_Done graph end_ (edge_count graph + 2) st0)
    as [st EL].
  { unfold st0. cbn [pq visited]. rewrite Push_length, pending_empty.
    simpl. lia. }
  rewrite EL. cbn [mbind exec_bind].
  destruct (negb (bool_decide _) && _) eqn:EC; [by eexists|].
  assert (reached start (prev st) end_) as Hr.
  { apply andb_false_iff in EC as [EC|EC].
    - right. apply negb_false_iff in EC. by apply bool_decide_eq_true in EC.
    - left. apply negb_false_iff in EC. symmetry. by apply String.eqb_eq. }
  destruct (dijkstra_loop_order start graph end_ (edge_count graph + 2)
              st0 st []) as [order Ho]; [|done|].
  { split; unfold st0; cbn [prev pq visited].
    - constructor.
    - intros x y. by rewrite lookup_empty.
    - intros o1 x o2 y. by rewrite lookup_empty.
    - intros x Hx. by apply elem_of_nil in Hx.
    - intros x Hx. by apply elem_of_nil in Hx.
    - intros nd. rewrite Push_perm. intros ->%list_elem_of_singleton.
      by left. }
  destruct (walk_back_Done start st order end_ Ho Hr) as [path ->].
  by eexists.
Qed.

(** [FindBestRoute] never stops for lack of fuel: it returns a route or
    an error, or panics where the Go code does, on a division by zero. *)
Lemma FindBestRoute_fuel pf in_ out amount :
  FindBestRoute pf in_ out amount ≠ OutOfFuel.
Proof.
  unfold FindBestRoute.
  destruct (buildGraph_Done pf) as [graph ->]. cbn [mbind exec_bind].
  destruct (dijkstra_Done graph (Asset_String in_) (Asset_String out))
    as [[[path|] c] ->]; cbn [mbind exec_bind]; [|done].
  destruct (_ <? _)%nat; [done|].
  unfold buildRoute. destruct (_ <? _)%nat; [done|].
  assert (∀ path amount hops,
            buildRoute_loop pf path amount hops ≠ OutOfFuel) as Hloop.
  { clear. intros path. induction path as [|from [|to_ rest] IH];
      intros amount hops; [done..|].
    cbn [buildRoute_loop]. unfold findHop.
    assert (∀ ps, findHop_pools ps from to_ amount ≠ OutOfFuel) as Hp.
    { induction ps as [|p ps IHp]; cbn [findHop_pools]; [done|].
      assert (∀ dir, calculateAMMOutput p amount dir ≠ OutOfFuel) as Hc.
      { intros dir. unfold calculateAMMOutput.
        destruct dir; rewrite feeMultiplier_spec; cbn [mbind exec_bind];
          by destruct (decimal.Div _ _). }
      destruct (_ && _).
      { pose proof (Hc true). by destruct (calculateAMMOutput p amount true). }
      destruct (_ && _); [|done].
      pose proof (Hc false). by destruct (calculateAMMOutput p amount false). }
    specialize (Hp (pools pf)).
    destruct (findHop_pools _ _ _ _) as [[hop|]| |]; cbn [mbind exec_bind];
      [apply IH | | done..].
    destruct (findHop_offers _ _ _ _); cbn; [apply IH|done]. }
  specialize (Hloop path amount []).
  by destruct (buildRoute_loop _ _ _ _) as [[hops|]| |].
Qed.

End walk_fuel.

(** ** Pathfinder soundness *)

(** C2.  On a snapshot whose assets are named, for a request whose input
    asset is named: a route returned by [FindBestRoute] has at least one
    and at most three hops, starts at the request's input asset and ends
    at its output asset (assets compared by canonical string, as the
    data model does), every hop starts at the asset the previous one
    ended at, with the amount the previous one put out; and a path of
    more than [MaxHops + 1] nodes found by the search is answered with
    [ErrNoRoute]. *)
Theorem C2_route_sound (pf : Pathfinder) (in_ out : Asset)
  (amount : decimal.Decimal) :
  snapshot_named pf → named in_ →
  (∀ route, FindBestRoute pf in_ out amount = Done (inl route) →
     route_sound in_ out route) ∧
  (∀ graph path c,
     buildGraph pf = Done graph →
     dijkstra graph (Asset_String in_) (Asset_String out)
       = Done (Some path, c) →
     (MaxHops + 1 < length path)%nat →
     FindBestRoute pf in_ out amount = Done (inr ErrNoRoute)).
Proof.
  intros Hpf Hin. split.
  - intros route. unfold FindBestRoute.
    destruct (buildGraph pf) as [graph| |] eqn:EG; cbn [mbind exec_bind];
      [|done..].
    destruct (dijkstra _ _ _) as [[[path|] c]| |] eqn:ED;
      cbn [mbind exec_bind]; [| done..].
    destruct (Nat.ltb_spec (MaxHops + 1) (length path)) as [|Hlen]; [done|].
    unfold buildRoute.
    destruct (Nat.ltb_spec (length path) 2) as [|Hlen2]; [done|].
    destruct (buildRoute_loop _ _ _ _) as [[hops|]| |] eqn:EB;
      cbn [mbind exec_bind]; [|done..].
    intros [= <-]. unfold route_sound. cbn [Hops].
    apply buildRoute_loop_follows in EB as (new & -> & Hf).
    rewrite app_nil_l.
    apply buildGraph_named in EG; [|done].
    apply dijkstra_path in ED as [Hhd Hla]; [|done..].
    pose proof (route_follows_length _ _ _ Hf) as Hl.
    unfold MaxHops in Hlen.
    assert (new ≠ []) as Hne. { intros ->. simpl in Hl. lia. }
    split_and!; [done| | | |lia].
    + destruct new as [|hop new']; [done|]. exists hop. split; [done|].
      pose proof (route_follows_head _ _ _ hop Hf eq_refl) as H.
      rewrite Hhd in H. by injection H.
    + destruct (last new) as [hop|] eqn:El.
      * exists hop. split; [done|].
        pose proof (route_follows_last _ _ _ hop Hf El) as H.
        rewrite Hla in H. by injection H.
      * by apply last_None in El.
    + intros i hop next. by apply (route_follows_adjacent _ _ _ _ _ _ Hf).
  - intros graph path c EG ED Hlen. unfold FindBestRoute.
    rewrite EG. cbn [mbind exec_bind]. rewrite ED. cbn [mbind exec_bind].
    by apply Nat.ltb_lt in Hlen as ->.
Qed.

Lemma pf_scenario_1_named : snapshot_named pf_scenario_1.
Proof. split; repeat constructor; done. Qed.

Lemma pf_line_named : snapshot_named pf_line.
Proof. split; repeat constructor; done. Qed.

(** Scenario 1 returns a route, and it is sound; the line of four pools
    gives a path of five nodes, and no route. *)
Lemma C2_route_sound_witness :
  (∃ route,
     FindBestRoute pf_scenario_1 XRP USD_I (decimal.NewFromInt 100)
       = Done (inl route)
     ∧ route_sound XRP USD_I route) ∧
  FindBestRoute pf_line (token "A") (token "E") (decimal.NewFromInt 100)
    = Done (inr ErrNoRoute).
Proof.
  split.
  - eexists. split; [vm_compute; reflexivity|].
    apply (proj1 (C2_route_sound pf_scenario_1 XRP USD_I
                    (decimal.NewFromInt 100) pf_scenario_1_named
                    ltac:(done))).
    vm_compute. reflexivity.
  - eapply (proj2 (C2_route_sound pf_line (token "A") (token "E")
                     (decimal.NewFromInt 100) pf_line_named ltac:(done))
              (default ∅ (match buildGraph pf_line with
                          | Done g => Some g | _ => None end))
              ["A"; "B"; "C"; "D"; "E"]).
    + vm_compute. reflexivity.
    + vm_compute. reflexivity.
    + vm_compute. lia.
Defined.

(** The search reads an empty name as the end of the path: a snapshot
    with an unnamed asset can lose the front of a route. *)
Remark unnamed_asset_cuts_path :
  (r ← FindBestRoute
         (NewPathfinder [ mkPool (token "A") (token "") 1000 1000 30;
                          mkPool (token "") (token "B") 1000 1000 30;
                          mkPool (token "B") (token "C") 1000 1000 30 ] [])
         (token "A") (token "C") (decimal.NewFromInt 100);
   mret (match r with inl r => route_nodes r | inr _ => [] end))
  = Done ["B"; "C"].
Proof. vm_compute. reflexivity. Qed.

(** ** The order of the search *)

(** C8, as the code has it.  The cost of an edge is [1 - weight] and is
    added to the cost of the node it leaves; a node is queued, and its
    predecessor replaced, only when the new cost is strictly below the
    recorded one.  The queue is a binary min-heap on the accumulated
    cost alone: pushing keeps the heap, and popping a non-empty heap
    returns one of its entries of least cost and leaves a heap of the
    others.  Nothing orders entries of equal cost. *)
Theorem C8_min_heap_order :
  (∀ current st e,
     is_visited st (to e) = false →
     let newCost := decimal.Add (cost current)
                      (decimal.Sub (decimal.NewFromInt 1) (weight e)) in
     let known := default Decimal_zero_value (dist st !! to e) in
     (decimal.toQ newCost
      == decimal.toQ (cost current) + (1 - decimal.toQ (weight e)))%Q ∧
     (decimal.LessThan newCost known = true →
        pq (relax current st e)
        = heap.Push (pq st) {| asset := to e; cost := newCost |}
        ∧ prev (relax current st e) !! to e = Some (asset current)) ∧
     (decimal.LessThan newCost known = false → relax current st e = st)) ∧
  heap_ok [] ∧
  (∀ h x, heap_ok h → heap_ok (heap.Push h x) ∧ heap.Push h x ≡ₚ x :: h) ∧
  (∀ h, heap_ok h → h ≠ [] →
     ∃ x h', heap.Pop h = Some (x, h') ∧ heap_ok h' ∧ h ≡ₚ x :: h' ∧
             ∀ y, y ∈ h → (node_key x <= node_key y)%Q).
Proof.
  split_and!.
  - intros current st e Hv newCost known. split_and!.
    + unfold newCost.
      rewrite toQ_Add, toQ_Sub, toQ_NewFromInt. reflexivity.
    + intros Hlt. unfold relax. rewrite Hv. fold newCost known. rewrite Hlt.
      cbn [pq prev]. by rewrite lookup_insert_eq.
    + intros Hlt. unfold relax. rewrite Hv. fold newCost known.
      by rewrite Hlt.
  - apply heap_ok_nil.
  - intros h x H. split; [by apply Push_heap | apply Push_perm].
  - intros h H Hne.
    destruct (heap.Pop h) as [[x h']|] eqn:E.
    + exists x, h'. destruct (Pop_root h x h' H E) as [Hx Hh'].
      split_and!; [done | done | by apply Pop_perm |].
      intros y. by apply (heap_ok_min h x y).
    + by apply Pop_None in E.
Qed.

(** Three entries of the same cost, pushed one after the other, form a
    heap, and the first pop returns a cheapest of them. *)
Lemma C8_min_heap_order_witness :
  let h := heap.Push (heap.Push (heap.Push [] (tie "a")) (tie "b")) (tie "c") in
  heap_ok h ∧
  ∃ x h', heap.Pop h = Some (x, h') ∧ heap_ok h' ∧ h ≡ₚ x :: h' ∧
          ∀ y, y ∈ h → (node_key x <= node_key y)%Q.
Proof.
  destruct C8_min_heap_order as (_ & H0 & Hpush & Hpop).
  assert (heap_ok (heap.Push (heap.Push (heap.Push [] (tie "a")) (tie "b"))
                     (tie "c"))) as H.
  { apply Hpush, Hpush, Hpush, H0. }
  split; [exact H|]. apply Hpop; [exact H|]. vm_compute. discriminate.
Defined.

(** Against C8 as stated: b is queued before c at the same cost, and c
    is popped before b; on the snapshot [pf_ties], where the pool of b
    comes before the pool of c, the route goes through c. *)
Lemma C8_counterexample :
  cost (tie "b") = cost (tie "c") ∧
  ('(x, q) ← heap.Pop (heap.Push (heap.Push (heap.Push [] (tie "a"))
                                    (tie "b")) (tie "c"));
   '(y, q) ← heap.Pop q;
   '(z, _) ← heap.Pop q;
   Some [asset x; asset y; asset z]) = Some ["a"; "c"; "b"] ∧
  (r ← FindBestRoute pf_ties (token "S") (token "T") (decimal.NewFromInt 100);
   mret (match r with inl r => route_nodes r | inr _ => [] end))
  = Done ["S"; "c"; "T"].
Proof. vm_compute. done. Qed.

(** ** KV store: what the operations give back *)

Section kv_round_trips.

Import kv kv_spec.

(** A write that succeeds leaves the entry under its full key, at the
    front of the LRU list. *)
Lemma setLocked_written s ns k v ttl now s' :
  setLocked s ns k v ttl now = Done (s', None) →
  ∃ e, data s' !! makeKey ns k = Some e
       ∧ namespace e = ns ∧ key e = k ∧ value e = v
       ∧ expiresAt e = (if 0 <? ttl then Some (now + ttl) else None)
       ∧ size_bytes e = len (makeKey ns k) + len v + 64
       ∧ head (lru s') = Some (lruNode e, makeKey ns k).
Proof.
  unfold setLocked.
  destruct (evict_loop _ _ _) as [[s1 room]| |]; cbn [mbind exec_bind];
    [|done..].
  destruct room; cbn [negb]; [|done].
  intros [= <-]. eexists. split; [apply lookup_insert_eq|]. done.
Qed.

Lemma Set_written s ns k v ttl now s' :
  Set_ s ns k v ttl now = Done (s', None) →
  ns ≠ "" ∧ k ≠ "" ∧
  ∃ e, data s' !! makeKey ns k = Some e
       ∧ namespace e = ns ∧ key e = k ∧ value e = v
       ∧ expiresAt e = (if 0 <? ttl then Some (now + ttl) else None)
       ∧ size_bytes e = len (makeKey ns k) + len v + 64
       ∧ head (lru s') = Some (lruNode e, makeKey ns k).
Proof.
  unfold Set_. destruct (validate s ns k v) eqn:Ev; [done|].
  destruct (checkNamespaceQuota s ns now); [done|].
  intros H. apply setLocked_written in H.
  unfold validate in Ev.
  destruct (String.eqb_spec ns ""); [done|].
  destruct (String.eqb_spec k ""); done.
Qed.

Lemma Get_live s ns k e now :
  ns ≠ "" → k ≠ "" → data s !! makeKey ns k = Some e →
  expired e now = false →
  (Get s ns k now).2 = Some (value e).
Proof.
  intros Hns Hk He Hx. unfold Get.
  destruct (String.eqb_spec ns ""); [done|].
  destruct (String.eqb_spec k ""); [done|].
  cbn [orb]. by rewrite He, Hx.
Qed.

Lemma Get_expired s ns k e now :
  ns ≠ "" → k ≠ "" → data s !! makeKey ns k = Some e →
  expired e now = true →
  Get s ns k now = (add_misses (deleteEntryLocked s (makeKey ns k) e), None).
Proof.
  intros Hns Hk He Hx. unfold Get.
  destruct (String.eqb_spec ns ""); [done|].
  destruct (String.eqb_spec k ""); [done|].
  cbn [orb]. by rewrite He, Hx.
Qed.

End kv_round_trips.

(** X1.  What [Set] stores, [Get] returns: after a [Set] that succeeded
    at time [now], a [Get] of the same namespace and key returns the
    value written, at any time when there is no time to live, and up to
    and including [now + ttl] when there is one. *)
Theorem X1_set_get_round_trip
  (s s' : kv.MemoryStore) (ns k v : string) (ttl now now' : Z) :
  kv.Set_ s ns k v ttl now = Done (s', None) →
  (0 < ttl → now' <= now + ttl) →
  (kv.Get s' ns k now').2 = Some v.
Proof.
  intros (Hns & Hk & e & He & _ & _ & Hv & Hx & _)%Set_written Ht.
  rewrite <- Hv. apply Get_live; try done.
  unfold kv.expired. rewrite Hx.
  destruct (Z.ltb_spec 0 ttl); [|done]. apply Z.ltb_ge. auto.
Qed.

Lemma X1_set_get_round_trip_witness :
  ∃ s', kv.Set_ kv_examples.small "test" "key1" "v" 10 5 = Done (s', None)
        ∧ (kv.Get s' "test" "key1" 15).2 = Some "v".
Proof.
  eexists. split; [vm_compute; reflexivity|].
  apply (X1_set_get_round_trip kv_examples.small _ "test" "key1" "v" 10 5 15).
  - vm_compute. reflexivity.
  - lia.
Defined.

(** X2.  Expiry is lazy and exact: once the time to live of a written
    entry has passed, the first [Get] misses, takes the entry out of the
    map and gives its bytes back. *)
Theorem X2_get_after_expiry
  (s s' : kv.MemoryStore) (ns k v : string) (ttl now now' : Z) :
  kv.Set_ s ns k v ttl now = Done (s', None) →
  0 < ttl → now + ttl < now' →
  let r := kv.Get s' ns k now' in
  r.2 = None
  ∧ kv.data r.1 = delete (kv.makeKey ns k) (kv.data s')
  ∧ kv.currentBytes r.1
    = kv.currentBytes s' - (kv.len (kv.makeKey ns k) + kv.len v + 64)
  ∧ kv.misses r.1 = kv.misses s' + 1.
Proof.
  intros (Hns & Hk & e & He & _ & _ & Hv & Hx & Hsz & _)%Set_written Ht Hl.
  cbv zeta. rewrite (Get_expired s' ns k e now'); try done.
  - cbn. rewrite Hsz. split_and!; done.
  - unfold kv.expired. rewrite Hx.
    destruct (Z.ltb_spec 0 ttl); [|lia]. by apply Z.ltb_lt.
Qed.

Lemma X2_get_after_expiry_witness :
  ∃ s', kv.Set_ kv_examples.small "test" "key1" "v" 10 5 = Done (s', None)
        ∧ (kv.Get s' "test" "key1" 16).2 = None
        ∧ kv.currentBytes (kv.Get s' "test" "key1" 16).1 = 0.
Proof.
  set (s1 := match kv.Set_ kv_examples.small "test" "key1" "v" 10 5 with
             | Done (s', _) => s'
             | _ => kv_examples.small
             end).
  assert (kv.Set_ kv_examples.small "test" "key1" "v" 10 5 = Done (s1, None))
    as E by (vm_compute; reflexivity).
  exists s1. split; [exact E|].
  destruct (X2_get_after_expiry kv_examples.small s1 "test" "key1" "v" 10 5 16
              E ltac:(lia) ltac:(lia)) as (H1 & _ & H3 & _).
  split; [exact H1|]. rewrite H3. vm_compute. reflexivity.
Defined.

Section kv_delete.

Import kv kv_spec.

Lemma Delete_present s ns k e :
  ns ≠ "" → k ≠ "" → data s !! makeKey ns k = Some e →
  Delete s ns k = (deleteEntryLocked s (makeKey ns k) e, None).
Proof.
  intros Hns Hk He. unfold Delete.
  destruct (String.eqb_spec ns ""); [done|].
  destruct (String.eqb_spec k ""); [done|].
  cbn [orb]. by rewrite He.
Qed.

Lemma Get_absent s ns k now :
  data s !! makeKey ns k = None → (Get s ns k now).2 = None.
Proof.
  intros H. unfold Get. destruct (_ || _); [done|]. by rewrite H.
Qed.

Lemma Delete_cases s ns k :
  Delete s ns k = (s, Some ErrKeyEmpty)
  ∨ (ns ≠ "" ∧ k ≠ "" ∧ data s !! makeKey ns k = None
     ∧ Delete s ns k = (s, Some ErrKeyNotFound))
  ∨ (ns ≠ "" ∧ k ≠ "" ∧ ∃ e, data s !! makeKey ns k = Some e
     ∧ Delete s ns k = (deleteEntryLocked s (makeKey ns k) e, None)).
Proof.
  unfold Delete.
  destruct (String.eqb_spec ns "") as [|Hns]; cbn [orb]; [by left|].
  destruct (String.eqb_spec k "") as [|Hk]; [by left|].
  destruct (data s !! makeKey ns k) as [e|] eqn:He; right.
  - right. split_and!; try done. by exists e.
  - by left.
Qed.

End kv_delete.

(** X3.  [Delete] takes out the entry of its key and nothing else: when
    it returns no error the entry is gone (a later [Get] misses, a
    second [Delete] answers [ErrKeyNotFound]), every other entry is
    where it was, and the byte counter has dropped by the size recorded
    for the entry; when it returns an error the store is untouched. *)
Theorem X3_delete_removes_one (s : kv.MemoryStore) (ns k : string) :
  let r := kv.Delete s ns k in
  (r.2 = None →
     ∃ e, kv.data s !! kv.makeKey ns k = Some e
          ∧ kv.data r.1 = delete (kv.makeKey ns k) (kv.data s)
          ∧ kv.currentBytes r.1 = kv.currentBytes s - kv.size_bytes e
          ∧ (∀ now, (kv.Get r.1 ns k now).2 = None)
          ∧ (kv.Delete r.1 ns k).2 = Some ErrKeyNotFound)
  ∧ (r.2 ≠ None →
     r.1 = s ∧ (r.2 = Some ErrKeyEmpty ∨ r.2 = Some ErrKeyNotFound)).
Proof.
  cbv zeta.
  destruct (Delete_cases s ns k) as [E|[(Hns & Hk & He & E)|(Hns & Hk & e & He & E)]];
    rewrite E; cbn [fst snd].
  - split; [done|]. intros _. split; [done|by left].
  - split; [done|]. intros _. split; [done|by right].
  - split; [|done]. intros _. exists e. cbn.
    assert (kv.data (kv.deleteEntryLocked s (kv.makeKey ns k) e)
              !! kv.makeKey ns k = None) as Hgone
      by (cbn; apply lookup_delete_eq).
    split_and!; try done.
    + intros now. by apply Get_absent.
    + destruct (Delete_cases (kv.deleteEntryLocked s (kv.makeKey ns k) e) ns k)
        as [E'|[(_ & _ & _ & E')|(_ & _ & e' & He' & _)]].
      * exfalso. revert E'. unfold kv.Delete.
        destruct (String.eqb_spec ns ""); [done|].
        destruct (String.eqb_spec k ""); [done|]. cbn [orb].
        by rewrite Hgone.
      * by rewrite E'.
      * by rewrite Hgone in He'.
Qed.

Section kv_counters.

Import kv kv_spec.

Lemma evictOldest_reads s : reads (evictOldest s).1 = reads s.
Proof.
  unfold evictOldest. destruct (Back (lru s)) as [[id fk]|]; [|done].
  by destruct (data s !! fk).
Qed.

Lemma evict_loop_reads entrySize fuel : ∀ s s' room,
  evict_loop fuel s entrySize = Done (s', room) → reads s' = reads s.
Proof.
  induction fuel as [|fuel IH]; intros s s' room; [done|].
  cbn [evict_loop]. destruct (_ <? _); [|by intros [= <- _]].
  pose proof (evictOldest_reads s) as H.
  destruct (evictOldest s) as [s1 []]; simpl in H.
  - intros E. apply IH in E. congruence.
  - intros [= <- _]. done.
Qed.

Lemma setLocked_reads s ns k v ttl now s' err :
  setLocked s ns k v ttl now = Done (s', err) → reads s' = reads s.
Proof.
  unfold setLocked.
  destruct (evict_loop _ _ _) as [[s1 room]| |] eqn:E; cbn [mbind exec_bind];
    [|done..].
  apply evict_loop_reads in E.
  assert (reads s1 = reads s) as <-.
  { rewrite E. by destruct (data s !! makeKey ns k). }
  destruct room; cbn [negb]; by intros [= <- _].
Qed.

Lemma Set_reads s ns k v ttl now s' err :
  Set_ s ns k v ttl now = Done (s', err) → reads s' = reads s.
Proof.
  unfold Set_. destruct (validate _ _ _ _); [by intros [= <- _]|].
  destruct (checkNamespaceQuota _ _ _); [by intros [= <- _]|].
  apply setLocked_reads.
Qed.

Lemma Delete_reads s ns k : reads (Delete s ns k).1 = reads s.
Proof.
  unfold Delete. destruct (_ || _); [done|].
  by destruct (data s !! makeKey ns k).
Qed.

Lemma IncrementRateLimit_reads s p ttl now s' r :
  IncrementRateLimit s p ttl now = Done (s', r) → reads s' = reads s.
Proof.
  unfold IncrementRateLimit. destruct (String.eqb p ""); [by intros [= <- _]|].
  assert (∀ s0, reads s0 = reads s →
    match setLocked s0 NamespaceRateLimits p "1" ttl now with
    | Done (s1, err) =>
        match err with
        | Some err => Done (s1, (0, Some err))
        | None => Done (s1, (1, None))
        end
    | Panic => Panic
    | OutOfFuel => OutOfFuel
    end = Done (s', r) → reads s' = reads s) as Hfresh.
  { intros s0 H0.
    destruct (setLocked s0 _ _ _ _ _) as [[s1 err]| |] eqn:E; [|done..].
    apply setLocked_reads in E. destruct err; intros [= <- _]; congruence. }
  destruct (data s !! _) as [e|]; [|by apply Hfresh].
  destruct (expired e now); [by apply Hfresh|].
  destruct (ParseInt (value e)); [|by intros [= <- _]].
  destruct (setLocked s _ _ _ _ _) as [[s1 err]| |] eqn:E;
    cbn [mbind exec_bind]; [|done..].
  apply setLocked_reads in E. destruct err; intros [= <- _]; congruence.
Qed.

Lemma cleanup_reads s now : reads (cleanup s now) = reads s.
Proof.
  unfold cleanup. generalize (map fst (map_to_list
    (filter (λ kv : string * entry, expired kv.2 now = true) (data s)))).
  intros l. revert s. induction l as [|fk l IH]; intros s; [done|].
  simpl. rewrite IH. by destruct (data s !! fk).
Qed.

Lemma Get_reads s ns k now : reads (Get s ns k now).1 = reads s + 1.
Proof.
  unfold Get, reads. destruct (_ || _); [simpl; lia|].
  destruct (data s !! makeKey ns k) as [e|]; [|simpl; lia].
  destruct (expired e now); simpl; lia.
Qed.

Lemma step_reads s now o s' err :
  step s now o = Done (s', err) →
  reads s' = reads s + (if is_get o then 1 else 0).
Proof.
  destruct o as [ns k|ns k v ttl|ns k|p ttl|]; cbn [step is_get];
    unfold mret, exec_ret.
  - intros [= <- <-]. apply Get_reads.
  - intros E%Set_reads. lia.
  - intros [= E]. rewrite <- (Delete_reads s ns k), E. simpl. lia.
  - destruct (IncrementRateLimit s p ttl now) as [[s1 [n e]]| |] eqn:E;
      cbn [mbind exec_bind]; [|done..].
    apply IncrementRateLimit_reads in E. intros [= <- <-]. lia.
  - intros [= <- <-]. rewrite cleanup_reads. lia.
Qed.

Lemma run_reads ops : ∀ s s',
  run s ops = Done s' → reads s' = reads s + gets ops.
Proof.
  unfold gets. induction ops as [|[now o] ops IH]; intros s s'.
  - intros [= <-]. simpl. lia.
  - cbn [run]. destruct (step s now o) as [[s1 err]| |] eqn:E;
      cbn [mbind exec_bind]; [|done..].
    intros H. apply IH in H. apply step_reads in E.
    rewrite filter_cons. cbn [snd].
    destruct (is_get o); case_decide; try done; simpl length; lia.
Qed.

End kv_counters.

(** X4.  The two read counters count the reads: over any sequence of
    operations on a new store that comes to an end, [hits] plus [misses]
    is the number of [Get]s in it; no other operation, and no eviction
    or expiry, moves either counter. *)
Theorem X4_hits_and_misses_count_gets
  (maxBytes_ maxKeyLength_ maxValueSize_ : Z) (ops : list (Z * kv.op))
  (s : kv.MemoryStore) :
  kv.run (kv.NewMemoryStoreWithConfig maxBytes_ maxKeyLength_ maxValueSize_)
    ops = Done s →
  kv.hits s + kv.misses s = gets ops.
Proof.
  intros H. apply run_reads in H. unfold reads in H. cbn in H. lia.
Qed.

Lemma X4_hits_and_misses_count_gets_witness :
  ∃ s, kv.run kv_examples.small kv_examples.lru_scenario = Done s
       ∧ kv.hits s + kv.misses s = 1.
Proof.
  set (s1 := match kv.run kv_examples.small kv_examples.lru_scenario with
             | Done s' => s'
             | _ => kv_examples.small
             end).
  assert (kv.run kv_examples.small kv_examples.lru_scenario = Done s1) as E
    by (vm_compute; reflexivity).
  exists s1. split; [exact E|].
  exact (X4_hits_and_misses_count_gets 500 256 200 kv_examples.lru_scenario
           s1 E).
Defined.

(** ** KV store: making room *)

Section kv_room.

Import kv kv_spec.

(** [evictOldest] gives up only on a store with nothing left to evict. *)
Lemma evictOldest_false k s :
  Inv (hide k s) → (evictOldest s).2 = false →
  delete k (data s) = ∅ ∧ lru s = [] ∧ currentBytes s = 0.
Proof.
  intros HI. unfold evictOldest, Back.
  destruct (last (lru s)) as [[id k']|] eqn:El.
  - assert ((id, k') ∈ lru (hide k s)) as Hin.
    { simpl. by apply last_Some_elem_of. }
    apply (inv_lru _ HI) in Hin as (e & He & Hid). simpl in He.
    apply lookup_delete_Some in He as [Hne He]. by rewrite He.
  - intros _. apply last_None in El.
    assert (delete k (data s) = ∅) as Hd.
    { apply map_empty. intros k'.
      destruct (delete k (data s) !! k') as [e|] eqn:He; [|done].
      assert ((lruNode e, k') ∈ lru (hide k s)) as Hin.
      { apply (inv_lru _ HI). by exists e. }
      simpl in Hin. rewrite El in Hin. by apply elem_of_nil in Hin. }
    split_and!; try done.
    pose proof (inv_bytes _ HI) as Hb. simpl in Hb.
    by rewrite Hb, Hd, total_bytes_empty.
Qed.

(** The eviction loop makes room for any entry that fits the budget on
    its own. *)
Lemma evict_loop_room k entrySize fuel : ∀ s,
  Inv (hide k s) → (size (data s) < fuel)%nat →
  entrySize <= maxBytes s →
  ∃ s', evict_loop fuel s entrySize = Done (s', true).
Proof.
  induction fuel as [|fuel IH]; intros s HI Hf Hfit; [lia|].
  cbn [evict_loop].
  destruct (Z.ltb_spec (maxBytes s) (currentBytes s + entrySize)) as [Hlt|Hge];
    [|by eexists].
  pose proof (evictOldest_hidden k s HI) as He.
  pose proof (evictOldest_false k s HI) as Hfalse.
  destruct (evictOldest s) as [s1 [|]].
  - destruct He as (HI1 & Hsz & Hk & Hm).
    apply IH; [done|lia|congruence].
  - destruct Hfalse as (_ & _ & H0); [done|]. lia.
Qed.

(** For an entry larger than the budget the loop evicts everything and
    then gives up. *)
Lemma evict_loop_flush entrySize fuel : ∀ s,
  Inv s → (size (data s) < fuel)%nat → maxBytes s < entrySize →
  ∃ s', evict_loop fuel s entrySize = Done (s', false)
        ∧ data s' = ∅ ∧ lru s' = [] ∧ currentBytes s' = 0
        ∧ maxBytes s' = maxBytes s.
Proof.
  induction fuel as [|fuel IH]; intros s HI Hf Hbig; [lia|].
  cbn [evict_loop].
  pose proof (Inv_nonneg s HI) as H0.
  destruct (Z.ltb_spec (maxBytes s) (currentBytes s + entrySize)) as [_|];
    [|lia].
  (* a key that the store does not hold: hiding it changes nothing *)
  destruct (exist_fresh (dom (data s))) as [k Hk].
  apply not_elem_of_dom in Hk.
  assert (Inv (hide k s)) as HIh by (by rewrite hide_absent).
  pose proof (evictOldest_hidden k s HIh) as He.
  pose proof (evictOldest_false k s HIh) as Hfalse.
  destruct (evictOldest s) as [s1 [|]].
  - destruct He as (HI1 & Hsz & Hk1 & Hm).
    rewrite hide_absent in HI1 by congruence.
    destruct (IH s1 HI1 ltac:(lia) ltac:(lia)) as (s' & E & ? & ? & ? & ?).
    exists s'. split_and!; try done. congruence.
  - subst s1. destruct Hfalse as (Hd & Hl & Hb); [done|].
    exists s. split_and!; try done.
    by rewrite delete_id in Hd.
Qed.

End kv_room.

(** X5.  [Set] fails with [ErrMemoryLimit] only for an entry that is
    larger than the whole budget: on a consistent store, a [Set] whose
    arguments pass validation and the namespace quota, and whose entry
    (full key, value and 64 bytes) fits [maxBytes], succeeds, evicting
    what it has to. *)
Theorem X5_set_succeeds_when_entry_fits
  (s : kv.MemoryStore) (ns k v : string) (ttl now : Z) :
  kv_spec.Inv s →
  kv.validate s ns k v = None →
  kv.checkNamespaceQuota s ns now = None →
  kv.len (kv.makeKey ns k) + kv.len v + 64 <= kv.maxBytes s →
  ∃ s', kv.Set_ s ns k v ttl now = Done (s', None).
Proof.
  intros HI Hv Hq Hfit. unfold kv.Set_. rewrite Hv, Hq. unfold kv.setLocked.
  set (K := kv.makeKey ns k) in *.
  set (entrySize := kv.len K + kv.len v + 64) in *.
  set (s1 := match kv.data s !! K with
             | Some existing => _
             | None => s
             end).
  assert (kv_spec.Inv (kv_spec.hide K s1) ∧ kv.maxBytes s1 = kv.maxBytes s)
    as (HI1 & Hm1).
  { unfold s1. destruct (kv.data s !! K) as [ex|] eqn:Ex.
    - split; [|done].
      change (kv_spec.Inv (kv.deleteEntryLocked s K ex)).
      by apply Inv_deleteEntryLocked.
    - by rewrite hide_absent. }
  destruct (evict_loop_room K entrySize (S (size (kv.data s1))) s1 HI1
              ltac:(lia) ltac:(lia)) as (s2 & ->).
  cbn. by eexists.
Qed.

Lemma X5_set_succeeds_when_entry_fits_witness :
  ∃ s', kv.Set_ kv_examples.tiny "n" "k" "" 0 0 = Done (s', None).
Proof.
  apply (X5_set_succeeds_when_entry_fits kv_examples.tiny "n" "k" "" 0 0).
  - apply Inv_fresh. lia.
  - reflexivity.
  - reflexivity.
  - vm_compute. discriminate.
Defined.

(** X6.  A [Set] of a new key whose entry is larger than the whole
    budget fails with [ErrMemoryLimit], and not before it has evicted
    every entry of the store. *)
Theorem X6_oversized_set_flushes_the_store
  (s : kv.MemoryStore) (ns k v : string) (ttl now : Z) :
  kv_spec.Inv s →
  kv.validate s ns k v = None →
  kv.checkNamespaceQuota s ns now = None →
  kv.data s !! kv.makeKey ns k = None →
  kv.maxBytes s < kv.len (kv.makeKey ns k) + kv.len v + 64 →
  ∃ s', kv.Set_ s ns k v ttl now = Done (s', Some ErrMemoryLimit)
        ∧ kv.data s' = ∅ ∧ kv.currentBytes s' = 0.
Proof.
  intros HI Hv Hq Hnew Hbig. unfold kv.Set_. rewrite Hv, Hq.
  unfold kv.setLocked. rewrite Hnew.
  destruct (evict_loop_flush (kv.len (kv.makeKey ns k) + kv.len v + 64)
              (S (size (kv.data s))) s HI ltac:(lia) Hbig)
    as (s' & -> & Hd & _ & Hb & _).
  cbn. by exists s'.
Qed.

Lemma tiny_with_one_Inv : kv_spec.Inv tiny_with_one.
Proof.
  destruct (Set_Inv kv_examples.tiny "n" "k" "" 0 0) as (s' & err & E' & _ & H).
  { apply Inv_fresh. lia. }
  assert (kv.Set_ kv_examples.tiny "n" "k" "" 0 0 = Done (tiny_with_one, None))
    as E by (vm_compute; reflexivity).
  rewrite E in E'. injection E' as <- <-. apply H. by intros [_ ?].
Qed.

Lemma X6_oversized_set_flushes_the_store_witness :
  is_Some (kv.data tiny_with_one !! "n:k") ∧
  ∃ s2,
    kv.Set_ tiny_with_one "n" "big" kv_examples.value40 0 1
      = Done (s2, Some ErrMemoryLimit)
    ∧ kv.data s2 = ∅ ∧ kv.currentBytes s2 = 0.
Proof.
  split; [vm_compute; by eexists|].
  apply (X6_oversized_set_flushes_the_store tiny_with_one "n" "big"
           kv_examples.value40 0 1).
  - exact tiny_with_one_Inv.
  - vm_compute. reflexivity.
  - vm_compute. reflexivity.
  - vm_compute. reflexivity.
  - vm_compute. reflexivity.
Defined.


(** ** KV store: the order of eviction *)

Section kv_lru.

Import kv kv_spec.



End kv_lru.




(** ** KV store: counters *)

Section kv_numbers.

Import kv kv_spec.

Lemma digit_of_pretty_N_char x :
  (x < 10)%N → digit_of (pretty_N_char x) = Some (Z.of_N x).
Proof.
  intros H.
  assert (x = 0 ∨ x = 1 ∨ x = 2 ∨ x = 3 ∨ x = 4 ∨ x = 5 ∨ x = 6 ∨ x = 7
          ∨ x = 8 ∨ x = 9)%N as Hx by lia.
  by repeat destruct Hx as [->|Hx]; [..|subst x].
Qed.

(** Reading back the digits that [pretty] writes. *)
Lemma parse_digits_pretty_N_go x : ∀ s,
  parse_digits (pretty_N_go x s) 0 = parse_digits s (Z.of_N x).
Proof.
  induction (N.lt_wf_0 x) as [x _ IH]; intros s.
  destruct (decide (x = 0%N)) as [->|Hx]; [done|].
  rewrite pretty_N_go_step by lia.
  rewrite IH by (apply N.div_lt; lia).
  cbn [parse_digits].
  rewrite digit_of_pretty_N_char by (apply N.mod_lt; lia).
  f_equal. rewrite N2Z.inj_div, N2Z.inj_mod. simpl Z.of_N.
  pose proof (Z.div_mod (Z.of_N x) 10 ltac:(lia)). lia.
Qed.

Lemma parse_digits_pretty_N x :
  parse_digits (pretty x) 0 = Some (Z.of_N x).
Proof.
  unfold pretty, pretty_N. case_decide as Hx; [by subst x|].
  by rewrite parse_digits_pretty_N_go.
Qed.

Lemma parse_digits_first c r acc n :
  parse_digits (String c r) acc = Some n →
  Ascii.eqb c "+" = false ∧ Ascii.eqb c "-" = false.
Proof.
  cbn [parse_digits].
  destruct (Ascii.eqb_spec c "+") as [->|]; [done|].
  destruct (Ascii.eqb_spec c "-") as [->|]; done.
Qed.

Lemma pretty_N_nonempty (x : N) : pretty x ≠ "".
Proof.
  unfold pretty, pretty_N. case_decide as Hx; [done|].
  intros E. pose proof (parse_digits_pretty_N_go x "") as H.
  rewrite E in H. cbn in H. injection H as H. lia.
Qed.

(** [strconv.ParseInt] reads back what [strconv.FormatInt] writes. *)
Lemma ParseInt_pretty (n : Z) :
  - 2 ^ 63 <= n <= 2 ^ 63 - 1 → ParseInt (pretty n) = Some n.
Proof.
  intros Hn. unfold pretty, pretty_Z.
  destruct n as [|p|p].
  - done.
  - change (pretty p) with (pretty (N.pos p)).
    pose proof (parse_digits_pretty_N (N.pos p)) as Hp.
    pose proof (pretty_N_nonempty (N.pos p)) as Hne.
    unfold ParseInt. destruct (pretty (N.pos p)) as [|c r] eqn:E; [done|].
    destruct (parse_digits_first c r 0 _ Hp) as [-> ->].
    rewrite Hp. simpl Z.of_N.
    destruct (Z.leb_spec (- 2 ^ 63) (Z.pos p)); [|lia].
    destruct (Z.leb_spec (Z.pos p) (2 ^ 63 - 1)); [done|lia].
  - change (pretty p) with (pretty (N.pos p)).
    pose proof (parse_digits_pretty_N (N.pos p)) as Hp.
    pose proof (pretty_N_nonempty (N.pos p)) as Hne.
    unfold ParseInt. rewrite append_String, append_empty.
    change (Ascii.eqb "-" "+") with false.
    change (Ascii.eqb "-" "-") with true. cbv iota.
    destruct (pretty (N.pos p)) as [|c r] eqn:E; [done|].
    rewrite Hp. simpl Z.of_N.
    change (- Z.pos p) with (Z.neg p).
    destruct (Z.leb_spec (- 2 ^ 63) (Z.neg p)); [|lia].
    destruct (Z.leb_spec (Z.neg p) (2 ^ 63 - 1)); [done|lia].
Qed.

Lemma incr64_small n : - 2 ^ 63 <= n < 2 ^ 63 - 1 → incr64 n = n + 1.
Proof.
  intros H. unfold incr64.
  rewrite Z.mod_small by lia. lia.
Qed.

Lemma ParseInt_range s n : ParseInt s = Some n → - 2 ^ 63 <= n <= 2 ^ 63 - 1.
Proof.
  unfold ParseInt. destruct s as [|c r]; [done|].
  destruct (if Ascii.eqb c "+" then _ else _) as [neg body].
  destruct body; [done|]. destruct (parse_digits _ _); [|done].
  destruct (_ && _) eqn:E; [|done]. intros [= <-].
  apply andb_true_iff in E as [?%Z.leb_le ?%Z.leb_le]. done.
Qed.

End kv_numbers.

Section kv_rate_limit.

Import kv kv_spec.

Lemma incr64_range n : - 2 ^ 63 <= incr64 n <= 2 ^ 63 - 1.
Proof.
  unfold incr64.
  pose proof (Z.mod_pos_bound (n + 1 + 2 ^ 63) (2 ^ 64) ltac:(lia)). lia.
Qed.

(** A call that succeeds leaves the count it returns in the store, in
    decimal, with the expiry it was given. *)
Lemma IncrementRateLimit_written s p ttl now s1 n :
  IncrementRateLimit s p ttl now = Done (s1, (n, None)) →
  p ≠ "" ∧ - 2 ^ 63 <= n <= 2 ^ 63 - 1 ∧
  ∃ e, data s1 !! makeKey NamespaceRateLimits p = Some e
       ∧ value e = pretty n
       ∧ expiresAt e = (if 0 <? ttl then Some (now + ttl) else None).
Proof.
  unfold IncrementRateLimit.
  destruct (String.eqb_spec p "") as [|Hp]; [done|].
  assert (∀ s0,
    match setLocked s0 NamespaceRateLimits p "1" ttl now with
    | Done (s1, err) =>
        match err with
        | Some err => Done (s1, (0, Some err))
        | None => Done (s1, (1, None))
        end
    | Panic => Panic
    | OutOfFuel => OutOfFuel
    end = Done (s1, (n, None)) →
    p ≠ "" ∧ - 2 ^ 63 <= n <= 2 ^ 63 - 1 ∧
    ∃ e, data s1 !! makeKey NamespaceRateLimits p = Some e
         ∧ value e = pretty n
         ∧ expiresAt e = (if 0 <? ttl then Some (now + ttl) else None))
    as Hfresh.
  { intros s0.
    destruct (setLocked s0 _ _ _ _ _) as [[s' [err|]]| |] eqn:E; try done.
    intros [= <- <-].
    apply setLocked_written in E as (e & He & _ & _ & Hv & Hx & _).
    split; [done|]. split; [lia|]. by exists e. }
  destruct (data s !! _) as [e0|]; [|by apply Hfresh].
  destruct (expired e0 now); [by apply Hfresh|].
  destruct (ParseInt (value e0)) as [count|]; [|done].
  destruct (setLocked s _ _ _ _ _) as [[s' [err|]]| |] eqn:E;
    cbn [mbind exec_bind]; try done.
  intros [= <- <-].
  apply setLocked_written in E as (e & He & _ & _ & Hv & Hx & _).
  split; [done|]. split; [apply incr64_range|]. by exists e.
Qed.

End kv_rate_limit.

(** X8.  The rate-limit counter counts.  After a call of
    [IncrementRateLimit] that returned [n], the next successful call for
    the same partner returns [n + 1] as long as the entry has not
    expired (no time to live, or a time up to [now + ttl]), and starts
    again at 1 once it has; a call restarts the time to live, since it
    rewrites the entry.  ([n + 1] is the int64 successor: the
    hypothesis [n < 2^63 - 1] leaves the wrap-around out.) *)
Theorem X8_rate_limit_counts
  (s s1 : kv.MemoryStore) (p : string) (ttl now n : Z) :
  kv.IncrementRateLimit s p ttl now = Done (s1, (n, None)) →
  (∀ ttl' now' s2 m,
     (0 < ttl → now' <= now + ttl) → n < 2 ^ 63 - 1 →
     kv.IncrementRateLimit s1 p ttl' now' = Done (s2, (m, None)) →
     m = n + 1) ∧
  (∀ ttl' now' s2 m,
     0 < ttl → now + ttl < now' →
     kv.IncrementRateLimit s1 p ttl' now' = Done (s2, (m, None)) →
     m = 1).
Proof.
  intros (Hp & Hn & e & He & Hv & Hx)%IncrementRateLimit_written.
  split.
  - intros ttl' now' s2 m Ht Hmax. unfold kv.IncrementRateLimit.
    destruct (String.eqb_spec p ""); [done|]. rewrite He.
    assert (kv.expired e now' = false) as ->.
    { unfold kv.expired. rewrite Hx.
      destruct (Z.ltb_spec 0 ttl); [|done]. apply Z.ltb_ge. auto. }
    rewrite Hv, ParseInt_pretty by done.
    destruct (kv.setLocked _ _ _ _ _ _) as [[s' [err|]]| |];
      cbn [mbind exec_bind]; try done.
    intros [= _ <-]. apply incr64_small. lia.
  - intros ttl' now' s2 m Ht Hlate. unfold kv.IncrementRateLimit.
    destruct (String.eqb_spec p ""); [done|]. rewrite He.
    assert (kv.expired e now' = true) as ->.
    { unfold kv.expired. rewrite Hx.
      destruct (Z.ltb_spec 0 ttl); [|lia]. by apply Z.ltb_lt. }
    destruct (kv.setLocked _ _ _ _ _ _) as [[s' [err|]]| |];
      cbn [mbind exec_bind]; try done.
    by intros [= _ <-].
Qed.

Lemma X8_rate_limit_counts_witness :
  kv.IncrementRateLimit kv_examples.small "partner" 10 0
    = Done (small_counted_once, (1, None))
  ∧ (∃ m, kv.IncrementRateLimit small_counted_once "partner" 10 10
          = Done (small_counted_twice, (m, None)) ∧ m = 1 + 1)
  ∧ (∃ s3 m, kv.IncrementRateLimit small_counted_twice "partner" 10 21
             = Done (s3, (m, None)) ∧ m = 1).
Proof.
  assert (kv.IncrementRateLimit kv_examples.small "partner" 10 0
          = Done (small_counted_once, (1, None))) as E1
    by (vm_compute; reflexivity).
  assert (kv.IncrementRateLimit small_counted_once "partner" 10 10
          = Done (small_counted_twice, (2, None))) as E2
    by (vm_compute; reflexivity).
  destruct (X8_rate_limit_counts kv_examples.small small_counted_once
              "partner" 10 0 1 E1) as [Hnext _].
  destruct (X8_rate_limit_counts small_counted_once small_counted_twice
              "partner" 10 10 2 E2) as [_ Hrestart].
  split; [exact E1|]. split.
  - exists 2. split; [exact E2|].
    apply (Hnext 10 10 small_counted_twice 2); [lia | lia | exact E2].
  - eexists _, 1. split; [vm_compute; reflexivity|].
    eapply (Hrestart 10 21); [lia | lia | vm_compute; reflexivity].
Defined.

Section kv_rate_limit_errors.

Import kv kv_spec.

(** On a consistent store a write goes through whenever the entry fits
    the budget on its own. *)
Lemma setLocked_fits s ns k v ttl now :
  Inv s → len (makeKey ns k) + len v + 64 <= maxBytes s →
  ∃ s', setLocked s ns k v ttl now = Done (s', None).
Proof.
  intros HI Hfit. unfold setLocked.
  set (K := makeKey ns k) in *.
  set (entrySize := len K + len v + 64) in *.
  set (s1 := match data s !! K with
             | Some existing => _
             | None => s
             end).
  assert (Inv (hide K s1) ∧ maxBytes s1 = maxBytes s) as (HI1 & Hm1).
  { unfold s1. destruct (data s !! K) as [ex|] eqn:Ex.
    - split; [|done].
      change (Inv (deleteEntryLocked s K ex)).
      by apply Inv_deleteEntryLocked.
    - by rewrite hide_absent. }
  destruct (evict_loop_room K entrySize (S (size (data s1))) s1 HI1
              ltac:(lia) ltac:(lia)) as (s2 & ->).
  cbn. by eexists.
Qed.

(** The only error of a write is [ErrMemoryLimit]. *)
Lemma setLocked_error s ns k v ttl now s' err :
  setLocked s ns k v ttl now = Done (s', Some err) → err = ErrMemoryLimit.
Proof.
  unfold setLocked.
  destruct (evict_loop _ _ _) as [[s1 room]| |]; cbn [mbind exec_bind];
    [|done..].
  destruct room; cbn [negb]; [done|]. by intros [= _ <-].
Qed.

End kv_rate_limit_errors.

(** X9.  [IncrementRateLimit] writes through [setLocked], past the
    checks of [Set]: on a consistent store, the first call for a partner
    returns 1 whenever the counter entry fits the byte budget, whatever
    the length of the partner's name and however many keys the
    [rate_limits] namespace holds. *)
Theorem X9_rate_limit_skips_key_checks
  (s : kv.MemoryStore) (p : string) (ttl now : Z) :
  kv_spec.Inv s → p ≠ "" →
  kv.data s !! kv.makeKey kv.NamespaceRateLimits p = None →
  kv.len (kv.makeKey kv.NamespaceRateLimits p) + 1 + 64 <= kv.maxBytes s →
  ∃ s', kv.IncrementRateLimit s p ttl now = Done (s', (1, None)).
Proof.
  intros HI Hp Hnew Hfit. unfold kv.IncrementRateLimit.
  destruct (String.eqb_spec p ""); [done|]. rewrite Hnew.
  destruct (setLocked_fits s kv.NamespaceRateLimits p "1" ttl now HI Hfit)
    as (s' & ->).
  by exists s'.
Qed.

(** A partner name of seven bytes on a store whose keys may have four:
    [Set] refuses the key, [IncrementRateLimit] takes it. *)
Lemma X9_rate_limit_skips_key_checks_witness :
  kv.Set_ short_keys kv.NamespaceRateLimits "partner" "1" 10 0
    = Done (short_keys, Some ErrKeyTooLong)
  ∧ ∃ s', kv.IncrementRateLimit short_keys "partner" 10 0
          = Done (s', (1, None)).
Proof.
  split; [vm_compute; reflexivity|].
  apply (X9_rate_limit_skips_key_checks short_keys "partner" 10 0).
  - apply Inv_fresh. lia.
  - discriminate.
  - reflexivity.
  - vm_compute. discriminate.
Defined.

(** X10.  The errors of [IncrementRateLimit]: it fails on an empty
    partner name ([ErrKeyEmpty]), on a live entry that is not a decimal
    int64 (invalid counter value), or for lack of memory
    ([ErrMemoryLimit]), and with nothing else; the count returned with
    an error is 0, and in the first two cases the store is left as it
    was, so that an entry that does not parse keeps failing until it
    expires. *)
Theorem X10_rate_limit_errors
  (s s' : kv.MemoryStore) (p : string) (ttl now n : Z) (err : error) :
  kv.IncrementRateLimit s p ttl now = Done (s', (n, Some err)) →
  n = 0 ∧
  ((err = ErrKeyEmpty ∧ p = "" ∧ s' = s)
   ∨ (err = ErrInvalidCounter ∧ s' = s ∧
      ∃ e, kv.data s !! kv.makeKey kv.NamespaceRateLimits p = Some e
           ∧ kv.expired e now = false ∧ kv.ParseInt (kv.value e) = None)
   ∨ err = ErrMemoryLimit).
Proof.
  unfold kv.IncrementRateLimit.
  destruct (String.eqb_spec p "") as [->|Hp].
  { intros [= <- <- <-]. split; [done|]. by left. }
  assert (∀ s0,
    match kv.setLocked s0 kv.NamespaceRateLimits p "1" ttl now with
    | Done (s1, err) =>
        match err with
        | Some err => Done (s1, (0, Some err))
        | None => Done (s1, (1, None))
        end
    | Panic => Panic
    | OutOfFuel => OutOfFuel
    end = Done (s', (n, Some err)) → n = 0 ∧ err = ErrMemoryLimit) as Hfresh.
  { intros s0.
    destruct (kv.setLocked s0 _ _ _ _ _) as [[s1 [err1|]]| |] eqn:E; try done.
    intros [= <- <- <-]. by apply setLocked_error in E. }
  destruct (kv.data s !! _) as [e|] eqn:He.
  2: { intros H. apply Hfresh in H as [-> ->]. split; [done|]. by right; right. }
  destruct (kv.expired e now) eqn:Hx.
  { intros H. apply Hfresh in H as [-> ->]. split; [done|]. by right; right. }
  destruct (kv.ParseInt (kv.value e)) as [count|] eqn:EP.
  - destruct (kv.setLocked s _ _ _ _ _) as [[s1 [err1|]]| |] eqn:E;
      cbn [mbind exec_bind]; try done.
    intros [= <- <- <-]. apply setLocked_error in E. split; [done|].
    by right; right.
  - intros [= <- <- <-]. split; [done|]. right; left.
    split_and!; try done. by exists e.
Qed.

Lemma X10_rate_limit_errors_witness :
  ∃ s1,
    kv.Set_ kv_examples.small kv.NamespaceRateLimits "partner" "many" 0 0
      = Done (s1, None)
    ∧ kv.IncrementRateLimit s1 "partner" 10 1
      = Done (s1, (0, Some ErrInvalidCounter)).
Proof.
  eexists. split; [vm_compute; reflexivity|].
  match goal with |- ?x = Done (?s1, _) =>
    assert (x = Done (s1, (0, Some ErrInvalidCounter))) as E
      by (vm_compute; reflexivity)
  end.
  destruct (X10_rate_limit_errors _ _ _ _ _ _ _ E) as [_ _]. exact E.
Defined.

(** ** KV store: cleanup *)

Section kv_cleanup.

Import kv kv_spec.

Lemma cleanup_step_data s fk :
  data (match data s !! fk with
        | Some e => deleteEntryLocked s fk e
        | None => s
        end) = delete fk (data s).
Proof.
  destruct (data s !! fk) eqn:E; [done|]. by rewrite delete_id.
Qed.

Lemma cleanup_fold_lookup l : ∀ s k,
  data (foldl (λ s fullKey,
                 match data s !! fullKey with
                 | Some e => deleteEntryLocked s fullKey e
                 | None => s
                 end) s l) !! k
  = if decide (k ∈ l) then None else data s !! k.
Proof.
  induction l as [|fk l IH]; intros s k; [done|].
  cbn [foldl]. rewrite IH, cleanup_step_data.
  destruct (decide (k = fk)) as [->|Hne].
  - rewrite lookup_delete_eq, (decide_True _ _ (list_elem_of_here fk l)).
    by case_decide.
  - rewrite lookup_delete_ne by done.
    repeat case_decide; try done.
    + exfalso. by rewrite elem_of_cons in *; tauto.
    + exfalso. by rewrite elem_of_cons in *; tauto.
Qed.

Lemma cleanup_data s now : data (cleanup s now) = live (data s) now.
Proof.
  apply map_eq. intros k. unfold cleanup, live.
  rewrite cleanup_fold_lookup.
  set (P := λ kv : string * entry, expired kv.2 now = true).
  assert (k ∈ map fst (map_to_list (filter P (data s)))
          ↔ ∃ e, data s !! k = Some e ∧ expired e now = true) as Hin.
  { rewrite list_elem_of_fmap. split.
    - intros ([k' e] & -> & H%elem_of_map_to_list).
      apply map_lookup_filter_Some in H as [H HP]. by exists e.
    - intros (e & He & Hx). exists (k, e). split; [done|].
      apply elem_of_map_to_list, map_lookup_filter_Some. done. }
  destruct (data s !! k) as [e|] eqn:He.
  - destruct (expired e now) eqn:Hx.
    + rewrite decide_True by (apply Hin; by exists e).
      symmetry. apply map_lookup_filter_None. right. intros e' He' Hx'.
      simpl in Hx'. congruence.
    + rewrite decide_False.
      * symmetry. by apply map_lookup_filter_Some.
      * intros (e' & He' & Hx')%Hin. congruence.
  - case_decide; symmetry; apply map_lookup_filter_None; by left.
Qed.

End kv_cleanup.

(** X11.  [cleanup] purges the expired entries, all of them and only
    them: the map it leaves is the map of the entries that have not
    expired at the time of the call, and on a consistent store the byte
    counter is the sum of their sizes. *)
Theorem X11_cleanup_purges_the_expired (s : kv.MemoryStore) (now : Z) :
  kv.data (kv.cleanup s now) = kv_spec.live (kv.data s) now
  ∧ (kv_spec.Inv s →
     kv.currentBytes (kv.cleanup s now)
     = kv_spec.total_bytes (kv_spec.live (kv.data s) now)).
Proof.
  split; [apply cleanup_data|].
  intros HI. destruct (cleanup_Inv s now HI) as [HI' _].
  rewrite (kv_spec.inv_bytes _ HI'). by rewrite cleanup_data.
Qed.

(** ** KV store: full keys *)

Section kv_keys.

Import kv.

Lemma free_of_String c x s :
  free_of c (String x s) = negb (Ascii.eqb x c) && free_of c s.
Proof. reflexivity. Qed.

(** Two strings split at the first occurrence of a separator. *)
Lemma free_of_split c a1 : ∀ a2 b1 b2,
  free_of c a1 = true → free_of c a2 = true →
  a1 +:+ String c b1 = a2 +:+ String c b2 → a1 = a2 ∧ b1 = b2.
Proof.
  induction a1 as [|x a1 IH]; intros [|y a2] b1 b2 H1 H2;
    rewrite ?append_empty, ?append_String.
  - by intros [= ->].
  - intros [= <- _]. rewrite free_of_String, Ascii.eqb_refl in H2. done.
  - intros [= -> _]. rewrite free_of_String, Ascii.eqb_refl in H1. done.
  - intros [= -> E]. rewrite free_of_String in H1, H2.
    apply andb_true_iff in H1 as [_ H1]. apply andb_true_iff in H2 as [_ H2].
    destruct (IH _ _ _ H1 H2 E) as [-> ->]. done.
Qed.

Lemma append_inv_head (a : string) : ∀ b1 b2, a +:+ b1 = a +:+ b2 → b1 = b2.
Proof.
  induction a as [|x a IH]; intros b1 b2;
    rewrite ?append_empty, ?append_String; [done|].
  intros [= E]. by apply IH.
Qed.

Lemma quota_namespace_free ns :
  is_Some (namespaceQuotas !! ns) → free_of ":" ns = true.
Proof.
  intros [q Hq]. unfold namespaceQuotas in Hq.
  apply elem_of_list_to_map_2 in Hq.
  repeat (apply elem_of_cons in Hq as [[= -> _]|Hq]; [reflexivity|]).
  by apply elem_of_nil in Hq.
Qed.

End kv_keys.

(** X12.  Full keys do not collide where it matters: within a namespace
    different keys have different full keys, and across the namespaces
    that have a quota ([quotes], [rate_limits], [circuit_breaker],
    [system]), or any namespaces without a colon, equal full keys mean
    the same namespace and the same key.  (A colon in the namespace
    undoes this: [a:b] with key [c] and [a] with key [b:c] share the
    full key [a:b:c].) *)
Theorem X12_full_keys_are_distinct :
  (∀ ns k k', kv.makeKey ns k = kv.makeKey ns k' → k = k')
  ∧ (∀ ns ns' k k',
       free_of ":" ns = true → free_of ":" ns' = true →
       kv.makeKey ns k = kv.makeKey ns' k' → ns = ns' ∧ k = k')
  ∧ (∀ ns ns' k k',
       is_Some (kv.namespaceQuotas !! ns) →
       is_Some (kv.namespaceQuotas !! ns') →
       kv.makeKey ns k = kv.makeKey ns' k' → ns = ns' ∧ k = k')
  ∧ kv.makeKey "a:b" "c" = kv.makeKey "a" "b:c".
Proof.
  split_and!.
  - intros ns k k' E. unfold kv.makeKey in E.
    apply append_inv_head in E. by injection E.
  - intros ns ns' k k' H1 H2 E.
    by apply (free_of_split ":" ns ns' k k').
  - intros ns ns' k k' H1%quota_namespace_free H2%quota_namespace_free E.
    by apply (free_of_split ":" ns ns' k k').
  - reflexivity.
Qed.

(** ** KV store: quotes and the ledger index *)

Section kv_quotes.

Import kv.
Local Open Scope nat_scope.

Lemma hex_value_digit n : n < 16 → hex_value (hex_digit n) = n.
Proof.
  intros H. do 16 (destruct n as [|n]; [reflexivity|]). lia.
Qed.

Lemma byte_of_hex_digits a b :
  a < 256 → b < 256 →
  hex_digit (a / 16) = hex_digit (b / 16) →
  hex_digit (a mod 16) = hex_digit (b mod 16) → a = b.
Proof.
  intros Ha Hb H1 H2.
  apply (f_equal hex_value) in H1, H2.
  rewrite !hex_value_digit in H1, H2;
    try (apply Nat.mod_upper_bound; lia);
    try (apply Nat.Div0.div_lt_upper_bound; lia).
  rewrite (Nat.div_mod_eq a 16), (Nat.div_mod_eq b 16). lia.
Qed.

Lemma EncodeToString_inj h : ∀ h',
  EncodeToString h = EncodeToString h' → h = h'.
Proof.
  induction h as [|c h IH]; intros [|c' h']; cbn [EncodeToString]; try done.
  intros [= H1 H2 E]. f_equal; [|by apply IH].
  rewrite <- (ascii_nat_embedding c), <- (ascii_nat_embedding c').
  f_equal. apply byte_of_hex_digits; try done; apply nat_ascii_bounded.
Qed.

Lemma EncodeToString_length h :
  String.length (EncodeToString h) = 2 * String.length h.
Proof.
  induction h as [|c h IH]; [done|]. cbn [EncodeToString String.length]. lia.
Qed.

End kv_quotes.

Section kv_ledger.

Import kv.

(** [strconv.ParseUint] reads back what [strconv.FormatUint] writes of a
    uint32. *)
Lemma ParseUint32_pretty (idx : Z) :
  0 <= idx <= 2 ^ 32 - 1 → ParseUint32 (pretty idx) = Some idx.
Proof.
  intros Hi. unfold pretty, pretty_Z. destruct idx as [|p|p]; [done| |lia].
  change (pretty p) with (pretty (N.pos p)).
  pose proof (parse_digits_pretty_N (N.pos p)) as Hp.
  pose proof (pretty_N_nonempty (N.pos p)) as Hne.
  unfold ParseUint32. destruct (pretty (N.pos p)) as [|c r]; [done|].
  rewrite Hp. simpl Z.of_N.
  destruct (Z.leb_spec (Z.pos p) (2 ^ 32 - 1)); [done|lia].
Qed.

End kv_ledger.

(** X13.  Quotes are kept under the hexadecimal form of their hash:
    different hashes have different keys, and a quote stored by
    [SetQuote] is the one [GetQuote] returns for the same hash until its
    time to live has passed. *)
Theorem X13_quote_round_trip
  (s s' : kv.MemoryStore) (hash route : string) (ttl now now' : Z) :
  kv.SetQuote s hash route ttl now = Done (s', None) →
  (0 < ttl → now' <= now + ttl) →
  (kv.GetQuote s' hash now').2 = Some route
  ∧ ∀ other, other ≠ hash →
      kv.makeKey kv.NamespaceQuotes (kv.EncodeToString other)
      ≠ kv.makeKey kv.NamespaceQuotes (kv.EncodeToString hash).
Proof.
  unfold kv.SetQuote, kv.GetQuote.
  intros (Hns & Hk & e & He & _ & _ & Hv & Hx & _)%Set_written Ht. split.
  - rewrite <- Hv. apply Get_live; try done.
    unfold kv.expired. rewrite Hx.
    destruct (Z.ltb_spec 0 ttl); [|done]. apply Z.ltb_ge. auto.
  - intros other Hne E. apply Hne. unfold kv.makeKey in E.
    apply append_inv_head in E. injection E as E.
    by apply EncodeToString_inj.
Qed.

Lemma X13_quote_round_trip_witness :
  ∃ s', kv.SetQuote kv_examples.small hash_of_x "route" 100 0 = Done (s', None)
        ∧ (kv.GetQuote s' hash_of_x 100).2 = Some "route".
Proof.
  eexists. split; [vm_compute; reflexivity|].
  eapply (X13_quote_round_trip kv_examples.small _ hash_of_x "route" 100 0 100).
  - vm_compute. reflexivity.
  - lia.
Defined.

(** X14.  The ledger index comes back as it was stored: after a
    [SetLedgerIndex] that succeeded, [GetLedgerIndex] returns the index
    and [true], for every uint32. *)
Theorem X14_ledger_index_round_trip
  (s s' : kv.MemoryStore) (idx now now' : Z) :
  0 <= idx <= 2 ^ 32 - 1 →
  kv.SetLedgerIndex s idx now = Done (s', None) →
  (kv.GetLedgerIndex s' now').2 = (idx, true).
Proof.
  intros Hi. unfold kv.SetLedgerIndex, kv.GetLedgerIndex.
  intros (Hns & Hk & e & He & _ & _ & Hv & Hx & _)%Set_written.
  pose proof (Get_live s' kv.NamespaceSystem "ledger_index" e now' Hns Hk He)
    as HG.
  destruct (kv.Get s' kv.NamespaceSystem "ledger_index" now') as [s2 r].
  simpl in HG. rewrite HG by (unfold kv.expired; by rewrite Hx).
  by rewrite Hv, ParseUint32_pretty.
Qed.

Lemma X14_ledger_index_round_trip_witness :
  ∃ s', kv.SetLedgerIndex kv.NewMemoryStore 4294967295 0 = Done (s', None)
        ∧ (kv.GetLedgerIndex s' 1).2 = (4294967295, true).
Proof.
  eexists. split; [vm_compute; reflexivity|].
  eapply (X14_ledger_index_round_trip kv.NewMemoryStore _ 4294967295 0 1).
  - lia.
  - vm_compute. reflexivity.
Defined.

(** ** KV store: what a write leaves alone *)

Section kv_frame.

Import kv kv_spec.

Lemma evictOldest_sub s K :
  data (evictOldest s).1 !! K = None
  ∨ data (evictOldest s).1 !! K = data s !! K.
Proof.
  unfold evictOldest. destruct (Back (lru s)) as [[id fk]|]; [|by right].
  destruct (data s !! fk) as [e|]; [|by right]. cbn.
  destruct (decide (K = fk)) as [->|].
  - left. apply lookup_delete_eq.
  - right. by rewrite lookup_delete_ne.
Qed.

Lemma evict_loop_sub entrySize fuel K : ∀ s s' room,
  evict_loop fuel s entrySize = Done (s', room) →
  data s' !! K = None ∨ data s' !! K = data s !! K.
Proof.
  induction fuel as [|fuel IH]; intros s s' room; [done|].
  cbn [evict_loop]. destruct (_ <? _); [|intros [= <- _]; by right].
  pose proof (evictOldest_sub s K) as H.
  destruct (evictOldest s) as [s1 []]; simpl in H.
  - intros E. apply IH in E. destruct E as [E|E]; [by left|].
    destruct H as [H|H]; [left|right]; congruence.
  - intros [= <- _]. exact H.
Qed.

Lemma setLocked_frame s ns k v ttl now s' err K :
  setLocked s ns k v ttl now = Done (s', err) → K ≠ makeKey ns k →
  data s' !! K = None ∨ data s' !! K = data s !! K.
Proof.
  unfold setLocked. intros H HK. revert H.
  set (s1 := match data s !! makeKey ns k with
             | Some existing => _
             | None => s
             end).
  assert (data s1 = data s) as Hd.
  { unfold s1. by destruct (data s !! makeKey ns k). }
  destruct (evict_loop _ s1 _) as [[s2 room]| |] eqn:E; cbn [mbind exec_bind];
    [|done..].
  apply (evict_loop_sub _ _ K) in E. rewrite Hd in E.
  destruct room; cbn [negb]; intros [= <- _]; [|done].
  cbn. by rewrite lookup_insert_ne.
Qed.

End kv_frame.

(** X15.  A [Set] never rewrites another entry: whatever it returns,
    every other full key holds afterwards what it held before, unless
    the entry was evicted to make room. *)
Theorem X15_set_leaves_other_entries
  (s s' : kv.MemoryStore) (ns k v : string) (ttl now : Z)
  (err : option error) (other : string) :
  kv.Set_ s ns k v ttl now = Done (s', err) →
  other ≠ kv.makeKey ns k →
  kv.data s' !! other = None ∨ kv.data s' !! other = kv.data s !! other.
Proof.
  unfold kv.Set_. destruct (kv.validate _ _ _ _); [intros [= <- _]; by right|].
  destruct (kv.checkNamespaceQuota _ _ _); [intros [= <- _]; by right|].
  apply setLocked_frame.
Qed.

Lemma X15_set_leaves_other_entries_witness :
  ∃ s' err,
    kv.Set_ small_with_two "test" "key3" kv_examples.value100 0 1
      = Done (s', err)
    ∧ (kv.data s' !! "test:key1" = None
       ∨ kv.data s' !! "test:key1" = kv.data small_with_two !! "test:key1").
Proof.
  eexists _, _. split; [vm_compute; reflexivity|].
  eapply (X15_set_leaves_other_entries small_with_two _ "test" "key3"
            kv_examples.value100 0 1).
  - vm_compute. reflexivity.
  - discriminate.
Defined.

(** ** KV store: statistics *)

Section kv_stats.

Import kv.

Lemma sum_counts_insert (m : gmap string Z) k c :
  sum_counts (<[k := c]> m) = c - default 0 (m !! k) + sum_counts m.
Proof.
  unfold sum_counts.
  assert (∀ (m' : gmap string Z) j x, m' !! j = None →
            map_fold (λ _ c acc, c + acc) 0 (<[j := x]> m')
            = x + map_fold (λ _ c acc, c + acc) 0 m') as Hins.
  { intros m' j x Hj.
    rewrite (map_fold_insert_L (λ _ c acc, c + acc)); [done| |done].
    intros; lia. }
  destruct (m !! k) as [c0|] eqn:E; simpl.
  - rewrite <- (insert_delete_eq m k c).
    rewrite <- (insert_id m k c0) at 2 by done.
    rewrite <- (insert_delete_eq m k c0).
    rewrite !Hins by apply lookup_delete_eq. lia.
  - rewrite Hins by done. lia.
Qed.

(** What the loop of [Stats] has counted after any part of the map. *)
Lemma count_entries (now : Z) (d : gmap string entry) :
  let r := map_fold (λ _ e acc, count_entry now e acc) (∅, 0) d in
  (∀ ns, default 0 (r.1 !! ns)
         = Z.of_nat (size (filter
             (λ kv : string * entry,
                namespace kv.2 = ns ∧ unexpired kv.2 now = true) d)))
  ∧ r.2 = sum_counts r.1
  ∧ (∀ ns c, r.1 !! ns = Some c → 0 < c).
Proof.
  cbv zeta.
  apply (map_fold_weak_ind (λ (r : gmap string Z * Z) (d : gmap string entry),
    (∀ ns, default 0 (r.1 !! ns)
           = Z.of_nat (size (filter
               (λ kv : string * entry,
                  namespace kv.2 = ns ∧ unexpired kv.2 now = true) d)))
    ∧ r.2 = sum_counts r.1
    ∧ (∀ ns c, r.1 !! ns = Some c → 0 < c))); clear d.
  { cbn [fst snd]. split_and!; [|done|].
    - intros ns. by rewrite map_filter_empty, map_size_empty.
    - intros ns c. by rewrite lookup_empty. }
  intros i e d [counts total] Hi (IH1 & IH2 & IH3). cbn [fst snd] in *.
  unfold count_entry. cbn [fst snd].
  destruct (unexpired e now) eqn:Hu; cbn [fst snd].
  - split_and!.
    + intros ns. destruct (decide (namespace e = ns)) as [<-|Hne].
      * rewrite lookup_insert_eq. simpl.
        rewrite map_filter_insert_True by done.
        rewrite map_size_insert_None
          by (apply map_lookup_filter_None; by left).
        rewrite IH1. lia.
      * rewrite lookup_insert_ne by done.
        rewrite map_filter_insert_False by (intros [? _]; done).
        rewrite delete_id by done. apply IH1.
    + rewrite sum_counts_insert. lia.
    + intros ns c. destruct (decide (namespace e = ns)) as [<-|Hne].
      * rewrite lookup_insert_eq. intros [= <-].
        destruct (counts !! namespace e) as [c0|] eqn:E; simpl; [|lia].
        pose proof (IH3 _ _ E). lia.
      * rewrite lookup_insert_ne by done. apply IH3.
  - split_and!; [|done..].
    intros ns. rewrite map_filter_insert_False.
    + rewrite delete_id by done. apply IH1.
    + intros [_ Hy]. simpl in Hy. congruence.
Qed.

End kv_stats.

(** X16.  [Stats], [Keys] and the quota check count the same entries:
    the count [Stats] reports for a namespace is the number of keys
    [Keys] lists for it and the number the namespace quota is compared
    with; [TotalKeys] is the sum of the counts; and a namespace without
    an entry that counts has no count at all. *)
Theorem X16_stats_keys_and_quota_agree (s : kv.MemoryStore) (now : Z) :
  (∀ ns,
     default 0 (kv.NamespaceCounts (kv.Stats_ s now) !! ns)
     = kv.live_count s ns now
     ∧ Z.of_nat (length (kv.Keys s ns now)) = kv.live_count s ns now
     ∧ (kv.live_count s ns now = 0 →
        kv.NamespaceCounts (kv.Stats_ s now) !! ns = None))
  ∧ kv.TotalKeys (kv.Stats_ s now)
    = sum_counts (kv.NamespaceCounts (kv.Stats_ s now))
  ∧ kv.CurrentBytes (kv.Stats_ s now) = kv.currentBytes s.
Proof.
  pose proof (count_entries now (kv.data s)) as H. cbv zeta in H.
  unfold kv.Stats_.
  destruct (map_fold _ _ _) as [counts total]. cbn [fst snd] in H.
  destruct H as (H1 & H2 & H3). cbn.
  split_and!; try done.
  intros ns. unfold kv.live_count, kv.Keys. split_and!.
  - apply H1.
  - by rewrite length_map, length_map_to_list.
  - intros H0. destruct (counts !! ns) as [c|] eqn:E; [|done].
    pose proof (H3 _ _ E). pose proof (H1 ns) as Hc.
    rewrite E in Hc. simpl in Hc. unfold kv.live_count in H0. lia.
Qed.

(** ** Circuit breaker: accepted prices *)

Section breaker_accept.

Variable NewFromFloat : PrimFloat.float → decimal.Decimal.

Lemma recordPrice_states cb key st price :
  states (recordPrice cb key st price)
  = <[key := {| pair := pair st;
                recentPrices := window (recentPrices st) price;
                lastTradeTs := lastTradeTs st; state := state st;
                failures := failures st; openedAt := openedAt st |}]>
      (states cb).
Proof.
  unfold recordPrice, window. cbn.
  by destruct (persistCallback cb).
Qed.

Lemma evaluate_accept cb key st price now :
  recentPrices st ≠ [] → in_threshold NewFromFloat cb st price now →
  ∃ cb', evaluate NewFromFloat cb key st price now = Done (cb', None)
         ∧ states cb' = <[key := accepted st price]> (states cb).
Proof.
  intros Hne (dev & Hd & Hg). unfold evaluate.
  rewrite (length_nonempty _ Hne), Hd. cbn [mbind exec_bind]. rewrite Hg.
  eexists. split; [reflexivity|].
  rewrite recordPrice_states. unfold accepted.
  destruct (bool_decide (state st = StateHalfOpen)); cbn.
  - by rewrite insert_insert_eq.
  - by rewrite insert_insert_eq.
Qed.

Lemma evaluate_first cb key st price now :
  recentPrices st = [] →
  evaluate NewFromFloat cb key st price now
  = Done (recordPrice cb key st price, None).
Proof. intros E. unfold evaluate. by rewrite E. Qed.

End breaker_accept.

(** X17.  An accepted price.  For a pair that is not open and has
    prices on record, a check whose price is within the threshold
    returns no error and appends the price to the window; from
    half-open the pair goes back to closed with its failures reset to
    0; in the closed state the failure count is left as it is, so
    rejections add up across accepted prices. *)
Theorem X17_accepted_price
  (NewFromFloat : PrimFloat.float → decimal.Decimal)
  (cb : CircuitBreaker) (pair_ : string) (st : breakerState)
  (price : decimal.Decimal) (now : Z) :
  states cb !! pair_ = Some st →
  state st ≠ StateOpen →
  recentPrices st ≠ [] →
  in_threshold NewFromFloat cb st price now →
  ∃ cb' st',
    CheckPrice NewFromFloat cb pair_ price now = Done (cb', None)
    ∧ states cb' !! pair_ = Some st'
    ∧ recentPrices st' = window (recentPrices st) price
    ∧ state st' = StateClosed
    ∧ (state st = StateHalfOpen → failures st' = 0)
    ∧ (state st = StateClosed → failures st' = failures st)
    ∧ openedAt st' = openedAt st.
Proof.
  intros Hst Hno Hne Hin.
  rewrite (CheckPrice_not_open NewFromFloat cb pair_ st price now Hst Hno).
  destruct (evaluate_accept NewFromFloat cb pair_ st price now Hne Hin)
    as (cb' & -> & Hs).
  exists cb', (accepted st price). split; [done|].
  split; [by rewrite Hs, lookup_insert_eq|].
  unfold accepted. cbn.
  destruct (state st) eqn:E; try done; split_and!; done.
Qed.

(** A pair half-open with two failures counted and the mean at 1.0: the
    price 1.0 is accepted, and the pair is closed with no failure. *)
Lemma X17_accepted_price_witness :
  ∃ cb' st',
    CheckPrice NewFromFloat_0_05 (breaker_with (primed StateHalfOpen 2))
      "XRP-USD" price_1_0 77 = Done (cb', None)
    ∧ states cb' !! "XRP-USD" = Some st'
    ∧ state st' = StateClosed ∧ failures st' = 0.
Proof.
  destruct (X17_accepted_price NewFromFloat_0_05
              (breaker_with (primed StateHalfOpen 2)) "XRP-USD"
              (primed StateHalfOpen 2) price_1_0 77)
    as (cb' & st' & H1 & H2 & _ & H3 & H4 & _).
  - vm_compute. reflexivity.
  - discriminate.
  - discriminate.
  - exists (decimal.New 0 (-16)). split; vm_compute; reflexivity.
  - exists cb', st'. split_and!; [exact H1 | exact H2 | exact H3 |].
    apply H4. reflexivity.
Defined.

(** X18.  The first price of a pair is accepted unseen: a check for a
    pair the breaker does not know, or knows with an empty window and
    not open, returns no error whatever the price, and leaves the pair
    with that single price on record. *)
Theorem X18_first_price_is_accepted
  (NewFromFloat : PrimFloat.float → decimal.Decimal)
  (cb : CircuitBreaker) (pair_ : string)
  (price : decimal.Decimal) (now : Z) :
  (states cb !! pair_ = None
   ∨ ∃ st, states cb !! pair_ = Some st ∧ state st ≠ StateOpen
           ∧ recentPrices st = []) →
  ∃ cb' st',
    CheckPrice NewFromFloat cb pair_ price now = Done (cb', None)
    ∧ states cb' !! pair_ = Some st'
    ∧ recentPrices st' = [price]
    ∧ (states cb !! pair_ = None →
       state st' = StateClosed ∧ failures st' = 0).
Proof.
  intros [Hnone|(st & Hst & Hno & Hempty)].
  - unfold CheckPrice, getOrCreateState. rewrite Hnone. cbv beta iota zeta.
    rewrite bool_decide_eq_false_2 by (cbn; discriminate).
    rewrite evaluate_first by done.
    eexists _, _. split; [reflexivity|].
    rewrite recordPrice_states, lookup_insert_eq. by split_and!.
  - rewrite (CheckPrice_not_open NewFromFloat cb pair_ st price now Hst Hno).
    rewrite evaluate_first by done.
    eexists _, _. split; [reflexivity|].
    rewrite recordPrice_states, lookup_insert_eq.
    split; [done|]. split; [by rewrite Hempty|]. by rewrite Hst.
Qed.

Lemma X18_first_price_is_accepted_witness :
  ∃ cb' st',
    CheckPrice NewFromFloat_0_05 (NewCircuitBreaker 0x1.999999999999ap-5%float 0)
      "XRP-USD" (decimal.New 0 0) 1 = Done (cb', None)
    ∧ states cb' !! "XRP-USD" = Some st'
    ∧ recentPrices st' = [decimal.New 0 0].
Proof.
  destruct (X18_first_price_is_accepted NewFromFloat_0_05
              (NewCircuitBreaker 0x1.999999999999ap-5%float 0) "XRP-USD"
              (decimal.New 0 0) 1) as (cb' & st' & H1 & H2 & H3 & _).
  - left. reflexivity.
  - by exists cb', st'.
Defined.

(** X19.  A mean of zero makes the check panic: for a pair that is not
    open, with prices on record whose mean [calculateAverage] computes
    as zero, [CheckPrice] divides by that mean and panics, whatever the
    price. *)
Theorem X19_zero_mean_panics
  (NewFromFloat : PrimFloat.float → decimal.Decimal)
  (cb : CircuitBreaker) (pair_ : string) (st : breakerState)
  (avg price : decimal.Decimal) (now : Z) :
  states cb !! pair_ = Some st →
  state st ≠ StateOpen →
  recentPrices st ≠ [] →
  calculateAverage (recentPrices st) = Done avg →
  decimal.value avg = 0 →
  CheckPrice NewFromFloat cb pair_ price now = Panic.
Proof.
  intros Hst Hno Hne Havg H0.
  rewrite (CheckPrice_not_open NewFromFloat cb pair_ st price now Hst Hno).
  unfold evaluate. rewrite (length_nonempty _ Hne).
  unfold deviation. rewrite Havg. cbn [mbind exec_bind].
  by rewrite (Div_by_zero _ avg H0).
Qed.

Lemma X19_zero_mean_panics_witness :
  CheckPrice NewFromFloat_0_05 (breaker_with zero_priced) "XRP-USD"
    price_1_0 5 = Panic.
Proof.
  apply (X19_zero_mean_panics NewFromFloat_0_05 (breaker_with zero_priced)
           "XRP-USD" zero_priced (decimal.New 0 (-16)) price_1_0 5).
  - vm_compute. reflexivity.
  - discriminate.
  - discriminate.
  - vm_compute. reflexivity.
  - reflexivity.
Defined.

(** ** Circuit breaker: the window and the persist callback *)

Section breaker_window.

Variable NewFromFloat : PrimFloat.float → decimal.Decimal.

Lemma window_length prices price :
  (length prices <= DefaultMaxPrices)%nat →
  (length (window prices price) <= DefaultMaxPrices)%nat.
Proof.
  intros H. unfold window.
  destruct (Nat.ltb_spec DefaultMaxPrices (length (prices ++ [price])))
    as [Hl|Hl]; [|done].
  rewrite length_drop, length_app. simpl. lia.
Qed.

Lemma recordPrice_persisted cb key st price :
  persisted (recordPrice cb key st price)
  = persisted cb
    ++ (if persistCallback cb
        then [(pair st,
               {| pair := pair st;
                  recentPrices := window (recentPrices st) price;
                  lastTradeTs := lastTradeTs st; state := state st;
                  failures := failures st; openedAt := openedAt st |})]
        else []).
Proof.
  unfold recordPrice, window. cbn.
  destruct (persistCallback cb); cbn; [done|by rewrite app_nil_r].
Qed.

(** What a check that returns does to the pair and to the callback. *)
Lemma evaluate_outcome cb key st price now cb' err :
  evaluate NewFromFloat cb key st price now = Done (cb', err) →
  ∃ st', states cb' = <[key := st']> (states cb) ∧ pair st' = pair st ∧
    ((err = Some ErrCircuitBreakerOpen
      ∧ recentPrices st' = recentPrices st
      ∧ persisted cb' = persisted cb)
     ∨ (err = None
        ∧ recentPrices st' = window (recentPrices st) price
        ∧ persisted cb'
          = persisted cb
            ++ (if persistCallback cb then [(pair st, st')] else []))).
Proof.
  unfold evaluate.
  destruct (length (recentPrices st) =? 0)%nat.
  { intros [= <- <-]. eexists. split; [apply recordPrice_states|].
    split; [done|]. right. split; [done|]. split; [done|].
    apply recordPrice_persisted. }
  destruct (deviation _ _) as [dev| |]; cbn [mbind exec_bind]; [|done..].
  destruct (decimal.GreaterThan _ _).
  - intros [= <- <-]. eexists. split; [reflexivity|].
    destruct (_ <=? _); (split; [done|]); left; by split_and!.
  - intros [= <- <-]. eexists. split.
    { rewrite recordPrice_states. cbn. apply insert_insert_eq. }
    destruct (bool_decide _); cbn; (split; [done|]); right;
      (split; [done|]); (split; [done|]); by rewrite recordPrice_persisted.
Qed.

(** The same for [CheckPrice], from the state the pair is in (a new
    pair starts closed and empty). *)
Lemma CheckPrice_outcome cb pair_ price now cb' err :
  CheckPrice NewFromFloat cb pair_ price now = Done (cb', err) →
  ∃ st st',
    (states cb !! pair_ = Some st
     ∨ (states cb !! pair_ = None ∧ recentPrices st = []))
    ∧ states cb' = <[pair_ := st']> (states cb)
    ∧ ((err = Some ErrCircuitBreakerOpen
        ∧ recentPrices st' = recentPrices st
        ∧ persisted cb' = persisted cb)
       ∨ (err = None
          ∧ recentPrices st' = window (recentPrices st) price
          ∧ persisted cb'
            = persisted cb
              ++ (if persistCallback cb then [(pair st', st')] else []))).
Proof.
  unfold CheckPrice, getOrCreateState.
  destruct (states cb !! pair_) as [st|] eqn:Hst; cbv beta iota zeta.
  - destruct (bool_decide (state st = StateOpen)).
    + destruct (_ <? _).
      * intros (st' & Hs & Hp & H)%evaluate_outcome.
        exists st, st'. split; [by left|]. cbn in Hs.
        rewrite insert_insert_eq in Hs. split; [done|].
        cbn in H, Hp. by rewrite <- Hp in H.
      * intros [= <- <-]. exists st, st. split; [by left|].
        split; [by rewrite insert_id|]. left. by split_and!.
    + intros (st' & Hs & Hp & H)%evaluate_outcome.
      exists st, st'. split; [by left|]. split; [done|].
      by rewrite <- Hp in H.
  - rewrite bool_decide_eq_false_2 by (cbn; discriminate).
    intros (st' & Hs & Hp & H)%evaluate_outcome.
    exists {| pair := pair_; recentPrices := []; lastTradeTs := 0;
              state := StateClosed; failures := 0; openedAt := 0 |}, st'.
    split; [by right|].
    cbn in Hs. rewrite insert_insert_eq in Hs. split; [done|].
    cbn in H. cbn in Hp. by rewrite <- Hp in H.
Qed.

End breaker_window.

Lemma window_cases prices price :
  window prices price
  = if (length prices <? 100)%nat then prices ++ [price]
    else drop 1 prices ++ [price].
Proof.
  unfold window, DefaultMaxPrices. rewrite length_app. cbn [length].
  destruct (Nat.ltb_spec 100 (length prices + 1)) as [H|H];
    destruct (Nat.ltb_spec (length prices) 100) as [H'|H']; try lia; [|done].
  destruct prices; [simpl in H; lia|done].
Qed.

(** X20.  The price window holds the last 100 prices.  A new breaker
    knows no pair.  A [CheckPrice] that returns no error, and every
    [RecordTrade], leaves the pair with its old prices (none for a pair
    not known before) followed by the new price, without the oldest one
    when there were 100 or more; a [CheckPrice] that returns an error
    leaves the pair's prices as they were.  Both leave the other pairs
    untouched, and if no pair held more than 100 prices before, none
    does afterwards. *)
Theorem X20_price_window_is_bounded
  (NewFromFloat : PrimFloat.float → decimal.Decimal) :
  (∀ threshold_ now, states (NewCircuitBreaker threshold_ now) = ∅)
  ∧ (∀ cb pair_ price now cb' err,
       CheckPrice NewFromFloat cb pair_ price now = Done (cb', err) →
       let old := from_option recentPrices [] (states cb !! pair_) in
       (∃ st', states cb' !! pair_ = Some st'
               ∧ recentPrices st'
                 = match err with
                   | Some _ => old
                   | None =>
                       if (length old <? 100)%nat then old ++ [price]
                       else drop 1 old ++ [price]
                   end)
       ∧ (∀ other, other ≠ pair_ →
            states cb' !! other = states cb !! other)
       ∧ ((∀ p st, states cb !! p = Some st →
             (length (recentPrices st) <= 100)%nat) →
          ∀ p st, states cb' !! p = Some st →
            (length (recentPrices st) <= 100)%nat))
  ∧ (∀ cb pair_ price now,
       let cb' := RecordTrade cb pair_ price now in
       let old := from_option recentPrices [] (states cb !! pair_) in
       (∃ st', states cb' !! pair_ = Some st'
               ∧ recentPrices st'
                 = if (length old <? 100)%nat then old ++ [price]
                   else drop 1 old ++ [price])
       ∧ (∀ other, other ≠ pair_ →
            states cb' !! other = states cb !! other)
       ∧ ((∀ p st, states cb !! p = Some st →
             (length (recentPrices st) <= 100)%nat) →
          ∀ p st, states cb' !! p = Some st →
            (length (recentPrices st) <= 100)%nat)).
Proof.
  assert (∀ old (price : decimal.Decimal),
            (length old <= 100)%nat →
            (length (if (length old <? 100)%nat then old ++ [price]
                     else drop 1 old ++ [price]) <= 100)%nat) as Hbound.
  { intros old price Hl. destruct (Nat.ltb_spec (length old) 100).
    - rewrite length_app. simpl. lia.
    - rewrite length_app, length_drop. simpl. lia. }
  split_and!.
  - done.
  - intros cb pair_ price now cb' err
      (st & st' & Hst & Hs & H)%CheckPrice_outcome old.
    assert (old = recentPrices st) as Hold.
    { unfold old. by destruct Hst as [->|[-> ->]]. }
    assert (recentPrices st'
            = match err with
              | Some _ => old
              | None => if (length old <? 100)%nat then old ++ [price]
                        else drop 1 old ++ [price]
              end) as Hnew.
    { rewrite Hold.
      destruct H as [(-> & -> & _)|(-> & -> & _)]; [done|].
      apply window_cases. }
    split_and!.
    + exists st'. by rewrite Hs, lookup_insert_eq.
    + intros other Ho. by rewrite Hs, lookup_insert_ne.
    + intros Hok p stp. rewrite Hs.
      destruct (decide (pair_ = p)) as [<-|Hne].
      * rewrite lookup_insert_eq. intros [= <-]. rewrite Hnew.
        assert (length old <= 100)%nat as Hl.
        { unfold old. destruct (states cb !! pair_) as [s0|] eqn:E; simpl;
            [by apply (Hok pair_)|lia]. }
        destruct err; [done|]. by apply Hbound.
      * rewrite lookup_insert_ne by done. apply Hok.
  - intros cb pair_ price now cb' old.
    assert (∃ st',
              states cb' = <[pair_ := st']> (states cb)
              ∧ recentPrices st' = window old price) as (st' & Hs & Hnew).
    { unfold cb', old, RecordTrade, getOrCreateState.
      destruct (states cb !! pair_) as [st|] eqn:Hst; cbv beta iota zeta.
      - rewrite recordPrice_states, lookup_insert_eq. unfold set_state.
        cbn [states]. rewrite recordPrice_states.
        eexists. split; [apply insert_insert_eq|]. reflexivity.
      - rewrite recordPrice_states, lookup_insert_eq. unfold set_state.
        cbn [states]. rewrite recordPrice_states. cbn [states].
        eexists. split; [by rewrite !insert_insert_eq|]. reflexivity. }
    rewrite window_cases in Hnew.
    split_and!.
    + exists st'. by rewrite Hs, lookup_insert_eq.
    + intros other Ho. by rewrite Hs, lookup_insert_ne.
    + intros Hok p stp. rewrite Hs.
      destruct (decide (pair_ = p)) as [<-|Hne].
      * rewrite lookup_insert_eq. intros [= <-]. rewrite Hnew.
        apply Hbound. unfold old.
        destruct (states cb !! pair_) as [s0|] eqn:E; simpl;
          [by apply (Hok pair_)|lia].
      * rewrite lookup_insert_ne by done. apply Hok.
Qed.

(** X21.  The persist callback is called when a price is recorded and
    only then: a check that returns no error hands the callback the
    pair's state as it is left, once; a rejected check does not call
    it, so neither the failure count nor the opening of the breaker
    reaches the callback. *)
Theorem X21_persist_on_record_only
  (NewFromFloat : PrimFloat.float → decimal.Decimal)
  (cb cb' : CircuitBreaker) (pair_ : string)
  (price : decimal.Decimal) (now : Z) (err : option error) :
  persistCallback cb = true →
  CheckPrice NewFromFloat cb pair_ price now = Done (cb', err) →
  (err = Some ErrCircuitBreakerOpen ∧ persisted cb' = persisted cb)
  ∨ (err = None
     ∧ ∃ st', states cb' !! pair_ = Some st'
              ∧ persisted cb' = persisted cb ++ [(pair st', st')]).
Proof.
  intros Hcb (st & st' & _ & Hs & H)%CheckPrice_outcome.
  destruct H as [(-> & _ & Hp)|(-> & _ & Hp)]; [by left|right].
  split; [done|]. exists st'. rewrite Hs, lookup_insert_eq.
  split; [done|]. by rewrite Hcb in Hp.
Qed.

(** With a callback set, five rejected checks open the breaker and the
    callback has seen nothing. *)
Lemma X21_persist_on_record_only_witness :
  ∃ cb',
    CheckPrice NewFromFloat_0_05 (persisting (primed StateClosed 4))
      "XRP-USD" price_1_2 9 = Done (cb', Some ErrCircuitBreakerOpen)
    ∧ GetState cb' "XRP-USD" = StateOpen
    ∧ persisted cb' = [].
Proof.
  eexists. split; [vm_compute; reflexivity|]. split; [reflexivity|].
  destruct (X21_persist_on_record_only NewFromFloat_0_05
              (persisting (primed StateClosed 4)) _ "XRP-USD" price_1_2 9 _
              eq_refl ltac:(vm_compute; reflexivity))
    as [[_ H]|[H _]]; [exact H|discriminate H].
Defined.

(** ** Pathfinder: requests without a route *)

Section no_route.

Import heap.

(** The search from a node to itself stops at the first pop. *)
Lemma dijkstra_same graph start :
  dijkstra graph start start
  = Done (Some (if String.eqb start "" then [] else [start]),
          default Decimal_zero_value
            ((<[start := decimal.Zero]>
                ((λ _ : list edge, MaxFloat64) <$> graph)) !! start)).
Proof.
  unfold dijkstra.
  replace (edge_count graph + 2)%nat with (S (edge_count graph + 1)) by lia.
  cbn [dijkstra_loop]. 
  change (Push [] {| asset := start; cost := decimal.Zero |})
    with [{| asset := start; cost := decimal.Zero |}].
  cbn [pq Len length Nat.eqb].
  change (Pop [{| asset := start; cost := decimal.Zero |}])
    with (Some ({| asset := start; cost := decimal.Zero |}, @nil node)).
  cbv beta iota. cbn [asset visited prev dist pq].
  unfold is_visited at 1. cbn [visited]. rewrite lookup_empty. cbn [default].
  rewrite String.eqb_refl. cbn [mbind exec_bind prev dist].
  rewrite lookup_empty.
  rewrite bool_decide_eq_false_2 by (by intros [? ?]).
  cbn [negb andb]. rewrite map_size_empty. cbn [walk_back Nat.add].
  destruct (String.eqb start ""); [done|].
  cbn [mbind exec_bind]. by rewrite String.eqb_refl.
Qed.

End no_route.

(** X22.  A request from an asset to itself finds a path of one node
    and no hop: [FindBestRoute] answers [ErrInsufficientLiquidity], not
    [ErrNoRoute], on every snapshot. *)
Theorem X22_same_asset_has_no_liquidity
  (pf : Pathfinder) (in_ out : Asset) (amount : decimal.Decimal) :
  Asset_String in_ = Asset_String out →
  FindBestRoute pf in_ out amount = Done (inr ErrInsufficientLiquidity).
Proof.
  intros E. unfold FindBestRoute.
  destruct (buildGraph_Done pf) as [graph ->]. cbn [mbind exec_bind].
  rewrite <- E, dijkstra_same. cbn [mbind exec_bind].
  unfold buildRoute.
  by destruct (String.eqb (Asset_String in_) "").
Qed.

Lemma X22_same_asset_has_no_liquidity_witness :
  FindBestRoute pf_scenario_1 XRP XRP (decimal.NewFromInt 100)
  = Done (inr ErrInsufficientLiquidity).
Proof.
  apply (X22_same_asset_has_no_liquidity pf_scenario_1 XRP XRP). reflexivity.
Defined.

Section unreachable.

Import heap.

(** *** Predecessors are edge targets *)

Lemma relax_prev_in (P : string → Prop) current st e :
  (∀ x, is_Some (prev st !! x) → P x) → P (to e) →
  ∀ x, is_Some (prev (relax current st e) !! x) → P x.
Proof.
  intros H He x. unfold relax. destruct (is_visited _ _); [apply H|].
  destruct (decimal.LessThan _ _); [|apply H]. cbn.
  destruct (decide (to e = x)) as [<-|Hne]; [done|].
  rewrite lookup_insert_ne by done. apply H.
Qed.

Lemma relax_all_prev_in (P : string → Prop) current es : ∀ st,
  (∀ x, is_Some (prev st !! x) → P x) → Forall (λ e, P (to e)) es →
  ∀ x, is_Some (prev (foldl (relax current) st es) !! x) → P x.
Proof.
  induction es as [|e es IH]; intros st H Hes; [done|].
  apply Forall_cons in Hes as [He Hes]. cbn [foldl].
  apply IH; [|done]. by apply relax_prev_in.
Qed.

Lemma dijkstra_loop_prev_target graph end_ fuel : ∀ st st',
  (∀ x, is_Some (prev st !! x) → is_target graph x) →
  dijkstra_loop fuel graph end_ st = Done st' →
  ∀ x, is_Some (prev st' !! x) → is_target graph x.
Proof.
  induction fuel as [|fuel IH]; intros st st' H; [done|].
  cbn [dijkstra_loop].
  destruct (Len (pq st) =? 0)%nat; [by intros [= <-]|].
  destruct (Pop (pq st)) as [[current pq']|]; [|by intros [= <-]].
  cbn [visited prev dist pq].
  destruct (is_visited _ _); [by apply IH|].
  destruct (String.eqb _ _); [by intros [= <-]|].
  apply IH. apply relax_all_prev_in; [done|].
  destruct (graph !! asset current) as [es|] eqn:E; [|done]. cbn.
  apply Forall_forall. intros e He. by exists (asset current), es, e.
Qed.

(** A node that no edge leads to is not found. *)
Lemma dijkstra_not_target graph start end_ :
  ¬ is_target graph end_ → start ≠ end_ →
  dijkstra graph start end_ = Done (None, decimal.Zero).
Proof.
  intros Hnt Hne. unfold dijkstra.
  set (st0 := {| dist := _; prev := ∅; visited := ∅; pq := _ |}).
  destruct (dijkstra_loop_Done graph end_ (edge_count graph + 2) st0)
    as [st EL].
  { unfold st0. cbn [pq visited]. rewrite Push_length, pending_empty.
    simpl. lia. }
  rewrite EL. cbn [mbind exec_bind].
  assert (prev st !! end_ = None) as Hp.
  { destruct (prev st !! end_) eqn:E; [|done]. exfalso. apply Hnt.
    apply (dijkstra_loop_prev_target graph end_ (edge_count graph + 2) st0 st);
      [|done|by eexists].
    intros x. unfold st0. cbn. rewrite lookup_empty. by intros [? ?]. }
  rewrite Hp, bool_decide_eq_false_2 by (by intros [? ?]).
  by destruct (String.eqb_spec start end_).
Qed.

(** *** The targets of the graph of a snapshot *)

Lemma graph_append_target g k e x :
  is_target (graph_append g k e) x → is_target g x ∨ x = to e.
Proof.
  intros (k' & es & e' & Hk & He & <-). unfold graph_append in Hk.
  destruct (decide (k = k')) as [<-|Hne].
  - rewrite lookup_insert_eq in Hk. injection Hk as <-.
    apply elem_of_app in He as [He| ->%list_elem_of_singleton]; [|by right].
    left. destruct (g !! k) as [es|] eqn:E; simpl in He.
    + by exists k, es, e'.
    + by apply elem_of_nil in He.
  - rewrite lookup_insert_ne in Hk by done. left. by exists k', es, e'.
Qed.

Lemma buildGraph_pools_target ps : ∀ i g g' x,
  buildGraph_pools ps i g = Done g' → is_target g' x →
  is_target g x
  ∨ ∃ p, p ∈ ps ∧ (x = Asset_String (Asset1 p) ∨ x = Asset_String (Asset2 p)).
Proof.
  induction ps as [|p ps IH]; intros i g g' x; cbn [buildGraph_pools].
  - intros [= <-]. by left.
  - rewrite feeMultiplier_spec. cbn [mbind exec_bind]. rewrite !Asset_String_eta.
    intros E Hx. destruct (IH _ _ _ _ E Hx) as [Ht|(p' & Hp & H)].
    + apply graph_append_target in Ht as [Ht| ->].
      * apply graph_append_target in Ht as [Ht| ->]; [by left|].
        right. exists p. split; [by left|]. by right.
      * right. exists p. split; [by left|]. by left.
    + right. exists p'. split; [by right|done].
Qed.

Lemma buildGraph_offers_target os : ∀ i g x,
  is_target (buildGraph_offers os i g) x →
  is_target g x ∨ ∃ o, o ∈ os ∧ x = Asset_String (TakerGets o).
Proof.
  induction os as [|o os IH]; intros i g x; cbn [buildGraph_offers];
    [by left|].
  intros Hx. destruct (IH _ _ _ Hx) as [Ht|(o' & Ho & H)].
  - apply graph_append_target in Ht as [Ht| ->]; [by left|].
    right. exists o. split; [by left|done].
  - right. exists o'. split; [by right|done].
Qed.

Lemma buildGraph_target pf graph x :
  buildGraph pf = Done graph → is_target graph x → pays_out pf x.
Proof.
  unfold buildGraph.
  destruct (buildGraph_pools _ _ _) as [g| |] eqn:E; cbn; [|done..].
  intros [= <-] Hx.
  apply buildGraph_offers_target in Hx as [Hx|Ho]; [|by right].
  apply (buildGraph_pools_target _ _ _ _ _ E) in Hx as [Hx|Hp]; [|by left].
  destruct Hx as (k & es & e & Hk & _). by rewrite lookup_empty in Hk.
Qed.

End unreachable.

(** X23.  No route without a way in: when the output asset differs from
    the input asset and is paid out by no pool and no offer of the
    snapshot, [FindBestRoute] answers [ErrNoRoute]. *)
Theorem X23_no_route_to_an_asset_nobody_pays_out
  (pf : Pathfinder) (in_ out : Asset) (amount : decimal.Decimal) :
  Asset_String in_ ≠ Asset_String out →
  ¬ pays_out pf (Asset_String out) →
  FindBestRoute pf in_ out amount = Done (inr ErrNoRoute).
Proof.
  intros Hne Hno. unfold FindBestRoute.
  destruct (buildGraph_Done pf) as [graph EG]. rewrite EG.
  cbn [mbind exec_bind].
  rewrite dijkstra_not_target; [done| |done].
  intros Ht. apply Hno. by apply (buildGraph_target pf graph).
Qed.

Lemma X23_no_route_to_an_asset_nobody_pays_out_witness :
  FindBestRoute pf_scenario_1 XRP (token "EUR") (decimal.NewFromInt 100)
  = Done (inr ErrNoRoute).
Proof.
  apply (X23_no_route_to_an_asset_nobody_pays_out pf_scenario_1 XRP
           (token "EUR")).
  - discriminate.
  - intros [(p & Hp & H)|(o & Ho & _)].
    + apply list_elem_of_singleton in Hp as ->. by destruct H.
    + by apply elem_of_nil in Ho.
Defined.

Section order_book_only.

Import heap.
Local Open Scope Q_scope.

(** *** Without a negative cost the search stays on known ground *)

Lemma relax_nonneg graph start current st e :
  search_nonneg graph start st →
  decimal.toQ (weight e) <= 1 → 0 <= decimal.toQ (cost current) →
  search_nonneg graph start (relax current st e).
Proof.
  intros [Hpq Hdist Hprev] Hw Hc. unfold relax.
  destruct (is_visited _ _); [done|].
  set (newCost := decimal.Add _ _).
  assert (0 <= decimal.toQ newCost) as Hn.
  { unfold newCost. rewrite toQ_Add, toQ_Sub, toQ_NewFromInt.
    change (inject_Z 1) with 1. lra. }
  destruct (decimal.LessThan _ _) eqn:EL; [|done].
  apply LessThan_toQ in EL.
  assert (is_Some (dist st !! to e)) as Hd.
  { destruct (dist st !! to e) eqn:E; [done|]. exfalso.
    cbn in EL. change (decimal.toQ Decimal_zero_value) with (0 # 1) in EL.
    lra. }
  split; cbn [pq dist prev].
  - intros nd. rewrite Push_perm. intros [->|H]%elem_of_cons; [done|].
    by apply Hpq.
  - intros x. destruct (decide (to e = x)) as [<-|Hne].
    + intros _. by apply Hdist.
    + rewrite lookup_insert_ne by done. apply Hdist.
  - intros x. destruct (decide (to e = x)) as [<-|Hne].
    + intros _. by rewrite lookup_insert_eq.
    + rewrite !lookup_insert_ne by done. apply Hprev.
Qed.

Lemma relax_all_nonneg graph start current es : ∀ st,
  search_nonneg graph start st →
  Forall (λ e, decimal.toQ (weight e) <= 1) es →
  0 <= decimal.toQ (cost current) →
  search_nonneg graph start (foldl (relax current) st es).
Proof.
  induction es as [|e es IH]; intros st Hst Hes Hc; [done|].
  apply Forall_cons in Hes as [He Hes]. cbn [foldl].
  apply IH; [by apply relax_nonneg|done..].
Qed.

Lemma dijkstra_loop_nonneg graph start end_ fuel : ∀ st st',
  weights_le_1 graph → search_nonneg graph start st →
  dijkstra_loop fuel graph end_ st = Done st' →
  search_nonneg graph start st'.
Proof.
  induction fuel as [|fuel IH]; intros st st' Hw Hst; [done|].
  cbn [dijkstra_loop].
  destruct (Len (pq st) =? 0)%nat; [by intros [= <-]|].
  destruct (Pop (pq st)) as [[current pq']|] eqn:EP; [|by intros [= <-]].
  destruct Hst as [Hpq Hdist Hprev].
  pose proof (Pop_perm _ _ _ EP) as Hperm.
  assert (0 <= decimal.toQ (cost current)) as Hc.
  { apply Hpq. rewrite Hperm. by left. }
  assert (search_nonneg graph start
            {| dist := dist st; prev := prev st; visited := visited st;
               pq := pq' |}) as Hst1.
  { split; cbn [pq dist prev]; [|done..]. intros nd Hnd. apply Hpq.
    rewrite Hperm.
    by right. }
  cbn [visited prev dist pq].
  destruct (is_visited _ _); [by apply IH|].
  destruct (String.eqb _ _).
  { intros [= <-]. by destruct Hst1. }
  apply IH; [done|].
  apply relax_all_nonneg; [by destruct Hst1| |done].
  destruct (graph !! asset current) as [es|] eqn:E; [|done]. cbn.
  apply Forall_forall. intros e He. by apply (Hw (asset current) es).
Qed.

(** A node without an edge leaving it is not found, unless a cost is
    negative. *)
Lemma dijkstra_dead_end graph start end_ :
  weights_le_1 graph → graph !! end_ = None → start ≠ end_ →
  dijkstra graph start end_ = Done (None, decimal.Zero).
Proof.
  intros Hw Hend Hne. unfold dijkstra.
  set (st0 := {| dist := _; prev := ∅; visited := ∅; pq := _ |}).
  destruct (dijkstra_loop_Done graph end_ (edge_count graph + 2) st0)
    as [st EL].
  { unfold st0. cbn [pq visited]. rewrite Push_length, pending_empty.
    simpl. lia. }
  rewrite EL. cbn [mbind exec_bind].
  assert (prev st !! end_ = None) as Hp.
  { destruct (prev st !! end_) eqn:E; [|done]. exfalso.
    destruct (dijkstra_loop_nonneg graph start end_ (edge_count graph + 2)
                st0 st Hw) as [_ Hdist Hprev]; [|done|].
    - split; unfold st0; cbn [pq dist prev].
      + intros nd. rewrite Push_perm.
        by intros ->%list_elem_of_singleton.
      + intros x. destruct (decide (start = x)) as [->|Hx]; [by left|].
        rewrite lookup_insert_ne, lookup_fmap by done.
        intros [? H]. right. by destruct (graph !! x).
      + intros x. rewrite lookup_empty. by intros [? ?].
    - destruct (Hdist end_) as [->|[? H]]; [|done|congruence].
      apply Hprev. by eexists. }
  rewrite Hp, bool_decide_eq_false_2 by (by intros [? ?]).
  by destruct (String.eqb_spec start end_).
Qed.

(** *** The keys and the weights of the graph of a snapshot *)

Lemma graph_append_key g k e x :
  is_Some (graph_append g k e !! x) → is_Some (g !! x) ∨ x = k.
Proof.
  unfold graph_append. destruct (decide (k = x)) as [->|]; [by right|].
  rewrite lookup_insert_ne by done. by left.
Qed.

Lemma graph_append_weights g k e :
  weights_le_1 g → decimal.toQ (weight e) <= 1 →
  weights_le_1 (graph_append g k e).
Proof.
  intros Hg He k' es e'. unfold graph_append.
  destruct (decide (k = k')) as [->|Hk].
  - rewrite lookup_insert_eq.
    intros [= <-] [Hin| ->%list_elem_of_singleton]%elem_of_app; [|done].
    destruct (g !! k') as [es|] eqn:E; simpl in Hin.
    + by apply (Hg k' es).
    + by apply elem_of_nil in Hin.
  - rewrite lookup_insert_ne by done. apply Hg.
Qed.

Lemma buildGraph_pools_keys ps : ∀ i g g' x,
  Forall (λ p, (0 <= TradingFeeBps p)%Z) ps → weights_le_1 g →
  buildGraph_pools ps i g = Done g' →
  weights_le_1 g' ∧
  (is_Some (g' !! x) →
   is_Some (g !! x)
   ∨ ∃ p, p ∈ ps
          ∧ (x = Asset_String (Asset1 p) ∨ x = Asset_String (Asset2 p))).
Proof.
  induction ps as [|p ps IH]; intros i g g' x Hps Hg; cbn [buildGraph_pools].
  - intros [= <-]. split; [done|]. by left.
  - apply Forall_cons in Hps as [Hp Hps].
    rewrite feeMultiplier_spec. cbn [mbind exec_bind]. rewrite !Asset_String_eta.
    assert (decimal.toQ (decimal.New (10 ^ 16 - TradingFeeBps p * 10 ^ 12)
                           (-16)) <= 1) as Hw.
    { rewrite toQ_feeMultiplier.
      assert (0 <= inject_Z (TradingFeeBps p) / inject_Z 10000); [|lra].
      apply Qle_shift_div_l; [reflexivity|].
      rewrite Qmult_0_l. change 0 with (inject_Z 0). by rewrite <- Zle_Qle. }
    intros E. apply (IH _ _ _ x Hps) in E as [Hw' Hk].
    + split; [done|]. intros Hx. destruct (Hk Hx) as [Ht|(p' & Hp' & H)].
      * apply graph_append_key in Ht as [Ht| ->].
        -- apply graph_append_key in Ht as [Ht| ->]; [by left|].
           right. exists p. split; [by left|]. by left.
        -- right. exists p. split; [by left|]. by right.
      * right. exists p'. split; [by right|done].
    + by repeat apply graph_append_weights.
Qed.

Lemma buildGraph_offers_keys os : ∀ i g x,
  Forall (λ o, decimal.toQ (Quality o) <= 1) os → weights_le_1 g →
  weights_le_1 (buildGraph_offers os i g) ∧
  (is_Some (buildGraph_offers os i g !! x) →
   is_Some (g !! x) ∨ ∃ o, o ∈ os ∧ x = Asset_String (TakerPays o)).
Proof.
  induction os as [|o os IH]; intros i g x Hos Hg; cbn [buildGraph_offers].
  - split; [done|]. by left.
  - apply Forall_cons in Hos as [Ho Hos].
    destruct (IH (S i)
      (graph_append g (Asset_String (TakerPays o))
         {| to := Asset_String (TakerGets o); weight := Quality o;
            pool := None; offer := Some i |}) x Hos) as [Hw Hk].
    { by apply graph_append_weights. }
    split; [done|]. intros Hx. destruct (Hk Hx) as [Ht|(o' & Ho' & H)].
    + apply graph_append_key in Ht as [Ht| ->]; [by left|].
      right. exists o. split; [by left|done].
    + right. exists o'. split; [by right|done].
Qed.

Lemma buildGraph_keys pf graph x :
  Forall (λ p, (0 <= TradingFeeBps p)%Z) (pools pf) →
  Forall (λ o, decimal.toQ (Quality o) <= 1) (offers pf) →
  buildGraph pf = Done graph →
  weights_le_1 graph ∧ (is_Some (graph !! x) → takes_in pf x).
Proof.
  intros Hp Ho. unfold buildGraph.
  destruct (buildGraph_pools _ _ _) as [g| |] eqn:E; cbn; [|done..].
  intros [= <-].
  apply (buildGraph_pools_keys _ _ _ _ x Hp) in E as [Hw Hk].
  2: { intros k es e Hk. by rewrite lookup_empty in Hk. }
  destruct (buildGraph_offers_keys (offers pf) 0 g x Ho Hw) as [Hw' Hk'].
  split; [done|]. intros Hx.
  destruct (Hk' Hx) as [Hg|H]; [|by right].
  destruct (Hk Hg) as [He|H]; [|by left].
  rewrite lookup_empty in He. by destruct He.
Qed.

End order_book_only.

(** X24.  An asset that nothing sells is a dead end of the search.  The
    search gives a distance at the outset only to the nodes that have an
    edge leaving them; any other node reads as at distance 0 and is
    entered only at a negative cost, that is through an edge of weight
    above 1.  So on a snapshot whose pools have no negative fee and
    whose offers have a quality of at most 1, a request for an output
    asset that no pool holds and no offer takes in (one that, at most,
    some offers pay out) is answered with [ErrNoRoute]. *)
Theorem X24_no_route_to_a_dead_end
  (pf : Pathfinder) (in_ out : Asset) (amount : decimal.Decimal) :
  Forall (λ p, 0 <= TradingFeeBps p) (pools pf) →
  Forall (λ o, (decimal.toQ (Quality o) <= 1)%Q) (offers pf) →
  Asset_String in_ ≠ Asset_String out →
  ¬ takes_in pf (Asset_String out) →
  FindBestRoute pf in_ out amount = Done (inr ErrNoRoute).
Proof.
  intros Hp Ho Hne Hno. unfold FindBestRoute.
  destruct (buildGraph_Done pf) as [graph EG]. rewrite EG.
  cbn [mbind exec_bind].
  destruct (buildGraph_keys pf graph (Asset_String out) Hp Ho EG) as [Hw Hk].
  rewrite dijkstra_dead_end; [done|done| |done].
  destruct (graph !! Asset_String out) eqn:E; [|done].
  exfalso. apply Hno, Hk. by eexists.
Qed.

(** The offer XRP -> USD at quality 0.5 is in the snapshot, and the
    request XRP -> USD finds no route. *)
Lemma X24_no_route_to_a_dead_end_witness :
  FindBestRoute (pf_one_offer (decimal.New 5 (-1))) XRP USD_I
    (decimal.NewFromInt 100) = Done (inr ErrNoRoute).
Proof.
  apply (X24_no_route_to_a_dead_end (pf_one_offer (decimal.New 5 (-1)))
           XRP USD_I).
  - constructor.
  - repeat constructor. vm_compute. discriminate.
  - discriminate.
  - intros [(p & Hp & _)|(o & Ho & H)].
    + by apply elem_of_nil in Hp.
    + apply list_elem_of_singleton in Ho as ->. discriminate H.
Defined.

(** The same offer at quality 1.5 gives a route of one order-book
    hop. *)
Remark offer_above_par_is_routed :
  (r ← FindBestRoute (pf_one_offer (decimal.New 15 (-1))) XRP USD_I
         (decimal.NewFromInt 100);
   mret (match r with
         | inl r => map Type_ (Hops r)
         | inr _ => []
         end)) = Done ["orderbook"].
Proof. vm_compute. reflexivity. Qed.

(** ** Pathfinder: the hops of a route *)

Section hops.

Lemma findHop_pools_backed ps from to_ amount hop :
  findHop_pools ps from to_ amount = Done (Some hop) →
  Type_ hop = "amm" ∧ AmountIn hop = amount ∧
  ∃ p, p ∈ ps ∧
    ((hop_In hop = Asset1 p ∧ hop_Out hop = Asset2 p
      ∧ calculateAMMOutput p amount true = Done (AmountOut hop))
     ∨ (hop_In hop = Asset2 p ∧ hop_Out hop = Asset1 p
        ∧ calculateAMMOutput p amount false = Done (AmountOut hop))).
Proof.
  induction ps as [|p ps IH]; cbn [findHop_pools]; [done|].
  destruct (_ && _).
  { destruct (calculateAMMOutput p amount true) as [y| |] eqn:E; cbn;
      [|done..].
    intros [= <-]. cbn. split_and!; try done. exists p.
    split; [by left|]. by left. }
  destruct (_ && _).
  { destruct (calculateAMMOutput p amount false) as [y| |] eqn:E; cbn;
      [|done..].
    intros [= <-]. cbn. split_and!; try done. exists p.
    split; [by left|]. by right. }
  intros (H1 & H2 & p' & Hp & H)%IH. split_and!; try done.
  exists p'. split; [by right|done].
Qed.

Lemma findHop_offers_backed os from to_ amount hop :
  findHop_offers os from to_ amount = Some hop →
  Type_ hop = "orderbook" ∧ AmountIn hop = amount ∧
  ∃ o, o ∈ os ∧ hop_In hop = TakerPays o ∧ hop_Out hop = TakerGets o
       ∧ AmountOut hop = decimal.Mul amount (Quality o).
Proof.
  induction os as [|o os IH]; cbn [findHop_offers]; [done|].
  destruct (_ && _).
  { intros [= <-]. cbn. split_and!; try done. exists o.
    split; [by left|done]. }
  intros (H1 & H2 & o' & Ho & H)%IH. split_and!; try done.
  exists o'. split; [by right|done].
Qed.

Lemma findHop_backed pf from to_ amount hop :
  findHop pf from to_ amount = Done (Some hop) →
  hop_backed pf hop ∧ AmountIn hop = amount.
Proof.
  unfold findHop, hop_backed.
  destruct (findHop_pools _ _ _ _) as [[h|]| |] eqn:E; cbn; [| |done..].
  - intros [= <-].
    apply findHop_pools_backed in E as (H1 & H2 & p & Hp & H).
    split; [|done]. left. split; [done|]. exists p. by rewrite H2.
  - intros [= H].
    apply findHop_offers_backed in H as (H1 & H2 & o & Ho & H).
    split; [|done]. right. split; [done|]. exists o. by rewrite H2.
Qed.

Lemma buildRoute_loop_backed pf path : ∀ amount hops0 hops,
  buildRoute_loop pf path amount hops0 = Done (Some hops) →
  Forall (hop_backed pf) hops0 → Forall (hop_backed pf) hops.
Proof.
  induction path as [|from [|to_ rest] IH]; intros amount hops0 hops.
  - by intros [= <-].
  - by intros [= <-].
  - cbn [buildRoute_loop].
    destruct (findHop _ _ _ _) as [[hop|]| |] eqn:E; cbn [mbind exec_bind];
      [|done..].
    intros H H0. apply (IH _ _ _ H). apply Forall_app. split; [done|].
    apply Forall_singleton. by apply findHop_backed in E as [? _].
Qed.

End hops.

(** X25.  Every hop of a route is backed by the snapshot: it is the hop
    of a pool of the snapshot, in one direction or the other, with the
    output [calculateAMMOutput] gives for its input, or the hop of an
    offer, with its input times the quality as output.  The first hop
    takes the amount of the request, and the route leaves
    [FindBestRoute] with its fees and price impact still at zero. *)
Theorem X25_hops_are_backed_by_the_snapshot
  (pf : Pathfinder) (in_ out : Asset) (amount : decimal.Decimal)
  (route : Route) :
  FindBestRoute pf in_ out amount = Done (inl route) →
  Forall (hop_backed pf) (Hops route)
  ∧ (∃ hop, head (Hops route) = Some hop ∧ AmountIn hop = amount)
  ∧ TotalFees route = zero_Fees
  ∧ PriceImpact route = Decimal_zero_value.
Proof.
  unfold FindBestRoute.
  destruct (buildGraph pf) as [graph| |]; cbn [mbind exec_bind]; [|done..].
  destruct (dijkstra _ _ _) as [[[path|] c]| |]; cbn [mbind exec_bind];
    [|done..].
  destruct (_ <? _)%nat; [done|]. unfold buildRoute.
  destruct (Nat.ltb_spec (length path) 2) as [|Hlen]; [done|].
  destruct (buildRoute_loop _ _ _ _) as [[hops|]| |] eqn:EB;
    cbn [mbind exec_bind]; [|done..].
  intros [= <-]. cbn [Hops TotalFees PriceImpact].
  split; [by apply (buildRoute_loop_backed _ _ _ _ _ EB)|].
  split; [|done].
  apply buildRoute_loop_follows in EB as (new & -> & Hf). rewrite app_nil_l.
  destruct path as [|a [|b rest]]; [simpl in Hlen; lia..|].
  destruct new as [|hop new]; [done|].
  destruct Hf as (_ & _ & Ha & _). by exists hop.
Qed.

Lemma X25_hops_are_backed_by_the_snapshot_witness :
  ∃ route,
    FindBestRoute pf_scenario_1 XRP USD_I (decimal.NewFromInt 100)
      = Done (inl route)
    ∧ Forall (hop_backed pf_scenario_1) (Hops route).
Proof.
  eexists. split; [vm_compute; reflexivity|].
  eapply (X25_hops_are_backed_by_the_snapshot pf_scenario_1 XRP USD_I
            (decimal.NewFromInt 100)).
  vm_compute. reflexivity.
Defined.

(** X26.  The search comes to an end.  On every graph the loop of
    [dijkstra] stops, after no more pops than there are edges, plus one,
    and the walk back from the end cannot go round in circles, a
    predecessor having always been visited before its successor; so
    [FindBestRoute] returns a route or an error on every snapshot,
    unless it panics on a division by zero. *)
Theorem X26_the_search_terminates :
  (∀ graph start end_, ∃ path cost,
     dijkstra graph start end_ = Done (path, cost))
  ∧ (∀ pf in_ out amount,
       (∃ r, FindBestRoute pf in_ out amount = Done r)
       ∨ FindBestRoute pf in_ out amount = Panic).
Proof.
  split.
  - intros graph start end_.
    destruct (dijkstra_Done graph start end_) as [[path cost] E].
    by exists path, cost.
  - intros pf in_ out amount.
    pose proof (FindBestRoute_fuel pf in_ out amount) as H.
    destruct (FindBestRoute pf in_ out amount); [left; by eexists|by right|done].
Qed.

(** ** Quote engine *)

Section engine_fees.

Local Open Scope Q_scope.

Lemma Div_None d d2 : decimal.Div d d2 = None ↔ decimal.value d2 = 0%Z.
Proof.
  split; [|apply Div_by_zero].
  intros H. destruct (decide (decimal.value d2 = 0%Z)) as [|Hnz]; [done|].
  destruct (Div_spec d d2 Hnz) as (q & Hq & _). congruence.
Qed.

Lemma Div_round16 d d2 q :
  decimal.Div d d2 = Some q →
  decimal.toQ q == round16 (decimal.toQ d / decimal.toQ d2).
Proof.
  intros H. destruct (decide (decimal.value d2 = 0%Z)) as [Hz|Hnz].
  { by rewrite (Div_by_zero d d2 Hz) in H. }
  destruct (Div_spec d d2 Hnz) as (q' & Hq & He & Hv).
  rewrite H in Hq. injection Hq as <-. by apply toQ_round16.
Qed.

Lemma calculateTotalFees_loop_spec hops : ∀ total,
  (calculateTotalFees_loop hops total = Panic
   ↔ ∃ hop, hop ∈ hops ∧ Type_ hop = "amm"
            ∧ decimal.value (AmountIn hop) = 0%Z)
  ∧ (∀ t, calculateTotalFees_loop hops total = Done t →
          decimal.toQ t == decimal.toQ total + amm_fees hops)
  ∧ calculateTotalFees_loop hops total ≠ OutOfFuel.
Proof.
  induction hops as [|hop hops IH]; intros total;
    cbn [calculateTotalFees_loop amm_fees].
  { split_and!; [|intros t [= <-]; ring|done].
    split; [done|]. intros (hop & H & _). by apply elem_of_nil in H. }
  destruct (String.eqb_spec (Type_ hop) "amm") as [Ha|Ha].
  - destruct (decimal.Div _ (AmountIn hop)) as [fee|] eqn:ED;
      cbn [must mbind exec_bind].
    + destruct (IH (decimal.Add total fee)) as (IH1 & IH2 & IH3).
      assert (decimal.value (AmountIn hop) ≠ 0%Z) as Hnz.
      { intros Hz. by rewrite (Div_by_zero _ _ Hz) in ED. }
      split_and!; [|intros t Ht|done].
      * rewrite IH1. split.
        -- intros (h & Hh & H). exists h. split; [by right|done].
        -- intros (h & [->|Hh]%elem_of_cons & H1 & H2); [done|].
           by exists h.
      * rewrite (IH2 t Ht), toQ_Add, (Div_round16 _ _ _ ED), toQ_Sub.
        unfold hop_fee. ring.
    + apply Div_None in ED. split_and!; [|done..].
      split; [|done]. intros _. exists hop. split; [by left|done].
  - destruct (IH total) as (IH1 & IH2 & IH3). split_and!; [|done..].
    rewrite IH1. split.
    + intros (h & Hh & H). exists h. split; [by right|done].
    + intros (h & [->|Hh]%elem_of_cons & H1 & H2); [done|]. by exists h.
Qed.

End engine_fees.

(** X27.  The trading fees of a route.  [calculateTotalFees] adds up,
    over the AMM hops only, the share [(in - out) / in] of each hop,
    rounded to 16 places; it leaves [RouterBps] and [EstOutFee] at
    zero; and it panics, on a division by zero, exactly when an AMM hop
    has a zero input. *)
Theorem X27_trading_fees_of_a_route (route : Route) :
  (calculateTotalFees route = Panic
   ↔ ∃ hop, hop ∈ Hops route ∧ Type_ hop = "amm"
            ∧ decimal.value (AmountIn hop) = 0)
  ∧ (∀ fees, calculateTotalFees route = Done fees →
       (decimal.toQ (TradingFees fees) == amm_fees (Hops route))%Q
       ∧ RouterBps fees = 0 ∧ EstOutFee fees = decimal.Zero).
Proof.
  unfold calculateTotalFees.
  destruct (calculateTotalFees_loop_spec (Hops route) decimal.Zero)
    as (H1 & H2 & H3).
  destruct (calculateTotalFees_loop (Hops route) decimal.Zero) as [t| |];
    cbn [mbind exec_bind]; [| |done].
  - split.
    + rewrite <- H1. split; done.
    + intros fees [= <-]. cbn. split; [|done].
      rewrite (H2 t eq_refl), toQ_Zero. ring.
  - split; [|done]. split; [intros _; by apply H1|done].
Qed.
Section engine_facts.

Variable NewFromFloat : PrimFloat.float → decimal.Decimal.
Variable escape : string → string.
Variable toValidUTF8 : string → string.
Variable formatFloat : Z → string.
Variable blake2b_Sum256 : string → string.

(** A validated request has an amount that is not zero. *)
Lemma validated_amount req :
  ValidateQuoteRequest req = None → decimal.value (Amount req) ≠ 0.
Proof.
  unfold ValidateQuoteRequest.
  destruct (decimal.LessThanOrEqual _ _) eqn:E; [done|]. intros _ Hz.
  assert (decimal.LessThanOrEqual (Amount req) decimal.Zero = true) as H;
    [|congruence].
  apply LessThanOrEqual_toQ. unfold decimal.toQ at 1. rewrite Hz.
  rewrite toQ_Zero. apply Qle_lteq. right. ring.
Qed.

(** The price impact of a route with a hop, for an amount that is not
    zero. *)
Lemma calculatePriceImpact_price route amount hop price :
  last (Hops route) = Some hop →
  decimal.Div (AmountOut hop) amount = Some price →
  calculatePriceImpact route amount
  = Done (decimal.Abs (decimal.Sub (decimal.NewFromInt 1) price)).
Proof.
  intros Hl Hd. unfold calculatePriceImpact, last_hop.
  destruct (Hops route) as [|h hs] eqn:E; [done|]. cbn [length Nat.eqb].
  rewrite Hl. cbn [must mbind exec_bind].
  unfold decimal.IsZero. destruct (Z.eqb_spec (decimal.value amount) 0) as [Hz|_].
  { by rewrite (Div_by_zero _ _ Hz) in Hd. }
  by rewrite Hd.
Qed.

(** The ways [GenerateQuote] returns: the request is refused, no route
    is found, or the route is priced and the breaker decides. *)
Lemma GenerateQuote_Done qe req ledgerIndex now cb' r :
  GenerateQuote NewFromFloat escape toValidUTF8 formatFloat blake2b_Sum256
    qe req ledgerIndex now = Done (cb', r) →
  (∃ err, ValidateQuoteRequest req = Some err
          ∧ cb' = breaker qe ∧ r = inr err)
  ∨ (ValidateQuoteRequest req = None
     ∧ ∃ err, FindBestRoute (pathfinder qe) (In_ req) (Out req) (Amount req)
              = Done (inr err)
              ∧ cb' = breaker qe ∧ r = inr err)
  ∨ (ValidateQuoteRequest req = None
     ∧ ∃ route fees hop price err,
         FindBestRoute (pathfinder qe) (In_ req) (Out req) (Amount req)
         = Done (inl route)
         ∧ calculateTotalFees route = Done fees
         ∧ last (Hops route) = Some hop
         ∧ decimal.Div (AmountOut hop) (Amount req) = Some price
         ∧ CheckPrice NewFromFloat (breaker qe) (pair_of req) price now
           = Done (cb', err)
         ∧ match err with
           | Some err => r = inr err
           | None =>
               ∃ quoteHash,
                 ComputeQuoteHash escape toValidUTF8 formatFloat
                   blake2b_Sum256 req
                   {| RouterBps := routerBps qe;
                      TradingFees := TradingFees fees;
                      EstOutFee := EstOutFee fees |} ledgerIndex 100
                 = inl quoteHash
                 ∧ r = inl (response_of qe req ledgerIndex route fees hop
                              price quoteHash)
           end).
Proof.
  unfold GenerateQuote, pair_of, mret, exec_ret.
  destruct (ValidateQuoteRequest req) as [err|] eqn:EV.
  { intros [= <- <-]. left. by exists err. }
  intros H. right. revert H.
  destruct (FindBestRoute _ _ _ _) as [[route|err]| |] eqn:EF;
    cbn [mbind exec_bind]; [| |done..].
  2:{ intros [= <- <-]. left. split; [done|]. by exists err. }
  intros H. right. split; [done|]. revert H.
  destruct (calculateTotalFees route) as [fees| |] eqn:EC;
    cbn [mbind exec_bind]; [|done..].
  unfold last_hop at 1.
  destruct (last (Hops route)) as [hop|] eqn:EL;
    cbn [must mbind exec_bind]; [|done].
  destruct (decimal.Div (AmountOut hop) (Amount req)) as [price|] eqn:ED;
    cbn [must mbind exec_bind]; [|done].
  rewrite (calculatePriceImpact_price route (Amount req) hop price EL ED).
  cbn [mbind exec_bind].
  destruct (CheckPrice _ _ _ _ _) as [[cb err]| |] eqn:EK;
    cbn [mbind exec_bind]; [|done..].
  intros H. exists route, fees, hop, price, err.
  destruct err as [err|].
  - injection H as <- <-. by split_and!.
  - revert H. unfold ComputeQuoteHash, canonicalJSON. intros [= <- <-].
    split_and!; try done. eexists. split; reflexivity.
Qed.

(** A route that [FindBestRoute] returns has a hop. *)
Lemma FindBestRoute_hops pf in_ out amount route :
  FindBestRoute pf in_ out amount = Done (inl route) → Hops route ≠ [].
Proof.
  unfold FindBestRoute.
  destruct (buildGraph pf) as [graph| |]; cbn [mbind exec_bind]; [|done..].
  destruct (dijkstra _ _ _) as [[[path|] c]| |]; cbn [mbind exec_bind];
    [|done..].
  destruct (Nat.ltb_spec (MaxHops + 1) (length path)) as [|Hlen]; [done|].
  unfold buildRoute.
  destruct (Nat.ltb_spec (length path) 2) as [|Hlen2]; [done|].
  destruct (buildRoute_loop _ _ _ _) as [[hops|]| |] eqn:EB;
    cbn [mbind exec_bind]; [|done..].
  intros [= <-]. cbn [Hops].
  apply buildRoute_loop_follows in EB as (new & -> & Hf).
  rewrite app_nil_l. pose proof (route_follows_length _ _ _ Hf) as Hl.
  intros ->. simpl in Hl. lia.
Qed.

(** The ways [GenerateQuote] panics. *)
Lemma GenerateQuote_Panic qe req ledgerIndex now :
  GenerateQuote NewFromFloat escape toValidUTF8 formatFloat blake2b_Sum256
    qe req ledgerIndex now = Panic
  ↔ ValidateQuoteRequest req = None
    ∧ (FindBestRoute (pathfinder qe) (In_ req) (Out req) (Amount req) = Panic
       ∨ ∃ route,
           FindBestRoute (pathfinder qe) (In_ req) (Out req) (Amount req)
           = Done (inl route)
           ∧ (calculateTotalFees route = Panic
              ∨ ∃ hop price,
                  last (Hops route) = Some hop
                  ∧ decimal.Div (AmountOut hop) (Amount req) = Some price
                  ∧ CheckPrice NewFromFloat (breaker qe) (pair_of req) price
                      now = Panic)).
Proof.
  unfold GenerateQuote, pair_of, mret, exec_ret.
  destruct (ValidateQuoteRequest req) as [err|] eqn:EV.
  { split; [done|]. by intros [? _]. }
  pose proof (validated_amount req EV) as Hnz.
  destruct (FindBestRoute _ _ _ _) as [[route|err]| |] eqn:EF;
    cbn [mbind exec_bind].
  - pose proof (FindBestRoute_hops _ _ _ _ _ EF) as Hne.
    destruct (last (Hops route)) as [hop|] eqn:EL;
      [|by apply last_None in EL].
    destruct (Div_spec (AmountOut hop) (Amount req) Hnz) as (price & ED & _).
    destruct (calculateTotalFees route) as [fees| |] eqn:EC;
      cbn [mbind exec_bind].
    + unfold last_hop at 1. rewrite EL. cbn [must mbind exec_bind].
      rewrite ED. cbn [must mbind exec_bind].
      rewrite (calculatePriceImpact_price route (Amount req) hop price EL ED).
      cbn [mbind exec_bind]. split.
      * intros H. split; [done|]. right. exists route. split; [done|].
        right. exists hop, price. split_and!; [done..|].
        destruct (CheckPrice _ _ _ _ _) as [[cb [err|]]| |]; try done.
      * intros (_ & [|(r & [= <-] & [|(h & p & Hl & Hp & Hc)])]);
          try congruence.
        rewrite EL in Hl. injection Hl as <-.
        rewrite ED in Hp. injection Hp as <-. by rewrite Hc.
    + split; [|done]. intros _. split; [done|]. right. exists route.
      split; [done|]. by left.
    + split; [done|].
      intros (_ & [|(r & [= <-] & [|(h & p & _ & _ & H)])]);
        try congruence.
      exfalso. revert EC. unfold calculateTotalFees.
      pose proof (calculateTotalFees_loop_spec (Hops route) decimal.Zero)
        as (_ & _ & H3).
      destruct (calculateTotalFees_loop _ _); done.
  - split; [done|]. by intros (_ & [|(r & ? & _)]).
  - split; [|done]. intros _. split; [done|]. by left.
  - split; [done|]. by intros (_ & [|(r & ? & _)]).
Qed.

End engine_facts.

(** X28.  What a quote says.  When [GenerateQuote] answers with a
    response, the request was valid and the pathfinder found a route for
    it; the response carries the hops of that route, the output of its
    last hop as [Out], [Out / Amount] rounded to 16 places as the price,
    [|1 - price|] as the price impact of the route, the engine's basis
    points and the summed AMM fees as the fees, the ledger index it was
    given, a lifetime of 100 ledgers, and the hash of the request with
    exactly these fees, ledger index and lifetime; and the breaker has
    accepted the price for the pair [in-out]. *)
Theorem X28_what_a_quote_says
  (NewFromFloat : PrimFloat.float → decimal.Decimal)
  (escape toValidUTF8 : string → string) (formatFloat : Z → string)
  (blake2b_Sum256 : string → string)
  (qe : QuoteEngine) (req : QuoteRequest) (ledgerIndex now : Z)
  (cb' : CircuitBreaker) (resp : QuoteResponse) :
  GenerateQuote NewFromFloat escape toValidUTF8 formatFloat blake2b_Sum256
    qe req ledgerIndex now = Done (cb', inl resp) →
  ValidateQuoteRequest req = None
  ∧ (∃ route hop,
       FindBestRoute (pathfinder qe) (In_ req) (Out req) (Amount req)
       = Done (inl route)
       ∧ Hops (resp_Route resp) = Hops route
       ∧ last (Hops route) = Some hop
       ∧ resp_Out resp = AmountOut hop
       ∧ (decimal.toQ (TradingFees (resp_Fees resp))
          == amm_fees (Hops route))%Q)
  ∧ (decimal.toQ (resp_Price resp)
     == round16 (decimal.toQ (resp_Out resp) / decimal.toQ (Amount req)))%Q
  ∧ (decimal.toQ (PriceImpact (resp_Route resp))
     == Qabs (1 - decimal.toQ (resp_Price resp)))%Q
  ∧ RouterBps (resp_Fees resp) = routerBps qe
  ∧ EstOutFee (resp_Fees resp) = decimal.Zero
  ∧ resp_LedgerIndex resp = ledgerIndex
  ∧ resp_TTLLedgers resp = 100
  ∧ ComputeQuoteHash escape toValidUTF8 formatFloat blake2b_Sum256
      req (resp_Fees resp) ledgerIndex 100 = inl (resp_QuoteHash resp)
  ∧ CheckPrice NewFromFloat (breaker qe) (pair_of req) (resp_Price resp) now
    = Done (cb', None).
Proof.
  intros [(err & _ & _ & [=])|[(_ & err & _ & _ & [=])|H]]%GenerateQuote_Done.
  destruct H as (EV & route & fees & hop & price & err & EF & EC & EL & ED
                 & EK & H).
  destruct err as [err|]; [done|]. destruct H as (quoteHash & EH & [= ->]).
  unfold response_of; cbn.
  revert EC. unfold calculateTotalFees.
  destruct (calculateTotalFees_loop_spec (Hops route) decimal.Zero)
    as (_ & Hsum & _).
  destruct (calculateTotalFees_loop _ _) as [t| |]; cbn [mbind exec_bind];
    [|done..].
  intros [= <-]. cbn in EH |- *. specialize (Hsum t eq_refl).
  split_and!; try done.
  - exists route, hop. split_and!; try done.
    rewrite Hsum, toQ_Zero. ring.
  - by apply Div_round16.
  - rewrite toQ_Abs, toQ_Sub, toQ_NewFromInt. reflexivity.
Qed.

Lemma quote_scenario_1 :
  GenerateQuote NewFromFloat_0_05 id id pretty id
    engine_scenario_1 request_scenario_1 7 1 = outcome_scenario_1.
Proof. vm_compute. reflexivity. Qed.

Lemma X28_what_a_quote_says_witness :
  ∃ cb' resp,
    GenerateQuote NewFromFloat_0_05 id id pretty id
      engine_scenario_1 request_scenario_1 7 1 = Done (cb', inl resp)
    ∧ resp_TTLLedgers resp = 100
    ∧ RouterBps (resp_Fees resp) = 20
    ∧ CheckPrice NewFromFloat_0_05 (breaker engine_scenario_1)
        (pair_of request_scenario_1) (resp_Price resp) 1 = Done (cb', None).
Proof.
  pose proof quote_scenario_1 as H. unfold outcome_scenario_1 in H.
  eexists _, _. split; [exact H|].
  destruct (X28_what_a_quote_says _ _ _ _ _ _ _ _ _ _ _ H)
    as (_ & _ & _ & _ & H1 & _ & _ & H2 & _ & H3).
  split_and!; [exact H2 | exact H1 | exact H3].
Defined.

(** X29.  What a refusal leaves behind.  When [GenerateQuote] answers
    with an error, it is the validator's, and then the breaker is as it
    was; or the request is valid and it is the pathfinder's, and the
    breaker is as it was; or the request is valid, a route was found,
    and it is [ErrCircuitBreakerOpen]: then the breaker differs at most
    in the state of the pair [in-out], whose window of prices is as it
    was, and nothing was handed to the persist callback. *)
Theorem X29_what_a_refusal_leaves_behind
  (NewFromFloat : PrimFloat.float → decimal.Decimal)
  (escape toValidUTF8 : string → string) (formatFloat : Z → string)
  (blake2b_Sum256 : string → string)
  (qe : QuoteEngine) (req : QuoteRequest) (ledgerIndex now : Z)
  (cb' : CircuitBreaker) (err : error) :
  GenerateQuote NewFromFloat escape toValidUTF8 formatFloat blake2b_Sum256
    qe req ledgerIndex now = Done (cb', inr err) →
  (ValidateQuoteRequest req = Some err ∧ cb' = breaker qe)
  ∨ (ValidateQuoteRequest req = None
     ∧ FindBestRoute (pathfinder qe) (In_ req) (Out req) (Amount req)
       = Done (inr err)
     ∧ cb' = breaker qe)
  ∨ (ValidateQuoteRequest req = None
     ∧ (∃ route,
          FindBestRoute (pathfinder qe) (In_ req) (Out req) (Amount req)
          = Done (inl route))
     ∧ err = ErrCircuitBreakerOpen
     ∧ (∀ other, other ≠ pair_of req →
          states cb' !! other = states (breaker qe) !! other)
     ∧ (∃ st', states cb' !! pair_of req = Some st'
               ∧ recentPrices st'
                 = from_option recentPrices []
                     (states (breaker qe) !! pair_of req))
     ∧ persisted cb' = persisted (breaker qe)).
Proof.
  intros [(e & EV & -> & [= <-])|[(EV & e & EF & -> & [= <-])|H]]
    %GenerateQuote_Done.
  { by left. }
  { right. left. by split_and!. }
  destruct H as (EV & route & fees & hop & price & e & EF & EC & EL & ED
                 & EK & H).
  right. right. split; [done|]. split; [by exists route|].
  destruct e as [e|]; [|by destruct H as (? & _ & [=])].
  injection H as <-.
  apply CheckPrice_outcome in EK as (st & st' & Hst & Hs & H).
  destruct H as [(He & Hr & Hp)|([=] & _)]. injection He as ->.
  split; [done|]. split_and!; [| |done].
  - intros other Ho. by rewrite Hs, lookup_insert_ne.
  - exists st'. rewrite Hs, lookup_insert_eq. split; [done|].
    rewrite Hr. by destruct Hst as [->|[-> ->]].
Qed.

Lemma X29_what_a_refusal_leaves_behind_witness :
  GenerateQuote NewFromFloat_0_05 id id pretty id
    engine_scenario_1 request_for_EUR 7 1
  = Done (breaker engine_scenario_1, inr ErrNoRoute)
  ∧ (ValidateQuoteRequest request_for_EUR = None
     ∧ FindBestRoute (pathfinder engine_scenario_1) XRP EUR_I
         (decimal.NewFromInt 100) = Done (inr ErrNoRoute)).
Proof.
  assert (GenerateQuote NewFromFloat_0_05 id id pretty id
            engine_scenario_1 request_for_EUR 7 1
          = Done (breaker engine_scenario_1, inr ErrNoRoute)) as H
    by (vm_compute; reflexivity).
  split; [exact H|].
  destruct (X29_what_a_refusal_leaves_behind _ _ _ _ _ _ _ _ _ _ _ H)
    as [[E _]|[(EV & EF & _)|(_ & [route E] & _)]].
  - vm_compute in E. discriminate E.
  - split; [exact EV|exact EF].
  - vm_compute in E. discriminate E.
Defined.

(** X30.  When the engine crashes.  [GenerateQuote] panics exactly when
    the request is valid and either the pathfinder panics, or it finds a
    route with an AMM hop that takes in nothing (the fee of the hop
    divides by its input), or the breaker panics on the price of the
    route.  A pool whose fee eats the whole input, followed by another
    pool, gives such a route. *)
Theorem X30_when_the_engine_crashes
  (NewFromFloat : PrimFloat.float → decimal.Decimal)
  (escape toValidUTF8 : string → string) (formatFloat : Z → string)
  (blake2b_Sum256 : string → string)
  (qe : QuoteEngine) (req : QuoteRequest) (ledgerIndex now : Z) :
  GenerateQuote NewFromFloat escape toValidUTF8 formatFloat blake2b_Sum256
    qe req ledgerIndex now = Panic
  ↔ ValidateQuoteRequest req = None
    ∧ (FindBestRoute (pathfinder qe) (In_ req) (Out req) (Amount req)
       = Panic
       ∨ ∃ route,
           FindBestRoute (pathfinder qe) (In_ req) (Out req) (Amount req)
           = Done (inl route)
           ∧ ((∃ hop, hop ∈ Hops route ∧ Type_ hop = "amm"
                      ∧ decimal.value (AmountIn hop) = 0)
              ∨ ∃ hop price,
                  last (Hops route) = Some hop
                  ∧ decimal.Div (AmountOut hop) (Amount req) = Some price
                  ∧ CheckPrice NewFromFloat (breaker qe) (pair_of req)
                      price now = Panic)).
Proof.
  rewrite GenerateQuote_Panic.
  assert (∀ route,
            calculateTotalFees route = Panic
            ↔ ∃ hop, hop ∈ Hops route ∧ Type_ hop = "amm"
                     ∧ decimal.value (AmountIn hop) = 0) as Hfees.
  { intros route. unfold calculateTotalFees.
    destruct (calculateTotalFees_loop_spec (Hops route) decimal.Zero)
      as (H1 & _ & _).
    rewrite <- H1.
    destruct (calculateTotalFees_loop _ _); cbn [mbind exec_bind]; done. }
  split; intros (EV & [H|(route & EF & [H|H])]); (split; [done|]);
    try (by left); right; exists route; (split; [done|]);
    try (by right); left; by apply Hfees.
Qed.

Lemma X30_when_the_engine_crashes_witness :
  GenerateQuote NewFromFloat_0_05 id id pretty id
    engine_full_fee request_for_EUR 7 1 = Panic.
Proof.
  apply X30_when_the_engine_crashes. split; [vm_compute; reflexivity|].
  right. eexists. split; [vm_compute; reflexivity|].
  left. exists hop_of_nothing. split; [|split; reflexivity].
  cbn [Hops]. apply elem_of_cons. right. apply elem_of_cons. by left.
Defined.
